(** * Verification of solver.py, a brute-force solver for "The Ultimate Puzzle"

    The development embeds the Python program shallowly:

    - a piece is a Python [str], here a [string]; an edge symbol is one
      character, here an [ascii];
    - a board is a list of rows, a row is a list of pieces; the empty cell is
      the string ["_"];
    - Python exceptions are the constructors of [exn], and a function that
      may raise returns a [result];
    - a generator is the list of the values it yields, followed by the
      exception that ends it, if one does ([gen]);
    - the [while] loop of [solve] is a function on an explicit state, run for
      a number of iterations;
    - mutation and aliasing are studied on a second model of
      [possible_moves], which runs on a store of list objects with
      identities ([Module Store]); its children hold the values that the
      model on values yields. *)

From Stdlib Require Import ZArith Lia Ascii String.
From stdpp Require Import base option list sorting strings gmap.

Local Open Scope string_scope.
Local Open Scope list_scope.

(** ** Exceptions and results *)

Inductive exn : Type :=
  | IndexError
  | KeyError
  | TypeError.

Inductive result (A : Type) : Type :=
  | Ok (a : A)
  | Raise (e : exn).

Arguments Ok {A} a.
Arguments Raise {A} e.

Definition rbind {A B : Type} (r : result A) (k : A -> result B) : result B :=
  match r with
  | Ok a => k a
  | Raise e => Raise e
  end.

Notation "'let?' x ':=' r 'in' k" := (rbind r (fun x => k))
  (at level 10, x name, r at level 100, k at level 200).

(** [s[i]] on a string and [l[i]] on a list, for [i >= 0]. *)
Definition str_index (s : string) (i : nat) : result ascii :=
  match String.get i s with
  | Some c => Ok c
  | None => Raise IndexError
  end.

Definition list_index {A : Type} (l : list A) (i : nat) : result A :=
  match l !! i with
  | Some a => Ok a
  | None => Raise IndexError
  end.

(** [s[i:]]: a slice never raises, it is cut at the end of the string. *)
Fixpoint str_from (i : nat) (s : string) : string :=
  match i, s with
  | 0, _ => s
  | S i', String _ t => str_from i' t
  | S _, EmptyString => EmptyString
  end.

Definition str1 (c : ascii) : string := String c EmptyString.

(** ** The piece model *)

Abbreviation piece := string.

(** The dictionary [matches], in the order of the source. *)
Definition matches : list (ascii * ascii) :=
  [ ("A", "B"); ("B", "A"); ("C", "D"); ("D", "C");
    ("E", "F"); ("F", "E"); ("G", "H"); ("H", "G") ]%char.

(** [d[k]] on a dictionary: [KeyError] when the key is absent. *)
Fixpoint dict_get (d : list (ascii * ascii)) (k : ascii) : result ascii :=
  match d with
  | [] => Raise KeyError
  | (k', v) :: d' => if Ascii.eqb k k' then Ok v else dict_get d' k
  end.

Arguments dict_get : simpl never.

(** [piece[1:] + piece[0]] *)
Definition rotate_piece (p : piece) : result piece :=
  let tl := str_from 1 p in
  let? c := str_index p 0 in
  Ok (tl +:+ str1 c).

(** [piece[0] + piece[3] + piece[2] + piece[1]] *)
Definition flip_piece (p : piece) : result piece :=
  let? c0 := str_index p 0 in
  let? c3 := str_index p 3 in
  let? c2 := str_index p 2 in
  let? c1 := str_index p 1 in
  Ok (((str1 c0 +:+ str1 c3) +:+ str1 c2) +:+ str1 c1).

(** [for _ in range(n): results.append(rotate_piece(results[-1]))] *)
Fixpoint append_rotations (n : nat) (results : list piece)
  : result (list piece) :=
  match n with
  | 0 => Ok results
  | S n' =>
      let? prev := match last results with
                   | Some p => Ok p
                   | None => Raise IndexError
                   end in
      let? r := rotate_piece prev in
      append_rotations n' (results ++ [r])
  end.

Definition orientations (p : piece) : result (list piece) :=
  let? results := append_rotations 3 [p] in
  let? f := flip_piece p in
  append_rotations 3 (results ++ [f]).

(** [sorted] on a list of strings.  Python's sort is stable and compares
    strings lexicographically by code point; [String.le] is that order on
    ASCII strings, and it is a total order, so the sorted list is unique. *)
Definition sorted (l : list string) : list string := merge_sort String.le l.

Definition piece_identity (p : piece) : result piece :=
  let? os := orientations p in
  list_index (sorted os) 0.

(** A piece description of the puzzle: exactly four symbols. *)
Definition four_symbols (p : piece) : Prop := String.length p = 4.

Definition in_alphabet (c : ascii) : Prop := exists v, dict_get matches c = Ok v.

Definition over_alphabet (p : piece) : Prop :=
  forall i c, String.get i p = Some c -> in_alphabet c.

(** ** The board model *)

Abbreviation board := (list (list piece)).

Definition empty_cell : piece := "_".

(** [board[y][x]] *)
Definition cell (b : board) (x y : nat) : result piece :=
  let? row := list_index b y in
  list_index row x.

(** Python's [a and b] and [a or b] on conditions that may raise: the right
    operand is evaluated only when the left one does not decide. *)
Definition and_then (a b : result bool) : result bool :=
  let? v := a in if v then b else Ok false.

Definition or_else (a b : result bool) : result bool :=
  let? v := a in if v then Ok true else b.

(** [board[ny][nx] == '_' or board[ny][nx][i] == matches[piece[j]]] *)
Definition neighbour_ok (b : board) (nx ny i : nat) (p : piece) (j : nat)
  : result bool :=
  or_else
    (let? c := cell b nx ny in Ok (bool_decide (c = empty_cell)))
    (let? c := cell b nx ny in
     let? e := str_index c i in
     let? s := str_index p j in
     let? m := dict_get matches s in
     Ok (bool_decide (e = m))).

(** The positions [x] and [y] are the indices produced by [next_free], which
    are never negative; [len(...) - 1] is computed in [Z], as it is [-1] on
    an empty list. *)
Definition check_piece_fits (b : board) (p : piece) (x y : nat)
  : result bool :=
  and_then
    (* north *)
    (or_else (Ok (bool_decide (y = 0))) (neighbour_ok b x (y - 1) 2 p 0))
  (and_then
    (* east *)
    (or_else
       (let? row := list_index b y in
        Ok (bool_decide (Z.of_nat x = (Z.of_nat (length row) - 1)%Z)))
       (neighbour_ok b (x + 1) y 3 p 1))
  (and_then
    (* south *)
    (or_else
       (Ok (bool_decide (Z.of_nat y = (Z.of_nat (length b) - 1)%Z)))
       (neighbour_ok b x (y + 1) 0 p 2))
    (* west *)
    (or_else (Ok (bool_decide (x = 0))) (neighbour_ok b (x - 1) y 1 p 3)))).

(** [next_free]: the first empty cell in row-major order, as [(x, y)];
    [None] is Python's [None], returned when the loops run to their end. *)
Fixpoint row_free (row : list piece) (x : nat) : option nat :=
  match row with
  | [] => None
  | c :: row' =>
      if bool_decide (c = empty_cell) then Some x else row_free row' (S x)
  end.

Fixpoint next_free_from (b : board) (y : nat) : option (nat * nat) :=
  match b with
  | [] => None
  | row :: b' =>
      match row_free row 0 with
      | Some x => Some (x, y)
      | None => next_free_from b' (S y)
      end
  end.

Definition next_free (b : board) : option (nat * nat) := next_free_from b 0.

(** [next_piece]: every piece of the pool with the pool without it. *)
Definition next_piece (pieces : list piece) : list (piece * list piece) :=
  imap (fun piece_idx npiece =>
          (npiece, take piece_idx pieces ++ drop (piece_idx + 1) pieces))
       pieces.

(** [nboard = list(map(list, board)); nboard[y][x] = piece] on board values:
    the copy is the same value, the assignment raises out of range. *)
Definition set_cell (b : board) (x y : nat) (p : piece) : result board :=
  let? row := list_index b y in
  if bool_decide (x < length row)
  then Ok (<[y := <[x := p]> row]> b)
  else Raise IndexError.

(** ** Generators *)

Record gen (A : Type) : Type := Gen {
  yields : list A;          (* the values yielded, in order *)
  raised : option exn       (* the exception that ends the generator *)
}.

Arguments Gen {A} yields raised.
Arguments yields {A} g.
Arguments raised {A} g.

Definition gen_done {A : Type} : gen A := Gen [] None.
Definition gen_raise {A : Type} (e : exn) : gen A := Gen [] (Some e).
Definition gen_yield {A : Type} (a : A) (g : gen A) : gen A :=
  Gen (a :: yields g) (raised g).

(** Run [g1], then [g2] unless [g1] raised. *)
Definition gen_seq {A : Type} (g1 g2 : gen A) : gen A :=
  match raised g1 with
  | Some e => g1
  | None => Gen (yields g1 ++ yields g2) (raised g2)
  end.

Abbreviation state := (board * list piece)%type.

(** The inner loop of [possible_moves], over the orientations of one piece. *)
Fixpoint moves_of_orientations (b : board) (x y : nat) (npieces : list piece)
    (os : list piece) : gen state :=
  match os with
  | [] => gen_done
  | p :: os' =>
      match check_piece_fits b p x y with
      | Raise e => gen_raise e
      | Ok false => moves_of_orientations b x y npieces os'
      | Ok true =>
          match set_cell b x y p with
          | Raise e => gen_raise e
          | Ok nboard =>
              gen_yield (nboard, npieces)
                        (moves_of_orientations b x y npieces os')
          end
      end
  end.

(** The outer loop of [possible_moves], over [next_piece(pieces)]. *)
Fixpoint moves_of_pieces (b : board) (x y : nat)
    (nps : list (piece * list piece)) : gen state :=
  match nps with
  | [] => gen_done
  | (npiece, npieces) :: nps' =>
      match orientations npiece with
      | Raise e => gen_raise e
      | Ok os =>
          gen_seq (moves_of_orientations b x y npieces os)
                  (moves_of_pieces b x y nps')
      end
  end.

(** [x, y = next_free(board)] raises [TypeError] when [next_free] returns
    [None]. *)
Definition possible_moves (b : board) (pieces : list piece) : gen state :=
  match next_free b with
  | None => gen_raise TypeError
  | Some (x, y) => moves_of_pieces b x y (next_piece pieces)
  end.

Definition accept (b : board) (pieces : list piece) : bool :=
  bool_decide (length pieces = 0).

(** ** The search *)

(** A progress report printed by [solve]: the counters, the best board and
    the pool that is printed with it (the pool of the state just queued). *)
Record snapshot : Type := Snapshot {
  snap_explored : Z;
  snap_queued : nat;
  snap_board : board;
  snap_pieces : list piece
}.

(** The local variables of [solve], with the tuples yielded and the reports
    printed so far.  The work list is a [deque] used at its right end only
    ([pop] and [append]); that end is the head of the list. *)
Record solver : Type := Solver {
  worklist : list state;
  min_board : board;
  min_pieces : list piece;
  n_explored : Z;
  emitted : list (board * Z * nat);
  printed : list snapshot
}.

Definition solve_init (b : board) (pieces : list piece) : solver :=
  Solver [(b, pieces)] b pieces 0 [] [].

(** The body of the [for] loop of [solve], for one child state. *)
Definition process_child (st : solver) (child : state) : solver :=
  let '(nboard, npieces) := child in
  let n := (n_explored st + 1)%Z in
  if accept nboard npieces then
    Solver (worklist st) (min_board st) (min_pieces st) n
           (emitted st ++ [(nboard, n, length (worklist st))]) (printed st)
  else
    let wl := (nboard, npieces) :: worklist st in
    let update := bool_decide (length npieces <= length (min_pieces st)) in
    let mb := if update then nboard else min_board st in
    let mp := if update then npieces else min_pieces st in
    let pr := if bool_decide ((n mod 10000)%Z = 0%Z)
              then printed st ++ [Snapshot n (length wl) mb npieces]
              else printed st in
    Solver wl mb mp n (emitted st) pr.

Arguments process_child : simpl never.

(** How a run stands after some iterations of the [while] loop. *)
Inductive status : Type :=
  | Returned               (* the work list is empty: [solve] returned *)
  | Raised (e : exn)       (* an exception left [solve] *)
  | Running.               (* the work list is not empty yet *)

(** One iteration of the [while] loop on a popped state. *)
Definition expand (st : solver) (w : state) (rest : list state)
  : option exn * solver :=
  let g := possible_moves w.1 w.2 in
  let st0 := Solver rest (min_board st) (min_pieces st) (n_explored st)
                    (emitted st) (printed st) in
  (raised g, foldl process_child st0 (yields g)).

Arguments expand : simpl never.

(** At most [n] iterations of the [while] loop. *)
Fixpoint solve_loop (n : nat) (st : solver) : status * solver :=
  match worklist st with
  | [] => (Returned, st)
  | w :: rest =>
      match n with
      | 0 => (Running, st)
      | S n' =>
          match expand st w rest with
          | (Some e, st') => (Raised e, st')
          | (None, st') => solve_loop n' st'
          end
      end
  end.

Definition solve (n : nat) (b : board) (pieces : list piece)
  : status * solver :=
  solve_loop n (solve_init b pieces).

Definition solutions (r : status * solver) : list board :=
  (fun t => t.1.1) <$> emitted r.2.

(** The inventory of the puzzle. *)
Definition input_pieces : list piece :=
  [ "EAGB"; "CABD"; "GCHB"; "GEFD"; "EADF"; "CAHD"; "CEFD"; "CEBD";
    "CGDB"; "CCFD"; "AGHF"; "GGBD"; "GGBF"; "EEDH"; "GCFH"; "ACFF" ].

(** [main]: [pieces = sorted(piece_identity(p) for p in input_pieces)] *)
Fixpoint identities (input : list piece) : result (list piece) :=
  match input with
  | [] => Ok []
  | p :: input' =>
      let? q := piece_identity p in
      let? qs := identities input' in
      Ok (q :: qs)
  end.

Definition load_pieces (input : list piece) : result (list piece) :=
  let? qs := identities input in
  Ok (sorted qs).

(** ** The store model of [possible_moves]

    Python lists are objects with an identity: a board is a list of
    references to row lists, and [nboard[y][x] = piece] writes into a row
    object.  Strings are immutable and are kept as values. *)

Module Store.

Abbreviation loc := nat.

Inductive obj : Type :=
  | Strs (items : list string)     (* a list of strings: a row, a pool *)
  | Refs (items : list loc).       (* a list of lists: a board *)

Abbreviation store := (gmap loc obj).

(** A new list object, at an address that is not in use. *)
Definition alloc (o : obj) (h : store) : loc * store :=
  let l := fresh (dom h) in (l, <[l := o]> h).

Arguments alloc : simpl never.

Definition read_strs (h : store) (l : loc) : option (list string) :=
  match h !! l with
  | Some (Strs xs) => Some xs
  | _ => None
  end.

Definition read_refs (h : store) (l : loc) : option (list loc) :=
  match h !! l with
  | Some (Refs ls) => Some ls
  | _ => None
  end.

(** The board value held at a reference; [None] when the reference does
    not hold a list of lists of strings. *)
Definition read_board (h : store) (l : loc) : option board :=
  rls ← read_refs h l; mapM (read_strs h) rls.

(** [map(list, board)], consumed by [list]: a new row object per row. *)
Fixpoint copy_rows (rls : list loc) (h : store)
  : option (list loc * store) :=
  match rls with
  | [] => Some ([], h)
  | rl :: rls' =>
      xs ← read_strs h rl;
      let '(l', h1) := alloc (Strs xs) h in
      '(ls, h2) ← copy_rows rls' h1;
      Some (l' :: ls, h2)
  end.

(** [list(map(list, board))] *)
Definition copy_board (bl : loc) (h : store) : option (loc * store) :=
  rls ← read_refs h bl;
  '(ls, h1) ← copy_rows rls h;
  Some (alloc (Refs ls) h1).

(** [nboard[y][x] = piece]: the row object is updated in place. *)
Definition assign (nl : loc) (x y : nat) (p : piece) (h : store)
  : option (result unit * store) :=
  rls ← read_refs h nl;
  match rls !! y with
  | None => Some (Raise IndexError, h)
  | Some rl =>
      xs ← read_strs h rl;
      if bool_decide (x < length xs)
      then Some (Ok (), <[rl := Strs (<[x := p]> xs)]> h)
      else Some (Raise IndexError, h)
  end.

(** The inner loop of [possible_moves]; a child is a pair of references,
    to its board and to its pool. *)
Fixpoint moves_of_orientations (bl : loc) (x y : nat) (npl : loc)
    (os : list piece) (h : store) : option (gen (loc * loc) * store) :=
  match os with
  | [] => Some (gen_done, h)
  | p :: os' =>
      b ← read_board h bl;
      match check_piece_fits b p x y with
      | Raise e => Some (gen_raise e, h)
      | Ok false => moves_of_orientations bl x y npl os' h
      | Ok true =>
          '(nl, h1) ← copy_board bl h;
          '(r, h2) ← assign nl x y p h1;
          match r with
          | Raise e => Some (gen_raise e, h2)
          | Ok _ =>
              '(g, h3) ← moves_of_orientations bl x y npl os' h2;
              Some (gen_yield (nl, npl) g, h3)
          end
      end
  end.

(** The outer loop, over [range(len(pieces))]; the slices
    [pieces[:i] + pieces[i+1:]] make a new list object. *)
Fixpoint moves_of_pieces (bl pl : loc) (x y : nat) (idxs : list nat)
    (h : store) : option (gen (loc * loc) * store) :=
  match idxs with
  | [] => Some (gen_done, h)
  | piece_idx :: idxs' =>
      pieces ← read_strs h pl;
      match pieces !! piece_idx with
      | None => Some (gen_raise IndexError, h)
      | Some npiece =>
          let '(npl, h1) :=
            alloc (Strs (take piece_idx pieces
                           ++ drop (piece_idx + 1) pieces)) h in
          match orientations npiece with
          | Raise e => Some (gen_raise e, h1)
          | Ok os =>
              '(g1, h2) ← moves_of_orientations bl x y npl os h1;
              match raised g1 with
              | Some _ => Some (g1, h2)
              | None =>
                  '(g2, h3) ← moves_of_pieces bl pl x y idxs' h2;
                  Some (gen_seq g1 g2, h3)
              end
          end
      end
  end.

Definition possible_moves (bl pl : loc) (h : store)
  : option (gen (loc * loc) * store) :=
  b ← read_board h bl;
  pieces ← read_strs h pl;
  match next_free b with
  | None => Some (gen_raise TypeError, h)
  | Some (x, y) =>
      moves_of_pieces bl pl x y (seq 0 (length pieces)) h
  end.

(** The value of a child state in a store. *)
Definition read_state (h : store) (c : loc * loc) : option state :=
  b ← read_board h c.1; ps ← read_strs h c.2; Some (b, ps).

(** A board object that shares no list object with the store [h]: the board
    and its rows are all new in [h']. *)
Definition fresh_board (h h' : store) (nl : loc) : Prop :=
  (nl ∉ dom h) /\
  exists ls, read_refs h' nl = Some ls /\ Forall (fun l => l ∉ dom h) ls.

End Store.

(** ** Vocabulary of the specification *)

(** The cell at column [x] of row [y], when the board has one. *)
Definition at_cell (b : board) (x y : nat) : option piece :=
  row ← b !! y; row !! x.

(** A cell that holds a piece. *)
Abbreviation filled := (fun c : piece => c <> empty_cell).

(** A cell of an extension of a board: a placed piece stays. *)
Abbreviation keeps := (fun c c' : piece => c <> empty_cell -> c' = c).

(** A piece is placed at [(x, y)]. *)
Definition placed (b : board) (x y : nat) (p : piece) : Prop :=
  at_cell b x y = Some p /\ p <> empty_cell.

(** Edge [i] of [c] touches edge [j] of [p], and the symbols are
    complementary: [c[i] == matches[p[j]]]. *)
Definition edges_match (c : piece) (i : nat) (p : piece) (j : nat) : Prop :=
  exists e s, String.get i c = Some e /\ String.get j p = Some s /\
              dict_get matches s = Ok e.

(** Every two orthogonally adjacent placed pieces touch with complementary
    symbols: east edge against west edge, south edge against north edge. *)
Definition valid_board (b : board) : Prop :=
  (forall x y l r, placed b x y l -> placed b (x + 1) y r ->
                   edges_match l 1 r 3) /\
  (forall x y u d, placed b x y u -> placed b x (y + 1) d ->
                   edges_match u 2 d 0).

Definition count_empty (b : board) : nat :=
  length (filter (fun c => c = empty_cell) (concat b)).

(** A rectangular grid whose cells are empty or hold four symbols. *)
Definition wf_cell (c : piece) : Prop := c = empty_cell \/ four_symbols c.

Definition wf_board (b : board) : Prop :=
  Forall (fun r1 => Forall (fun r2 => length r1 = length r2) b) b /\
  Forall (Forall wf_cell) b.

Definition wf_piece (p : piece) : Prop := four_symbols p /\ over_alphabet p.

(** One direction of the compatibility rule: the cell is on the boundary,
    or the neighbour is empty, or the touching symbols are complementary. *)
Definition side_ok (boundary : Prop) (b : board) (nx ny i : nat)
    (p : piece) (j : nat) : Prop :=
  boundary \/
  at_cell b nx ny = Some empty_cell \/
  (exists c, at_cell b nx ny = Some c /\ edges_match c i p j).

Definition fits (b : board) (p : piece) (x y : nat) : Prop :=
  side_ok (y = 0) b x (y - 1) 2 p 0 /\
  side_ok (exists row, b !! y = Some row /\ x + 1 = length row)
          b (x + 1) y 3 p 1 /\
  side_ok (y + 1 = length b) b x (y + 1) 0 p 2 /\
  side_ok (x = 0) b (x - 1) y 1 p 3.

(** [c] is a child of [s] in the search. *)
Definition child (s c : state) : Prop :=
  c ∈ yields (possible_moves s.1 s.2).

(** [o] is one of the eight orientations of [q]. *)
Definition is_orientation (o q : piece) : Prop :=
  exists os, orientations q = Ok os /\ o ∈ os.

(** [t] has the shape of [b] and keeps its placed pieces. *)
Definition extends (b t : board) : Prop :=
  Forall2 (Forall2 keeps) b t.

(** The cells of [t] at the empty cells of [b], in row-major order. *)
Definition new_cells (b t : board) : list piece :=
  snd <$> filter (fun cc => cc.1 = empty_cell) (zip (concat b) (concat t)).

(** [t] completes [b] from the pool: the placed pieces are kept and every
    empty cell holds an orientation of a pool piece, no pool piece being
    used twice. *)
Definition tiling (b : board) (pool : list piece) (t : board) : Prop :=
  extends b t /\
  exists qs, qs ⊆+ pool /\ Forall2 is_orientation (new_cells b t) qs.

(** The invariant of the search loop for a property [I] of the states on the
    work list and a property [J] of the boards yielded. *)
Definition solver_inv (I : state -> Prop) (J : board -> Prop) (st : solver)
  : Prop :=
  Forall I (worklist st) /\ Forall (fun t => J t.1.1) (emitted st).

(** A result that is not the [TypeError] of unpacking [None]. *)
Definition not_TypeError {A : Type} (r : result A) : Prop :=
  r <> Raise TypeError.

(** A bound on the number of iterations that the search needs below a state
    with [k] pieces in its pool: the state itself and, for each of its at
    most [8 * k] children, the bound for [k - 1] pieces. *)
Fixpoint weight (k : nat) : nat :=
  match k with
  | 0 => 1
  | S k' => 1 + 8 * (S k') * weight k'
  end.

Definition work (wl : list state) : nat :=
  sum_list ((fun s : state => weight (length s.2)) <$> wl).

(** The states of a search that is well formed: a board, a pool of pieces
    over the alphabet, one piece per empty cell and at least one of them. *)
Definition search_inv (s : state) : Prop :=
  wf_board s.1 /\ Forall wf_piece s.2 /\
  count_empty s.1 = length s.2 /\ 1 <= length s.2.

(** ** Printing a board *)

Definition newline : string := String (ascii_of_nat 10) EmptyString.

Fixpoint spaces (n : nat) : string :=
  match n with
  | 0 => EmptyString
  | S n' => String " " (spaces n')
  end.

(** ['{:>4}'.format(piece)]: the piece at the right of a field of width 4,
    padded with spaces; a longer string is left as it is. *)
Definition format_right4 (p : piece) : string :=
  spaces (4 - String.length p) +:+ p.

(** ['\n'.join(' '.join('{:>4}'.format(piece) for piece in row)
               for row in board)]; [String.concat] is [str.join]. *)
Definition board_to_str (b : board) : string :=
  String.concat newline
    ((fun row => String.concat " " (format_right4 <$> row)) <$> b).


(** The cells that [t] has filled at the empty cells of [b], in row-major
    order. *)
Definition placed_from (b t : board) : list piece :=
  filter filled (new_cells b t).

(** [(x', y')] comes before [(x, y)] in row-major order. *)
Definition row_major_before (x' y' x y : nat) : Prop :=
  y' < y \/ (y' = y /\ x' < x).

(** ** The states that a search reaches *)

(** What [solve] keeps of the states reached from [root]: the work list and
    the tracked best state hold such states only, the tracked pool never
    grows and is empty only if the pool of [root] is, and every progress
    report was printed at a positive multiple of 10000 explored states, with
    a state just queued, the board of a reached state and the pool of a
    reached state. *)
Definition reached_inv (root : state) (st : solver) : Prop :=
  (0 <= n_explored st)%Z /\
  Forall (rtc child root) (worklist st) /\
  rtc child root (min_board st, min_pieces st) /\
  length (min_pieces st) <= length root.2 /\
  (root.2 <> [] -> min_pieces st <> []) /\
  Forall (fun s => (0 < snap_explored s <= n_explored st)%Z /\
                   (snap_explored s mod 10000 = 0)%Z /\
                   1 <= snap_queued s /\
                   (exists ps, rtc child root (snap_board s, ps)) /\
                   (exists nb, rtc child root (nb, snap_pieces s)))
         (printed st).

(** ** The size of the work list *)

(** The states of [wl] with [j] pieces in their pool. *)
Definition count_size (j : nat) (wl : list state) : nat :=
  length (filter (fun s : state => length s.2 = j) wl).

(** The shape of a depth-first work list below a state with [K] pieces:
    the pools grow from the right end (the head) to the left end, every pool
    is smaller than [K], and at most [8 * (j + 1)] states have a pool of
    [j] pieces, the children of one state with [j + 1] pieces. *)
Definition stack_inv (K : nat) (wl : list state) : Prop :=
  StronglySorted (fun s1 s2 : state => length s1.2 <= length s2.2) wl /\
  Forall (fun s : state => length s.2 < K) wl /\
  forall j, count_size j wl <= 8 * (j + 1).

Fixpoint stack_bound (K : nat) : nat :=
  match K with
  | 0 => 0
  | S k => 8 * S k + stack_bound k
  end.

(** The work list, the queue sizes yielded and the queue sizes printed stay
    within [stack_bound K]. *)
Definition queue_inv (K : nat) (st : solver) : Prop :=
  stack_inv K (worklist st) /\
  Forall (fun t : board * Z * nat => t.2 <= stack_bound K) (emitted st) /\
  Forall (fun s => snap_queued s <= stack_bound K) (printed st).

(** ** The order of the search *)

(** The boards found below a state with at most [k] pieces in its pool by a
    recursive depth-first traversal that takes the children of a state from
    the last to the first: the children that are solutions, then what is
    found below the other children. *)
Fixpoint depth_first (k : nat) (s : state) : list board :=
  match k with
  | 0 => []
  | S k' =>
      let cs := yields (possible_moves s.1 s.2) in
      (fst <$> filter (fun c : state => c.2 = []) cs) ++
      concat (depth_first k' <$>
              reverse (filter (fun c : state => c.2 <> []) cs))
  end.

(** ** The list objects of a board *)

(** The list objects that make up the board at [nl]: the board object and
    its row objects. *)
Definition board_objects (h : gmap nat Store.obj) (nl : nat) : list nat :=
  match Store.read_refs h nl with
  | Some ls => nl :: ls
  | None => []
  end.

(** No two of the children [cs] have a list object of their boards in
    common. *)
Definition separate (h : gmap nat Store.obj) (cs : list (nat * nat))
  : Prop :=
  forall i j c1 c2, i < j -> cs !! i = Some c1 -> cs !! j = Some c2 ->
    forall l, l ∈ board_objects h c1.1 -> l ∉ board_objects h c2.1.

(** ** Examples *)

Example rotate_EAGB : rotate_piece "EAGB" = Ok "AGBE".
Proof. reflexivity. Qed.

Example flip_EAGB : flip_piece "EAGB" = Ok "EBGA".
Proof. reflexivity. Qed.

Example orientations_EAGB :
  orientations "EAGB" =
  Ok ["EAGB"; "AGBE"; "GBEA"; "BEAG"; "EBGA"; "BGAE"; "GAEB"; "AEBG"].
Proof. reflexivity. Qed.

Example identity_EAGB : piece_identity "EAGB" = Ok "AEBG".
Proof. vm_compute. reflexivity. Qed.

(** Two rows as the head comment of the source shows them. *)
Example board_to_str_rows :
  board_to_str [["FDGE"; "GHFC"; "GDBG"; "ABDC"]; ["BECD"; "_"; "_"; "_"]] =
  "FDGE GHFC GDBG ABDC" +:+ newline +:+ "BECD    _    _    _".
Proof. reflexivity. Qed.

(** The pool of the puzzle, as [main] prints it. *)
Example load_input_pieces :
  load_pieces input_pieces =
  Ok [ "ABDC"; "ACDH"; "ACFF"; "ADFE"; "AEBG"; "AFHG"; "BCGD"; "BDCE";
       "BDGG"; "BFGG"; "BGCH"; "CCDF"; "CDFE"; "CFHG"; "DEEH"; "DFEG" ].
Proof. vm_compute. reflexivity. Qed.


(** ** The piece model: orientations and canonical identity *)

Lemma four_symbols_inv (p : piece) :
  four_symbols p ->
  exists a b c d, p = String a (String b (String c (String d ""))).
Proof.
  unfold four_symbols.
  destruct p as [|a [|b [|c [|d [|e p]]]]]; simpl; try discriminate.
  intros _. by exists a, b, c, d.
Qed.

Lemma orientations_four (a b c d : ascii) :
  orientations (String a (String b (String c (String d "")))) =
  Ok [ String a (String b (String c (String d "")));
       String b (String c (String d (String a "")));
       String c (String d (String a (String b "")));
       String d (String a (String b (String c "")));
       String a (String d (String c (String b "")));
       String d (String c (String b (String a "")));
       String c (String b (String a (String d "")));
       String b (String a (String d (String c ""))) ].
Proof. reflexivity. Qed.

Lemma is_orientation_four (o q : piece) :
  four_symbols q -> is_orientation o q -> four_symbols o.
Proof.
  intros (a & b & c & d & ->)%four_symbols_inv (os & Hos & Ho).
  rewrite orientations_four in Hos. injection Hos as <-.
  repeat (apply elem_of_cons in Ho as [-> | Ho]; [reflexivity|]).
  by apply elem_of_nil in Ho.
Qed.

Lemma is_orientation_alphabet (o q : piece) :
  wf_piece q -> is_orientation o q -> wf_piece o.
Proof.
  intros [H4 Hq] Ho. split; [by eapply is_orientation_four|].
  destruct (four_symbols_inv _ H4) as (a & b & c & d & ->).
  destruct Ho as (os & Hos & Ho).
  rewrite orientations_four in Hos. injection Hos as <-.
  assert (in_alphabet a) by (apply (Hq 0); reflexivity).
  assert (in_alphabet b) by (apply (Hq 1); reflexivity).
  assert (in_alphabet c) by (apply (Hq 2); reflexivity).
  assert (in_alphabet d) by (apply (Hq 3); reflexivity).
  repeat (apply elem_of_cons in Ho as [-> | Ho];
          [intros [|[|[|[|i]]]] s Hs; simpl in Hs; by simplify_eq|]).
  by apply elem_of_nil in Ho.
Qed.

(** Sorting does not depend on the order of its input. *)
Lemma sorted_Permutation (l1 l2 : list string) :
  l1 ≡ₚ l2 -> sorted l1 = sorted l2.
Proof.
  intros Hp. unfold sorted.
  apply (Sorted_unique String.le); try apply Sorted_merge_sort; try apply _.
  by rewrite !merge_sort_Permutation.
Qed.

Lemma sorted_head_elem (l : list string) (m : string) :
  list_index (sorted l) 0 = Ok m -> m ∈ l.
Proof.
  unfold list_index, sorted. intros Hm.
  destruct (merge_sort String.le l !! 0) as [m'|] eqn:E; [|discriminate].
  injection Hm as ->.
  rewrite <- (merge_sort_Permutation String.le l).
  eapply list_elem_of_lookup_2, E.
Qed.

(** Moves the head of the left list to its place in the right one. *)
Ltac perm_step :=
  first
    [ apply (Permutation_cons_app [] _ _)
    | apply (Permutation_cons_app [_] _ _)
    | apply (Permutation_cons_app [_; _] _ _)
    | apply (Permutation_cons_app [_; _; _] _ _)
    | apply (Permutation_cons_app [_; _; _; _] _ _)
    | apply (Permutation_cons_app [_; _; _; _; _] _ _)
    | apply (Permutation_cons_app [_; _; _; _; _; _] _ _)
    | apply (Permutation_cons_app [_; _; _; _; _; _; _] _ _) ];
  simpl.

(** The orientations of an orientation are the same eight pieces. *)
Lemma orientations_closed (p q : piece) (os : list piece) :
  four_symbols p -> orientations p = Ok os -> q ∈ os ->
  exists os', orientations q = Ok os' /\ os' ≡ₚ os.
Proof.
  intros (a & b & c & d & ->)%four_symbols_inv Hos Hq.
  rewrite orientations_four in Hos. injection Hos as <-.
  repeat (apply elem_of_cons in Hq as [-> | Hq];
          [rewrite orientations_four; eexists; split; [reflexivity|];
           do 8 perm_step; reflexivity|]).
  by apply elem_of_nil in Hq.
Qed.

(** On four symbols [piece_identity] never raises, and its result is one of
    the orientations. *)
Lemma piece_identity_total (p : piece) :
  four_symbols p -> exists m, piece_identity p = Ok m /\ is_orientation m p.
Proof.
  intros (a & b & c & d & ->)%four_symbols_inv.
  assert (exists m, piece_identity
            (String a (String b (String c (String d "")))) = Ok m) as [m Hm].
  { unfold piece_identity. rewrite orientations_four. simpl.
    unfold list_index, sorted.
    match goal with |- context [merge_sort _ ?l] =>
      pose proof (Permutation_length (merge_sort_Permutation String.le l)) as Hl
    end.
    destruct (merge_sort _ _) as [|m ms]; [discriminate|]. by exists m. }
  exists m. split; [done|].
  unfold piece_identity in Hm.
  destruct (orientations _) as [os|] eqn:Hos; [|discriminate]. simpl in Hm.
  exists os. split; [done|]. by apply sorted_head_elem.
Qed.

(** C5. For every 4-symbol piece [p], [orientations(p)] returns a list of
    exactly 8 values, and four applications of [rotate_piece] to [p] return
    [p] itself. *)
Theorem orientations_eight_rotate_order_four (p : piece) :
  four_symbols p ->
  (exists os, orientations p = Ok os /\ length os = 8) /\
  (let? p1 := rotate_piece p in
   let? p2 := rotate_piece p1 in
   let? p3 := rotate_piece p2 in
   rotate_piece p3) = Ok p.
Proof.
  intros (a & b & c & d & ->)%four_symbols_inv. split.
  - rewrite orientations_four. eexists. split; reflexivity.
  - reflexivity.
Qed.

Lemma orientations_eight_rotate_order_four_witness :
  (exists os, orientations "EAGB" = Ok os /\ length os = 8) /\
  (let? p1 := rotate_piece "EAGB" in
   let? p2 := rotate_piece p1 in
   let? p3 := rotate_piece p2 in
   rotate_piece p3) = Ok "EAGB".
Proof. apply (orientations_eight_rotate_order_four "EAGB"). reflexivity. Defined.

(** C6. For every 4-symbol piece [p], [piece_identity(p)] is a piece [m]
    with [piece_identity(m) == m], and every [q] in [orientations(p)] has
    [piece_identity(q) == m] as well. *)
Theorem piece_identity_stable (p : piece) :
  four_symbols p ->
  exists m, piece_identity p = Ok m /\
            piece_identity m = Ok m /\
            (forall q, is_orientation q p -> piece_identity q = Ok m).
Proof.
  intros H4.
  assert (Hinv : forall q m, is_orientation q p -> piece_identity p = Ok m ->
                             piece_identity q = Ok m).
  { intros q m (os & Hos & Hq) Hm.
    destruct (orientations_closed p q os H4 Hos Hq) as (os' & Hos' & Hperm).
    unfold piece_identity in *. rewrite Hos' . rewrite Hos in Hm. simpl in *.
    by rewrite (sorted_Permutation _ _ Hperm). }
  destruct (piece_identity_total p H4) as (m & Hm & Hmp).
  exists m. split; [done|]. split; [|by eauto].
  by apply Hinv.
Qed.

Lemma piece_identity_stable_witness :
  exists m, piece_identity "EAGB" = Ok m /\
            piece_identity m = Ok m /\
            (forall q, is_orientation q "EAGB" -> piece_identity q = Ok m).
Proof. apply (piece_identity_stable "EAGB"). reflexivity. Defined.

(** ** Loading the inventory *)

Lemma identities_total (input : list piece) :
  Forall four_symbols input ->
  exists qs, identities input = Ok qs /\ length qs = length input.
Proof.
  induction 1 as [|p input Hp _ (qs & Hqs & Hlen)]; simpl.
  - by exists [].
  - destruct (piece_identity_total p Hp) as (m & -> & _). simpl.
    rewrite Hqs. simpl. exists (m :: qs). split; [done|]. simpl. by rewrite Hlen.
Qed.

(** C4, as the code has it. Loading validates no symbol: for every list of
    4-symbol descriptions, whatever their symbols, [piece_identity] and the
    loading of the inventory return without an exception, with one pool
    entry per description. *)
Theorem load_pieces_never_rejects (input : list piece) :
  Forall four_symbols input ->
  exists ps, load_pieces input = Ok ps /\ length ps = length input /\
             Forall (fun p => exists m, piece_identity p = Ok m) input.
Proof.
  intros H4. destruct (identities_total input H4) as (qs & Hqs & Hlen).
  exists (sorted qs). unfold load_pieces. rewrite Hqs. simpl.
  split; [done|]. split.
  - unfold sorted.
    by rewrite (Permutation_length (merge_sort_Permutation String.le qs)).
  - eapply Forall_impl; [exact H4|]. intros p Hp.
    destruct (piece_identity_total p Hp) as (m & Hm & _). eauto.
Qed.

Lemma load_pieces_never_rejects_witness :
  exists ps, load_pieces ["XAAA"; "EAGB"] = Ok ps /\
             length ps = length ["XAAA"; "EAGB"] /\
             Forall (fun p => exists m, piece_identity p = Ok m)
                    ["XAAA"; "EAGB"].
Proof.
  apply (load_pieces_never_rejects ["XAAA"; "EAGB"]).
  repeat constructor.
Defined.

(** A symbol outside the alphabet surfaces in the search only, as the
    [KeyError] of [matches[...]], when an edge that carries it is compared
    with a placed neighbour. *)
Example invalid_symbol_raises_in_search :
  (solve 2 [["_"; "_"]] ["AXXX"; "BXXX"]).1 = Raised KeyError.
Proof. vm_compute. reflexivity. Qed.

(** C4, as the specification has it, fails: the description [XAAA] holds the
    symbol [X], which is not a key of [matches], and it is canonicalized and
    loaded without any exception. *)
Lemma invalid_symbol_not_rejected :
  ~ over_alphabet "XAAA" /\
  piece_identity "XAAA" = Ok "AAAX" /\
  load_pieces ["XAAA"] = Ok ["AAAX"].
Proof.
  split; [|split; vm_compute; reflexivity].
  intros H. destruct (H 0 "X"%char eq_refl) as [v Hv]. vm_compute in Hv.
  discriminate.
Qed.

(** ** The compatibility rule *)

Lemma cell_at_cell (b : board) (x y : nat) :
  cell b x y = match at_cell b x y with
               | Some c => Ok c
               | None => Raise IndexError
               end.
Proof.
  unfold cell, at_cell, list_index.
  destruct (b !! y) as [row|]; [simpl|simpl; done]. by destruct (row !! x).
Qed.

Lemma neighbour_ok_true (b : board) (nx ny i : nat) (p : piece) (j : nat) :
  neighbour_ok b nx ny i p j = Ok true <->
  at_cell b nx ny = Some empty_cell \/
  (exists c, at_cell b nx ny = Some c /\ edges_match c i p j).
Proof.
  unfold neighbour_ok, or_else, edges_match, str_index.
  rewrite cell_at_cell.
  destruct (at_cell b nx ny) as [c|]; simpl.
  2: { split; [discriminate|]. intros [?|(c & ? & _)]; discriminate. }
  case_bool_decide as Hc; simpl.
  { split; [|done]. intros _. left. by rewrite Hc. }
  split.
  - intros H. right. exists c. split; [done|].
    destruct (String.get i c) as [e|]; simpl in H; [|discriminate].
    destruct (String.get j p) as [s|]; simpl in H; [|discriminate].
    destruct (dict_get matches s) as [m|] eqn:Hm; simpl in H; [|discriminate].
    exists e, s. injection H as H. apply bool_decide_eq_true in H. by subst.
  - intros [Hcell | (c' & Hc' & e & s & He & Hs & Hm)].
    + by injection Hcell.
    + injection Hc' as <-. rewrite He, Hs. simpl. rewrite Hm. simpl.
      by rewrite bool_decide_eq_true_2.
Qed.

Lemma len_minus_one (x n : nat) :
  Z.of_nat x = (Z.of_nat n - 1)%Z <-> x + 1 = n.
Proof. lia. Qed.

(** [check_piece_fits] returns [True] exactly when the four directions are
    compatible; this holds on every board, well formed or not. *)
Lemma check_piece_fits_true (b : board) (p : piece) (x y : nat) :
  check_piece_fits b p x y = Ok true <-> fits b p x y.
Proof.
  unfold check_piece_fits, fits, side_ok.
  assert (Hand : forall r1 r2, and_then r1 r2 = Ok true <->
                               r1 = Ok true /\ r2 = Ok true).
  { intros [[]|] r2; simpl; intuition congruence. }
  assert (Hor : forall (P : Prop) `{Decision P} r,
             or_else (Ok (bool_decide P)) r = Ok true <-> P \/ r = Ok true).
  { intros P ? r. simpl. case_bool_decide; intuition congruence. }
  rewrite !Hand, !Hor, !neighbour_ok_true.
  assert (or_else
            (let? row := list_index b y in
             Ok (bool_decide (Z.of_nat x = (Z.of_nat (length row) - 1)%Z)))
            (neighbour_ok b (x + 1) y 3 p 1) = Ok true <->
          (exists row, b !! y = Some row /\ x + 1 = length row) \/
          at_cell b (x + 1) y = Some empty_cell \/
          (exists c, at_cell b (x + 1) y = Some c /\ edges_match c 3 p 1))
    as ->.
  { rewrite <- neighbour_ok_true. unfold list_index.
    destruct (b !! y) as [row|] eqn:Hrow; simpl.
    - case_bool_decide as Hx; simpl; rewrite len_minus_one in Hx.
      + split; [|done]. intros _. left. by exists row.
      + split; [by right|]. intros [(row' & [= <-] & Hx')|H]; done.
    - split; [done|]. intros [(row' & ? & _)|H]; [done|].
      apply neighbour_ok_true in H. unfold at_cell in H.
      rewrite Hrow in H. simpl in H.
      destruct H as [H|(c & H & _)]; discriminate. }
  rewrite len_minus_one. tauto.
Qed.

Lemma wf_board_cell (b : board) (x y : nat) (c : piece) :
  wf_board b -> at_cell b x y = Some c -> c = empty_cell \/ four_symbols c.
Proof.
  intros [_ Hc]. unfold at_cell.
  destruct (b !! y) as [row|] eqn:Hrow; [simpl|simpl; done].
  intros Hx. eapply Forall_lookup_1 in Hc; [|exact Hrow].
  eapply Forall_lookup_1 in Hc; [|exact Hx]. exact Hc.
Qed.

Lemma wf_board_at (b : board) (x y y' : nat) :
  wf_board b -> is_Some (at_cell b x y) -> y' < length b ->
  is_Some (at_cell b x y').
Proof.
  intros [Hw _] [c Hc] Hy'. unfold at_cell in *.
  destruct (b !! y) as [row|] eqn:Hrow; [simpl in *|simpl in *; done].
  destruct (lookup_lt_is_Some_2 b y' Hy') as [row' Hrow'].
  rewrite Hrow'. simpl. apply lookup_lt_is_Some.
  eapply Forall_lookup_1 in Hw; [|exact Hrow'].
  eapply Forall_lookup_1 in Hw; [|exact Hrow].
  rewrite Hw. by eapply lookup_lt_Some.
Qed.

Lemma four_symbols_get (c : piece) (i : nat) :
  four_symbols c -> i < 4 -> is_Some (String.get i c).
Proof.
  intros (a & b & d & e & ->)%four_symbols_inv Hi.
  destruct i as [|[|[|[|i]]]]; simpl; eauto; lia.
Qed.

Lemma neighbour_ok_total (b : board) (nx ny i : nat) (p : piece) (j : nat) :
  wf_board b -> wf_piece p -> is_Some (at_cell b nx ny) -> i < 4 -> j < 4 ->
  exists r, neighbour_ok b nx ny i p j = Ok r.
Proof.
  intros Hb [H4 Ha] [c Hc] Hi Hj.
  unfold neighbour_ok, or_else, str_index. rewrite cell_at_cell, Hc. simpl.
  case_bool_decide as Hne; [simpl; by eauto|simpl].
  destruct (wf_board_cell _ _ _ _ Hb Hc) as [|H4c]; [done|].
  destruct (four_symbols_get c i H4c Hi) as [e ->]. simpl.
  destruct (four_symbols_get p j H4 Hj) as [s Hs]. rewrite Hs. simpl.
  destruct (Ha j s Hs) as [m ->]. simpl. eauto.
Qed.

Lemma check_piece_fits_total (b : board) (p : piece) (x y : nat) :
  wf_board b -> wf_piece p -> is_Some (at_cell b x y) ->
  exists r, check_piece_fits b p x y = Ok r.
Proof.
  intros Hb Hp Hxy.
  assert (Hy : y < length b).
  { destruct Hxy as [c Hc]. unfold at_cell in Hc.
    destruct (b !! y) as [row|] eqn:Hrow; [|done].
    by eapply lookup_lt_Some. }
  assert (Hand : forall r1 r2 : result bool,
             (exists v, r1 = Ok v) -> (exists v, r2 = Ok v) ->
             exists v, and_then r1 r2 = Ok v).
  { intros r1 r2 [[] ->] [v ->]; simpl; eauto. }
  assert (Hor : forall (c : bool) (r2 : result bool),
             (c = false -> exists v, r2 = Ok v) ->
             exists v, or_else (Ok c) r2 = Ok v).
  { intros [] r2 H; simpl; eauto. }
  unfold check_piece_fits. repeat apply Hand.
  - apply Hor. intros Hn%bool_decide_eq_false.
    apply neighbour_ok_total; [done..| |lia|lia].
    eapply wf_board_at; [done..|lia].
  - destruct Hxy as [c Hc]. unfold at_cell in Hc. unfold list_index.
    destruct (b !! y) as [row|] eqn:Hrow; [simpl in *|simpl in *; done].
    apply Hor. intros Hn%bool_decide_eq_false.
    rewrite len_minus_one in Hn.
    apply neighbour_ok_total; [done..| |lia|lia].
    unfold at_cell. rewrite Hrow. simpl. apply lookup_lt_is_Some.
    apply lookup_lt_Some in Hc. lia.
  - apply Hor. intros Hn%bool_decide_eq_false.
    rewrite len_minus_one in Hn.
    apply neighbour_ok_total; [done..| |lia|lia].
    eapply wf_board_at; [done..|lia].
  - apply Hor. intros Hn%bool_decide_eq_false.
    apply neighbour_ok_total; [done..| |lia|lia].
    destruct Hxy as [c Hc]. unfold at_cell in *.
    destruct (b !! y) as [row|] eqn:Hrow; [simpl in *|simpl in *; done].
    apply lookup_lt_is_Some. apply lookup_lt_Some in Hc. lia.
Qed.

(** C7. On every board [check_piece_fits] returns [True] if and only if in
    each of the four directions the cell is on the boundary, or the
    neighbour is empty, or the neighbour's touching symbol is the complement
    under [matches] of the piece's symbol on that side.  On a board proper
    (a rectangular grid whose cells are empty or hold four symbols), for a
    4-symbol piece over the alphabet and a position on the board, it raises
    nothing: it returns a truth value, [True] in that case and [False]
    otherwise. *)
Theorem check_piece_fits_spec (b : board) (p : piece) (x y : nat) :
  (check_piece_fits b p x y = Ok true <-> fits b p x y) /\
  (wf_board b -> four_symbols p -> over_alphabet p ->
   is_Some (at_cell b x y) ->
   exists r, check_piece_fits b p x y = Ok r /\ (r = true <-> fits b p x y)).
Proof.
  split; [apply check_piece_fits_true|].
  intros Hb H4 Ha Hxy.
  destruct (check_piece_fits_total b p x y Hb (conj H4 Ha) Hxy) as [r Hr].
  exists r. split; [done|].
  rewrite <- check_piece_fits_true, Hr. split; congruence.
Qed.

Lemma check_piece_fits_spec_witness :
  (check_piece_fits [["AAAA"; "_"]] "BBBB" 1 0 = Ok true <->
   fits [["AAAA"; "_"]] "BBBB" 1 0) /\
  exists r, check_piece_fits [["AAAA"; "_"]] "BBBB" 1 0 = Ok r /\
            (r = true <-> fits [["AAAA"; "_"]] "BBBB" 1 0).
Proof.
  destruct (check_piece_fits_spec [["AAAA"; "_"]] "BBBB" 1 0) as [Hiff Htot].
  split; [exact Hiff|]. apply Htot.
  - split; repeat first [by left | by right | constructor].
  - reflexivity.
  - intros [|[|[|[|i]]]] c Hc; simpl in Hc; try discriminate;
      injection Hc as <-; eexists; reflexivity.
  - eexists. reflexivity.
Defined.

(** ** The next free cell *)

Lemma row_free_Some (row : list piece) (k x : nat) :
  row_free row k = Some x ->
  exists r1 r2, row = r1 ++ empty_cell :: r2 /\ x = k + length r1 /\
                Forall filled r1.
Proof.
  revert k. induction row as [|c row IH]; intros k; simpl; [done|].
  case_bool_decide as Hc.
  - intros [= <-]. exists [], row. subst c. simpl. split; [done|].
    split; [lia|constructor].
  - intros (r1 & r2 & -> & -> & Hr1)%IH.
    exists (c :: r1), r2. simpl. split; [done|]. split; [lia|].
    by constructor.
Qed.

Lemma row_free_None (row : list piece) (k : nat) :
  row_free row k = None <-> Forall filled row.
Proof.
  revert k. induction row as [|c row IH]; intros k; simpl.
  - split; [constructor|done].
  - case_bool_decide as Hc.
    + split; [done|]. intros H. by inversion H.
    + rewrite IH. split; [by constructor|]. intros H. by inversion H.
Qed.

Lemma next_free_from_Some (b : board) (k x y : nat) :
  next_free_from b k = Some (x, y) ->
  exists b1 r1 r2 b2,
    b = b1 ++ (r1 ++ empty_cell :: r2) :: b2 /\
    y = k + length b1 /\ x = length r1 /\
    Forall (Forall filled) b1 /\ Forall filled r1.
Proof.
  revert k. induction b as [|row b IH]; intros k; simpl; [done|].
  destruct (row_free row 0) as [x'|] eqn:Hrow.
  - intros [= <- <-].
    destruct (row_free_Some _ _ _ Hrow) as (r1 & r2 & -> & -> & Hr1).
    exists [], r1, r2, b. simpl. split_and!; [done|lia|done|constructor|done].
  - intros (b1 & r1 & r2 & b2 & -> & -> & -> & Hb1 & Hr1)%IH.
    exists (row :: b1), r1, r2, b2. simpl.
    split_and!; [done|lia|done| |done].
    constructor; [|done]. by eapply row_free_None.
Qed.

Lemma next_free_from_None (b : board) (k : nat) :
  next_free_from b k = None <-> Forall (Forall filled) b.
Proof.
  revert k. induction b as [|row b IH]; intros k; simpl.
  - split; [constructor|done].
  - destruct (row_free row 0) as [x'|] eqn:Hrow.
    + split; [done|]. intros H. inversion H as [|? ? Hr _]; subst.
      apply (row_free_None row 0) in Hr. congruence.
    + rewrite IH. apply row_free_None in Hrow.
      split; [by constructor|]. intros H. by inversion H.
Qed.

(** The board around its first empty cell. *)
Lemma next_free_Some (b : board) (x y : nat) :
  next_free b = Some (x, y) ->
  exists b1 r1 r2 b2,
    b = b1 ++ (r1 ++ empty_cell :: r2) :: b2 /\
    y = length b1 /\ x = length r1 /\
    Forall (Forall filled) b1 /\ Forall filled r1.
Proof. unfold next_free. intros H. by apply next_free_from_Some in H. Qed.

Lemma next_free_None (b : board) :
  next_free b = None <-> Forall (Forall filled) b.
Proof. apply next_free_from_None. Qed.

Lemma filter_empty_filled (row : list piece) :
  Forall filled row -> filter (fun c => c = empty_cell) row = [].
Proof.
  induction 1 as [|c row Hc _ IH]; [done|].
  by rewrite filter_cons_False.
Qed.

Lemma concat_filled (b : board) :
  Forall (Forall filled) b -> Forall filled (concat b).
Proof.
  induction 1 as [|row b Hrow _ IH]; simpl; [constructor|].
  by apply Forall_app.
Qed.

Lemma count_empty_zero (b : board) :
  count_empty b = 0 <-> next_free b = None.
Proof.
  rewrite next_free_None. unfold count_empty. split.
  - intros H%nil_length_inv.
    induction b as [|row b IH]; [constructor|].
    simpl in H. rewrite filter_app in H. apply app_eq_nil in H as [H1 H2].
    constructor; [|by apply IH].
    clear -H1. induction row as [|c row IH]; [constructor|].
    destruct (decide (c = empty_cell)) as [->|Hc].
    + by rewrite filter_cons_True in H1.
    + rewrite filter_cons_False in H1 by done. constructor; auto.
  - intros H%concat_filled. by rewrite filter_empty_filled.
Qed.

Lemma set_cell_middle (b1 b2 : board) (r1 r2 : list piece) (c p : piece) :
  set_cell (b1 ++ (r1 ++ c :: r2) :: b2) (length r1) (length b1) p =
  Ok (b1 ++ (r1 ++ p :: r2) :: b2).
Proof.
  unfold set_cell, list_index.
  rewrite list_lookup_middle by done. simpl.
  rewrite bool_decide_eq_true_2 by (rewrite length_app; simpl; lia).
  f_equal. rewrite !insert_app_r_alt by done.
  by rewrite !Nat.sub_diag.
Qed.

Lemma count_empty_middle (b1 b2 : board) (r1 r2 : list piece) (p : piece) :
  p <> empty_cell ->
  count_empty (b1 ++ (r1 ++ empty_cell :: r2) :: b2) =
  S (count_empty (b1 ++ (r1 ++ p :: r2) :: b2)).
Proof.
  intros Hp. unfold count_empty.
  rewrite !concat_app, !concat_cons, !filter_app, !length_app.
  rewrite filter_cons_True by done. rewrite filter_cons_False by done.
  simpl. lia.
Qed.

(** ** Orientations of an arbitrary string *)

Lemma append_length (s1 s2 : string) :
  String.length (s1 +:+ s2) = String.length s1 + String.length s2.
Proof. induction s1 as [|c s1 IH]; simpl; [done|]. by rewrite IH. Qed.

Lemma rotate_piece_length (p r : piece) :
  rotate_piece p = Ok r -> String.length r = String.length p.
Proof.
  unfold rotate_piece, str_index. destruct p as [|c p]; simpl; [done|].
  intros [= <-]. rewrite append_length. simpl. lia.
Qed.

Lemma flip_piece_length (p f : piece) :
  flip_piece p = Ok f -> String.length f = 4 /\ 4 <= String.length p.
Proof.
  unfold flip_piece, str_index.
  destruct p as [|a [|b [|c [|d p]]]]; simpl; try done.
  intros [= <-]. simpl. split; [done|lia].
Qed.

Lemma append_rotations_spec (n : nat) (results res : list piece) (k : nat) :
  append_rotations n results = Ok res ->
  Forall (fun o => k <= String.length o) results ->
  length res = length results + n /\
  Forall (fun o => k <= String.length o) res.
Proof.
  revert results. induction n as [|n IH]; intros results; simpl.
  - intros [= <-] H. split; [lia|done].
  - destruct (last results) as [prev|] eqn:Hlast; simpl; [|done].
    destruct (rotate_piece prev) as [r|] eqn:Hr; simpl; [|done].
    intros Hres Hall.
    destruct (IH _ Hres) as [Hlen Hall'].
    + apply Forall_app. split; [done|]. constructor; [|constructor].
      rewrite (rotate_piece_length _ _ Hr).
      apply last_Some in Hlast as [l' ->].
      apply Forall_app in Hall as [_ Hall]. by inversion Hall.
    + split; [|done]. rewrite Hlen, length_app. simpl. lia.
Qed.

Lemma orientations_spec (p : piece) (os : list piece) :
  orientations p = Ok os ->
  length os = 8 /\ Forall (fun o => 4 <= String.length o) os.
Proof.
  unfold orientations.
  destruct (append_rotations 3 [p]) as [res|] eqn:Hres; cbn [rbind]; [|done].
  destruct (flip_piece p) as [f|] eqn:Hf; cbn [rbind]; [|done].
  intros Hos. destruct (flip_piece_length _ _ Hf) as [Hf4 Hp4].
  destruct (append_rotations_spec _ _ _ 4 Hres) as [Hlen Hall].
  { by repeat constructor. }
  destruct (append_rotations_spec _ _ _ 4 Hos) as [Hlen' Hall'].
  { apply Forall_app. split; [done|]. repeat constructor. lia. }
  split; [|done]. rewrite Hlen', length_app, Hlen. simpl. lia.
Qed.

Lemma is_orientation_filled (o q : piece) : is_orientation o q -> filled o.
Proof.
  intros (os & Hos & Ho) ->.
  apply orientations_spec in Hos as [_ Hall].
  rewrite Forall_forall in Hall. apply Hall in Ho. simpl in Ho. lia.
Qed.

(** ** The children of a state *)

Lemma next_piece_elem (pieces : list piece) (q : piece) (np : list piece) :
  (q, np) ∈ next_piece pieces <->
  exists i, pieces !! i = Some q /\ np = delete i pieces.
Proof.
  unfold next_piece. rewrite list_elem_of_lookup. split.
  - intros (i & Hi). rewrite list_lookup_imap in Hi.
    destruct (pieces !! i) as [q'|] eqn:Hq; simpl in Hi; [|done].
    injection Hi as -> <-. exists i. split; [done|].
    by rewrite delete_take_drop, Nat.add_1_r.
  - intros (i & Hi & ->). exists i. rewrite list_lookup_imap, Hi. simpl.
    by rewrite delete_take_drop, Nat.add_1_r.
Qed.

Lemma gen_seq_yields {A : Type} (g1 g2 : gen A) (a : A) :
  a ∈ yields (gen_seq g1 g2) -> a ∈ yields g1 \/ a ∈ yields g2.
Proof.
  unfold gen_seq. destruct (raised g1); simpl; [by left|].
  by rewrite elem_of_app.
Qed.

Lemma gen_seq_raised {A : Type} (g1 g2 : gen A) :
  raised (gen_seq g1 g2) =
  match raised g1 with
  | Some e => Some e
  | None => raised g2
  end.
Proof. unfold gen_seq. by destruct (raised g1) eqn:E. Qed.

Lemma moves_of_orientations_elem (b : board) (x y : nat)
    (npieces os : list piece) (c : state) :
  c ∈ yields (moves_of_orientations b x y npieces os) ->
  exists o nboard, o ∈ os /\ check_piece_fits b o x y = Ok true /\
                   set_cell b x y o = Ok nboard /\ c = (nboard, npieces).
Proof.
  induction os as [|p os IH]; simpl.
  - by intros ?%elem_of_nil.
  - destruct (check_piece_fits b p x y) as [[]|] eqn:Hfit; simpl.
    + destruct (set_cell b x y p) as [nboard|] eqn:Hset; simpl.
      * intros [->|Hc]%elem_of_cons.
        -- exists p, nboard. split_and!; [left|done..].
        -- destruct (IH Hc) as (o & nb & Ho & ?). exists o, nb.
           split; [by right|done].
      * by intros ?%elem_of_nil.
    + intros Hc. destruct (IH Hc) as (o & nb & Ho & ?). exists o, nb.
      split; [by right|done].
    + by intros ?%elem_of_nil.
Qed.

Lemma moves_of_pieces_elem (b : board) (x y : nat)
    (nps : list (piece * list piece)) (c : state) :
  c ∈ yields (moves_of_pieces b x y nps) ->
  exists q npieces o nboard,
    (q, npieces) ∈ nps /\ is_orientation o q /\
    check_piece_fits b o x y = Ok true /\
    set_cell b x y o = Ok nboard /\ c = (nboard, npieces).
Proof.
  induction nps as [|[q npieces] nps IH]; simpl.
  - by intros ?%elem_of_nil.
  - destruct (orientations q) as [os|] eqn:Hos; simpl.
    + intros [Hc|Hc]%gen_seq_yields.
      * apply moves_of_orientations_elem in Hc
          as (o & nb & Ho & Hfit & Hset & ->).
        exists q, npieces, o, nb. split_and!; [left| |done..].
        by exists os.
      * destruct (IH Hc) as (q' & np' & o & nb & Hin & ?).
        exists q', np', o, nb. split; [by right|done].
    + by intros ?%elem_of_nil.
Qed.

(** What a child is: an orientation of a pool piece that fits, placed at the
    first empty cell, with that piece taken out of the pool. *)
Lemma child_inv (s c : state) :
  child s c ->
  exists x y i q o nboard,
    next_free s.1 = Some (x, y) /\ s.2 !! i = Some q /\
    is_orientation o q /\ check_piece_fits s.1 o x y = Ok true /\
    set_cell s.1 x y o = Ok nboard /\ c = (nboard, delete i s.2).
Proof.
  unfold child, possible_moves.
  destruct (next_free s.1) as [[x y]|] eqn:Hfree; simpl.
  - intros (q & np & o & nb & Hin & Ho & Hfit & Hset & ->)%moves_of_pieces_elem.
    apply next_piece_elem in Hin as (i & Hi & ->).
    by exists x, y, i, q, o, nb.
  - by intros ?%elem_of_nil.
Qed.

Lemma matches_involutive (s e : ascii) :
  dict_get matches s = Ok e -> dict_get matches e = Ok s.
Proof.
  cbv [dict_get matches].
  repeat match goal with
         | |- context [Ascii.eqb s ?k] =>
             destruct (Ascii.eqb_spec s k) as [->|_]; [by intros [= <-]|]
         end.
  discriminate.
Qed.

Lemma edges_match_sym (c : piece) (i : nat) (p : piece) (j : nat) :
  edges_match c i p j -> edges_match p j c i.
Proof.
  intros (e & s & He & Hs & Hm). exists s, e.
  split_and!; [done..|]. by apply matches_involutive.
Qed.

Lemma set_cell_inv (b nboard : board) (x y : nat) (p : piece) :
  set_cell b x y p = Ok nboard ->
  exists row, b !! y = Some row /\ x < length row /\
              nboard = <[y := <[x := p]> row]> b.
Proof.
  unfold set_cell, list_index.
  destruct (b !! y) as [row|]; simpl; [|done].
  case_bool_decide; [|done]. intros [= <-]. by exists row.
Qed.

Lemma at_cell_insert (b : board) (row : list piece) (x y x' y' : nat)
    (p : piece) :
  b !! y = Some row -> x < length row ->
  at_cell (<[y := <[x := p]> row]> b) x' y' =
  if decide (x' = x /\ y' = y) then Some p else at_cell b x' y'.
Proof.
  intros Hrow Hx. unfold at_cell.
  destruct (decide (y' = y)) as [->|Hy].
  - rewrite list_lookup_insert_eq by by eapply lookup_lt_Some.
    rewrite Hrow. simpl.
    destruct (decide (x' = x)) as [->|Hx'].
    + rewrite list_lookup_insert_eq by done. by rewrite decide_True.
    + rewrite list_lookup_insert_ne by done.
      rewrite decide_False by tauto. done.
  - rewrite list_lookup_insert_ne by done.
    rewrite decide_False by tauto. done.
Qed.

(** A child of a state, spelled out on the board around the first empty
    cell. *)
Lemma child_shape (s c : state) :
  child s c ->
  exists b1 r1 r2 b2 i q o,
    s.1 = b1 ++ (r1 ++ empty_cell :: r2) :: b2 /\
    Forall (Forall filled) b1 /\ Forall filled r1 /\
    s.2 !! i = Some q /\ is_orientation o q /\
    fits s.1 o (length r1) (length b1) /\
    c = (b1 ++ (r1 ++ o :: r2) :: b2, delete i s.2).
Proof.
  intros (x & y & i & q & o & nb & Hfree & Hi & Ho & Hfit & Hset & ->)%child_inv.
  apply next_free_Some in Hfree
    as (b1 & r1 & r2 & b2 & Hb & -> & -> & Hb1 & Hr1).
  rewrite Hb, set_cell_middle in Hset. injection Hset as <-.
  apply check_piece_fits_true in Hfit.
  by exists b1, r1, r2, b2, i, q, o.
Qed.

Lemma child_count (s c : state) :
  child s c ->
  count_empty s.1 = S (count_empty c.1) /\ length s.2 = S (length c.2).
Proof.
  intros (b1 & r1 & r2 & b2 & i & q & o & Hb & _ & _ & Hi & Ho & _ & ->)
         %child_shape.
  simpl. rewrite Hb. split.
  - apply count_empty_middle. by eapply is_orientation_filled.
  - rewrite length_delete by eauto. apply lookup_lt_Some in Hi. lia.
Qed.

Lemma child_valid (s c : state) :
  child s c -> valid_board s.1 -> valid_board c.1.
Proof.
  intros (x & y & i & q & o & nb & Hfree & Hi & Ho & Hfit & Hset & ->)%child_inv
         [Hh Hv].
  apply check_piece_fits_true in Hfit as (Hn & He & Hs & Hw).
  apply set_cell_inv in Hset as (row & Hrow & Hx & ->). simpl.
  assert (Hempty : at_cell s.1 x y = Some empty_cell).
  { apply next_free_Some in Hfree
      as (b1 & r1 & r2 & b2 & Hb & -> & -> & _ & _).
    unfold at_cell. rewrite Hb, list_lookup_middle by done. simpl.
    by rewrite list_lookup_middle. }
  unfold valid_board, placed.
  setoid_rewrite (at_cell_insert s.1 row x y _ _ o Hrow Hx).
  split.
  - intros x' y' l r [Hl Hlne] [Hr Hrne].
    destruct (decide (x' = x /\ y' = y)) as [[Ex Ey]|Hne1].
    + rewrite decide_False in Hr by lia.
      injection Hl as <-. subst x' y'.
      destruct He as [(row' & Hrow' & Hlen)|[He|(c & Hc & Hm)]].
      * unfold at_cell in Hr. rewrite Hrow' in Hr. simpl in Hr.
        apply lookup_lt_Some in Hr. lia.
      * congruence.
      * apply edges_match_sym. congruence.
    + destruct (decide (x' + 1 = x /\ y' = y)) as [[Ex Ey]|Hne2].
      * injection Hr as <-. subst x y'.
        replace (x' + 1 - 1) with x' in Hw by lia.
        destruct Hw as [Hw|[Hw|(c & Hc & Hm)]]; [lia|congruence..].
      * by apply (Hh x' y').
  - intros x' y' u d [Hu Hune] [Hd Hdne].
    destruct (decide (x' = x /\ y' = y)) as [[Ex Ey]|Hne1].
    + rewrite decide_False in Hd by lia.
      injection Hu as <-. subst x' y'.
      destruct Hs as [Hlen|[Hs|(c & Hc & Hm)]].
      * unfold at_cell in Hd.
        destruct (s.1 !! (y + 1)) as [row'|] eqn:Hrow'; [|done].
        apply lookup_lt_Some in Hrow'. lia.
      * congruence.
      * apply edges_match_sym. congruence.
    + destruct (decide (x' = x /\ y' + 1 = y)) as [[Ex Ey]|Hne2].
      * injection Hd as <-. subst x' y.
        replace (y' + 1 - 1) with y' in Hn by lia.
        destruct Hn as [Hn|[Hn|(c & Hc & Hm)]]; [lia|congruence..].
      * by apply (Hv x' y').
Qed.

(** ** Invariants of the search loop *)

Lemma accept_true (b : board) (pieces : list piece) :
  accept b pieces = true <-> pieces = [].
Proof.
  unfold accept. rewrite bool_decide_eq_true. apply length_zero_iff_nil.
Qed.

(** The equations of the loop. *)
Lemma solve_loop_nil (n : nat) (st : solver) :
  worklist st = [] -> solve_loop n st = (Returned, st).
Proof. intros H. destruct n; simpl; by rewrite H. Qed.

Lemma solve_loop_0 (st : solver) (w : state) (rest : list state) :
  worklist st = w :: rest -> solve_loop 0 st = (Running, st).
Proof. intros H. simpl. by rewrite H. Qed.

Lemma solve_loop_S (n : nat) (st : solver) (w : state) (rest : list state) :
  worklist st = w :: rest ->
  solve_loop (S n) st =
  match expand st w rest with
  | (Some e, st') => (Raised e, st')
  | (None, st') => solve_loop n st'
  end.
Proof. intros H. cbn [solve_loop]. by rewrite H. Qed.

Section loop_invariant.
(** [I] holds of the states on the work list, [J] of the boards yielded. *)
Variable I : state -> Prop.
Variable J : board -> Prop.

Hypothesis I_child :
  forall s c, I s -> child s c -> c.2 <> [] -> I c.
Hypothesis J_child :
  forall s c, I s -> child s c -> c.2 = [] -> J c.1.

Lemma process_child_inv (st : solver) (c : state) :
  solver_inv I J st -> (c.2 <> [] -> I c) -> (c.2 = [] -> J c.1) ->
  solver_inv I J (process_child st c).
Proof.
  intros [Hw He] HI HJ. destruct c as [nboard npieces].
  unfold process_child, solver_inv.
  destruct (accept nboard npieces) eqn:Hacc; simpl.
  - apply accept_true in Hacc. split; [done|].
    apply Forall_app. split; [done|]. constructor; [|constructor].
    by apply HJ.
  - split; [|done]. constructor; [|done]. apply HI. simpl.
    intros Hnil. apply (accept_true nboard npieces) in Hnil. congruence.
Qed.

Lemma foldl_process_child_inv (st : solver) (cs : list state) :
  solver_inv I J st ->
  Forall (fun c => (c.2 <> [] -> I c) /\ (c.2 = [] -> J c.1)) cs ->
  solver_inv I J (foldl process_child st cs).
Proof.
  revert st. induction cs as [|c cs IH]; intros st Hst Hcs; simpl; [done|].
  inversion Hcs as [|? ? [HI HJ] Hcs']; subst.
  apply IH; [|done]. by apply process_child_inv.
Qed.

Lemma expand_inv (st : solver) (w : state) (rest : list state) :
  solver_inv I J st -> worklist st = w :: rest ->
  solver_inv I J (expand st w rest).2.
Proof.
  intros [Hw He] Hwl. rewrite Hwl in Hw.
  inversion Hw as [|? ? Hw1 Hw2]; subst.
  unfold expand. simpl. apply foldl_process_child_inv; [done|].
  apply Forall_forall. intros c Hc. split; intros Hc2.
  - by apply (I_child w).
  - by apply (J_child w).
Qed.

Lemma solve_loop_inv (n : nat) (st : solver) :
  solver_inv I J st -> solver_inv I J (solve_loop n st).2.
Proof.
  revert st. induction n as [|n IH]; intros st Hst;
    destruct (worklist st) as [|w rest] eqn:Hwl;
    rewrite ?(solve_loop_nil _ _ Hwl), ?(solve_loop_0 _ _ _ Hwl),
            ?(solve_loop_S _ _ _ _ Hwl); try done.
  pose proof (expand_inv st w rest Hst Hwl) as Hst'.
  destruct (expand st w rest) as [[e|] st']; [done|]. by apply IH.
Qed.
End loop_invariant.

(** The tuples yielded are never taken back. *)
Lemma process_child_emitted (st : solver) (c : state) :
  emitted st `prefix_of` emitted (process_child st c).
Proof.
  destruct c as [nboard npieces]. unfold process_child.
  destruct (accept nboard npieces); simpl; [|done].
  by apply prefix_app_r.
Qed.

Lemma foldl_process_child_emitted (st : solver) (cs : list state) :
  emitted st `prefix_of` emitted (foldl process_child st cs).
Proof.
  revert st. induction cs as [|c cs IH]; intros st; simpl; [done|].
  etrans; [apply process_child_emitted|apply IH].
Qed.

Lemma expand_emitted (st : solver) (w : state) (rest : list state) :
  emitted st `prefix_of` emitted (expand st w rest).2.
Proof.
  unfold expand. simpl.
  apply (foldl_process_child_emitted
    (Solver rest (min_board st) (min_pieces st) (n_explored st)
            (emitted st) (printed st))).
Qed.

Lemma solve_loop_emitted (n : nat) (st : solver) :
  emitted st `prefix_of` emitted (solve_loop n st).2.
Proof.
  revert st. induction n as [|n IH]; intros st;
    destruct (worklist st) as [|w rest] eqn:Hwl;
    rewrite ?(solve_loop_nil _ _ Hwl), ?(solve_loop_0 _ _ _ Hwl),
            ?(solve_loop_S _ _ _ _ Hwl); try done.
  pose proof (expand_emitted st w rest) as Hpre.
  destruct (expand st w rest) as [[e|] st']; [done|].
  etrans; [exact Hpre|apply IH].
Qed.

(** ** Soundness of the solutions *)

(** C1, as the code has it. When the pieces already placed on the initial
    board are pairwise compatible (as on an all-empty board) and the pool
    holds exactly as many pieces as the board has empty cells, every tuple
    yielded by [solve] carries the board of a search state reached from the
    root whose pool is empty; that board is completely filled and every two
    orthogonally adjacent cells touch with complementary symbols. *)
Theorem solve_sound (n : nat) (b : board) (pieces : list piece)
    (t : board * Z * nat) :
  count_empty b = length pieces ->
  valid_board b ->
  t ∈ emitted (solve n b pieces).2 ->
  rtc child (b, pieces) (t.1.1, []) /\
  count_empty t.1.1 = 0 /\
  valid_board t.1.1.
Proof.
  intros Hcount Hvalid Ht.
  pose (I := fun s : state =>
          count_empty s.1 = length s.2 /\ valid_board s.1 /\
          rtc child (b, pieces) s).
  pose (J := fun nb : board =>
          rtc child (b, pieces) (nb, []) /\ count_empty nb = 0 /\
          valid_board nb).
  assert (Hstep : forall s c, I s -> child s c -> I c).
  { intros s c (Hc & Hv & Hr) Hchild. split_and!.
    - destruct (child_count _ _ Hchild). lia.
    - by eapply child_valid.
    - eapply rtc_r; [exact Hr|exact Hchild]. }
  assert (Hinv : solver_inv I J (solve n b pieces).2).
  { apply solve_loop_inv.
    - intros s c Hs Hchild _. by eapply Hstep.
    - intros s [nb np] Hs Hchild Hnil. simpl in Hnil. subst np.
      destruct (Hstep _ _ Hs Hchild) as (Hc & Hv & Hr). by split_and!.
    - split; simpl; [|constructor].
      constructor; [|constructor]. by split_and!. }
  destruct Hinv as [_ He]. rewrite Forall_forall in He. by apply He.
Qed.

Lemma valid_board_no_piece (b : board) :
  Forall (Forall (fun c => c = empty_cell)) b -> valid_board b.
Proof.
  intros Hall.
  assert (Hno : forall x y p, ~ placed b x y p).
  { intros x y p [Hp Hne]. unfold at_cell in Hp.
    destruct (b !! y) as [row|] eqn:Hrow; simpl in Hp; [|done].
    eapply Forall_lookup_1 in Hall; [|exact Hrow].
    eapply Forall_lookup_1 in Hall; [|exact Hp]. done. }
  split; intros x y l r Hl; by destruct (Hno _ _ _ Hl).
Qed.

Lemma solve_sound_witness :
  rtc child ([["_"; "_"]], ["AAAA"; "BBBB"]) ([["BBBB"; "AAAA"]], []) /\
  count_empty [["BBBB"; "AAAA"]] = 0 /\
  valid_board [["BBBB"; "AAAA"]].
Proof.
  apply (solve_sound 3 [["_"; "_"]] ["AAAA"; "BBBB"]
                     ([["BBBB"; "AAAA"]], 17%Z, 15)).
  - reflexivity.
  - apply valid_board_no_piece. repeat constructor.
  - apply (list_elem_of_lookup_2 _ 0). vm_compute. reflexivity.
Defined.

(** C1, as the specification has it, fails: on a board with one empty cell
    whose two placed pieces do not match each other, and a pool of one
    piece, [solve] yields a board with two adjacent cells that are not
    complementary. *)
Lemma solve_keeps_mismatch_of_initial_board :
  count_empty [["AAAA"; "AAAA"; "_"]] = length ["BBBB"] /\
  exists t, t ∈ emitted (solve 2 [["AAAA"; "AAAA"; "_"]] ["BBBB"]).2 /\
            ~ valid_board t.1.1.
Proof.
  split; [reflexivity|].
  exists ([["AAAA"; "AAAA"; "BBBB"]], 1%Z, 0). split.
  - apply (list_elem_of_lookup_2 _ 0). vm_compute. reflexivity.
  - intros [Hh _].
    destruct (Hh 0 0 "AAAA" "AAAA") as (e & s & He & Hs & Hm).
    + split; [reflexivity|discriminate].
    + split; [reflexivity|discriminate].
    + simpl in He, Hs. injection He as <-. injection Hs as <-.
      vm_compute in Hm. discriminate.
Qed.

(** ** The full board is never searched *)

Lemma rbind_not_TypeError {A B : Type} (r : result A) (k : A -> result B) :
  not_TypeError r -> (forall a, not_TypeError (k a)) ->
  not_TypeError (rbind r k).
Proof.
  unfold not_TypeError. destruct r as [a|e]; simpl.
  - intros _ Hk. apply Hk.
  - intros He _ Heq. injection Heq as ->. by apply He.
Qed.

Lemma str_index_not_TypeError (s : string) (i : nat) :
  not_TypeError (str_index s i).
Proof. unfold str_index. by destruct (String.get i s). Qed.

Lemma list_index_not_TypeError {A : Type} (l : list A) (i : nat) :
  not_TypeError (list_index l i).
Proof. unfold list_index. by destruct (l !! i). Qed.

Lemma dict_get_not_TypeError (d : list (ascii * ascii)) (k : ascii) :
  not_TypeError (dict_get d k).
Proof.
  unfold not_TypeError. induction d as [|[k' v] d IH].
  - intros H. cbv in H. discriminate.
  - change (dict_get ((k', v) :: d) k)
      with (if Ascii.eqb k k' then Ok v else dict_get d k).
    by destruct (Ascii.eqb k k').
Qed.

Lemma orientations_not_TypeError (p : piece) :
  not_TypeError (orientations p).
Proof.
  assert (Hrot : forall q, not_TypeError (rotate_piece q)).
  { intros q. apply rbind_not_TypeError; [apply str_index_not_TypeError|done]. }
  assert (Happ : forall n l, not_TypeError (append_rotations n l)).
  { induction n as [|n IH]; intros l; cbn [append_rotations]; [done|].
    apply rbind_not_TypeError; [by destruct (last l)|]. intros prev.
    apply rbind_not_TypeError; [apply Hrot|]. intros r. apply IH. }
  unfold orientations.
  apply rbind_not_TypeError; [apply Happ|]. intros res.
  apply rbind_not_TypeError; [|intros f; apply Happ].
  unfold flip_piece.
  repeat (apply rbind_not_TypeError; [apply str_index_not_TypeError|intros ?]).
  done.
Qed.

Lemma check_piece_fits_not_TypeError (b : board) (p : piece) (x y : nat) :
  not_TypeError (check_piece_fits b p x y).
Proof.
  assert (Hcell : forall nx ny, not_TypeError (cell b nx ny)).
  { intros nx ny. apply rbind_not_TypeError; intros;
      apply list_index_not_TypeError. }
  assert (Hor : forall r1 r2 : result bool,
             not_TypeError r1 -> not_TypeError r2 ->
             not_TypeError (or_else r1 r2)).
  { intros r1 r2 H1 H2. apply rbind_not_TypeError; [done|]. by intros []. }
  assert (Hand : forall r1 r2 : result bool,
             not_TypeError r1 -> not_TypeError r2 ->
             not_TypeError (and_then r1 r2)).
  { intros r1 r2 H1 H2. apply rbind_not_TypeError; [done|]. by intros []. }
  assert (Hnb : forall nx ny i j, not_TypeError (neighbour_ok b nx ny i p j)).
  { intros nx ny i j. apply Hor.
    - apply rbind_not_TypeError; [apply Hcell|done].
    - apply rbind_not_TypeError; [apply Hcell|intros c].
      apply rbind_not_TypeError; [apply str_index_not_TypeError|intros e].
      apply rbind_not_TypeError; [apply str_index_not_TypeError|intros s].
      apply rbind_not_TypeError; [apply dict_get_not_TypeError|done]. }
  unfold check_piece_fits.
  repeat match goal with
         | |- not_TypeError (neighbour_ok _ _ _ _ _ _) => apply Hnb
         | |- not_TypeError (and_then _ _) => apply Hand
         | |- not_TypeError (or_else _ _) => apply Hor
         | |- not_TypeError (Ok _) => done
         end.
  apply rbind_not_TypeError; [apply list_index_not_TypeError|done].
Qed.

Lemma set_cell_not_TypeError (b : board) (x y : nat) (p : piece) :
  not_TypeError (set_cell b x y p).
Proof.
  apply rbind_not_TypeError; [apply list_index_not_TypeError|intros row].
  by case_bool_decide.
Qed.

Lemma moves_of_orientations_raised (b : board) (x y : nat)
    (npieces os : list piece) :
  raised (moves_of_orientations b x y npieces os) <> Some TypeError.
Proof.
  induction os as [|p os IH]; simpl; [done|].
  pose proof (check_piece_fits_not_TypeError b p x y) as Hfit.
  destruct (check_piece_fits b p x y) as [[]|e]; simpl; [|done|].
  - pose proof (set_cell_not_TypeError b x y p) as Hset.
    destruct (set_cell b x y p) as [nb|e]; simpl; [done|].
    intros [= ->]. by apply Hset.
  - intros [= ->]. by apply Hfit.
Qed.

Lemma moves_of_pieces_raised (b : board) (x y : nat)
    (nps : list (piece * list piece)) :
  raised (moves_of_pieces b x y nps) <> Some TypeError.
Proof.
  induction nps as [|[q np] nps IH]; simpl; [done|].
  pose proof (orientations_not_TypeError q) as Hos.
  destruct (orientations q) as [os|e]; simpl.
  - pose proof (moves_of_orientations_raised b x y np os) as Hr.
    rewrite gen_seq_raised.
    by destruct (raised (moves_of_orientations _ _ _ _ _)).
  - intros [= ->]. by apply Hos.
Qed.

(** [TypeError] comes from the unpacking of [None] only. *)
Lemma possible_moves_TypeError (b : board) (pieces : list piece) :
  raised (possible_moves b pieces) = Some TypeError -> next_free b = None.
Proof.
  unfold possible_moves. destruct (next_free b) as [[x y]|]; [|done].
  intros H. by apply moves_of_pieces_raised in H.
Qed.

Lemma solve_loop_TypeError (n : nat) (st : solver) :
  (solve_loop n st).1 = Raised TypeError ->
  exists m s, s ∈ worklist (solve_loop m st).2 /\ next_free s.1 = None.
Proof.
  revert st. induction n as [|n IH]; intros st;
    destruct (worklist st) as [|w rest] eqn:Hwl;
    rewrite ?(solve_loop_nil _ _ Hwl), ?(solve_loop_0 _ _ _ Hwl),
            ?(solve_loop_S _ _ _ _ Hwl); try done.
  destruct (expand st w rest) as [[e|] st'] eqn:Hexp; simpl.
  - intros [= ->]. exists 0, w. rewrite (solve_loop_0 _ _ _ Hwl). simpl.
    rewrite Hwl. split; [left|].
    apply (possible_moves_TypeError _ w.2).
    unfold expand in Hexp. by injection Hexp as -> _.
  - intros (m & s & Hs & Hnone)%IH. exists (S m), s.
    by rewrite (solve_loop_S _ _ _ _ Hwl), Hexp.
Qed.

(** C9. If the initial board has at least one empty cell and the pool holds
    exactly as many pieces as the board has empty cells, then at every
    moment of the run every state on the work list, and so every state that
    is popped, has an empty cell: [next_free] finds a cell for it, and the
    [TypeError] of a full board is never raised. *)
Theorem popped_state_has_free_cell (n : nat) (b : board)
    (pieces : list piece) :
  1 <= count_empty b ->
  count_empty b = length pieces ->
  (forall s, s ∈ worklist (solve n b pieces).2 ->
             exists x y, next_free s.1 = Some (x, y)) /\
  (solve n b pieces).1 <> Raised TypeError.
Proof.
  intros Hpos Hcount.
  pose (I := fun s : state =>
          count_empty s.1 = length s.2 /\ 1 <= length s.2).
  assert (Hfree : forall s, I s -> exists x y, next_free s.1 = Some (x, y)).
  { intros s [Hc Hl]. destruct (next_free s.1) as [[x y]|] eqn:Hnf; [by eauto|].
    apply count_empty_zero in Hnf. lia. }
  assert (Hinv : forall m, solver_inv I (fun _ => True) (solve m b pieces).2).
  { intros m. apply solve_loop_inv.
    - intros s c [Hc Hl] Hchild Hne. destruct (child_count _ _ Hchild).
      split; [lia|]. destruct c.2; [done|simpl; lia].
    - done.
    - split; simpl; [|constructor]. constructor; [|constructor].
      split; simpl; lia. }
  split.
  - intros s Hs. apply Hfree. destruct (Hinv n) as [Hw _].
    rewrite Forall_forall in Hw. by apply Hw.
  - intros (m & s & Hs & Hnone)%solve_loop_TypeError.
    destruct (Hinv m) as [Hw _]. rewrite Forall_forall in Hw.
    destruct (Hfree s (Hw s Hs)) as (x & y & Hxy). congruence.
Qed.

Lemma popped_state_has_free_cell_witness :
  (forall s, s ∈ worklist (solve 3 [["_"; "_"]] ["AAAA"; "BBBB"]).2 ->
             exists x y, next_free s.1 = Some (x, y)) /\
  (solve 3 [["_"; "_"]] ["AAAA"; "BBBB"]).1 <> Raised TypeError.
Proof.
  apply (popped_state_has_free_cell 3 [["_"; "_"]] ["AAAA"; "BBBB"]).
  - vm_compute. lia.
  - reflexivity.
Defined.

(** C10. On a board with at least one empty cell, [solve(board, [])] returns
    after one iteration without yielding anything: the root has no child,
    and only children are tested for being solutions. *)
Theorem solve_empty_pool (n : nat) (b : board) :
  1 <= count_empty b -> 1 <= n ->
  solve n b [] = (Returned, Solver [] b [] 0 [] []) /\
  emitted (solve n b []).2 = [].
Proof.
  intros Hpos Hn.
  assert (solve n b [] = (Returned, Solver [] b [] 0 [] [])) as ->; [|done].
  destruct n as [|n]; [lia|].
  unfold solve, solve_init. rewrite (solve_loop_S _ _ (b, []) []) by done.
  unfold expand, possible_moves. simpl.
  destruct (next_free b) as [[x y]|] eqn:Hnf.
  - simpl. by apply solve_loop_nil.
  - apply count_empty_zero in Hnf. lia.
Qed.

Lemma solve_empty_pool_witness :
  solve 1 [["_"; "AAAA"]] [] = (Returned, Solver [] [["_"; "AAAA"]] [] 0 [] [])
  /\ emitted (solve 1 [["_"; "AAAA"]] []).2 = [].
Proof.
  apply (solve_empty_pool 1 [["_"; "AAAA"]]).
  - vm_compute. lia.
  - lia.
Defined.

(** ** The best partial board *)




(** ** Termination *)

Lemma moves_of_orientations_length (b : board) (x y : nat)
    (npieces os : list piece) :
  length (yields (moves_of_orientations b x y npieces os)) <= length os.
Proof.
  induction os as [|p os IH]; simpl; [done|].
  destruct (check_piece_fits b p x y) as [[]|]; simpl; [|lia..].
  destruct (set_cell b x y p); simpl; lia.
Qed.

Lemma moves_of_pieces_length (b : board) (x y : nat)
    (nps : list (piece * list piece)) :
  length (yields (moves_of_pieces b x y nps)) <= 8 * length nps.
Proof.
  induction nps as [|[q np] nps IH]; simpl; [done|].
  destruct (orientations q) as [os|] eqn:Hos; simpl; [|lia].
  pose proof (moves_of_orientations_length b x y np os) as Hlen.
  apply orientations_spec in Hos as [Hos _].
  unfold gen_seq. destruct (raised _); simpl; [lia|].
  rewrite length_app. lia.
Qed.

Lemma possible_moves_length (b : board) (pieces : list piece) :
  length (yields (possible_moves b pieces)) <= 8 * length pieces.
Proof.
  unfold possible_moves. destruct (next_free b) as [[x y]|]; simpl; [|lia].
  etrans; [apply moves_of_pieces_length|].
  unfold next_piece. by rewrite length_imap.
Qed.

Lemma weight_pos (k : nat) : 1 <= weight k.
Proof. destruct k; simpl; lia. Qed.

Lemma work_cons (s : state) (wl : list state) :
  work (s :: wl) = weight (length s.2) + work wl.
Proof. reflexivity. Qed.

Lemma foldl_process_child_work (st : solver) (cs : list state) (k : nat) :
  Forall (fun c : state => length c.2 = k) cs ->
  work (worklist (foldl process_child st cs)) <=
  work (worklist st) + length cs * weight k.
Proof.
  revert st. induction cs as [|[nb np] cs IH]; intros st Hcs; simpl; [lia|].
  inversion Hcs as [|? ? Hc Hcs']; subst. simpl in *.
  etrans; [apply IH; done|].
  unfold process_child. destruct (accept nb np); simpl; [lia|].
  rewrite work_cons. simpl. lia.
Qed.

(** Every iteration takes the work list down in [work]. *)
Lemma expand_work (st : solver) (w : state) (rest : list state) :
  worklist st = w :: rest ->
  work (worklist (expand st w rest).2) < work (worklist st).
Proof.
  intros Hwl. rewrite Hwl. unfold expand. simpl.
  set (st0 := Solver rest _ _ _ _ _).
  destruct (length w.2) as [|k] eqn:Hlen.
  - pose proof (possible_moves_length w.1 w.2) as Hn.
    rewrite Hlen in Hn.
    destruct (yields (possible_moves w.1 w.2)); [|simpl in Hn; lia].
    rewrite work_cons, Hlen. simpl. lia.
  - eapply Nat.le_lt_trans; [apply (foldl_process_child_work st0 _ k)|].
    + apply Forall_forall. intros c Hc.
      destruct (child_count w c Hc) as [_ Hl]. lia.
    + pose proof (possible_moves_length w.1 w.2) as Hn.
      rewrite Hlen in Hn. rewrite work_cons, Hlen.
      change (worklist st0) with rest. cbn [weight].
      pose proof (weight_pos k). nia.
Qed.

(** [solve] always ends: after [work] iterations the run is over. *)
Lemma solve_loop_terminates (n : nat) (st : solver) :
  work (worklist st) <= n -> (solve_loop n st).1 <> Running.
Proof.
  revert st. induction n as [|n IH]; intros st Hn;
    destruct (worklist st) as [|w rest] eqn:Hwl;
    rewrite ?(solve_loop_nil _ _ Hwl), ?(solve_loop_0 _ _ _ Hwl),
            ?(solve_loop_S _ _ _ _ Hwl); try done.
  - rewrite work_cons in Hn. pose proof (weight_pos (length w.2)). lia.
  - pose proof (expand_work st w rest Hwl) as Hlt. rewrite Hwl in Hlt.
    destruct (expand st w rest) as [[e|] st']; [done|].
    apply IH. simpl in Hlt. lia.
Qed.

(** Once the run is over, more iterations change nothing. *)
Lemma solve_loop_stable (n m : nat) (st : solver) :
  (solve_loop n st).1 <> Running -> n <= m ->
  solve_loop m st = solve_loop n st.
Proof.
  revert m st. induction n as [|n IH]; intros m st Hrun Hm;
    destruct (worklist st) as [|w rest] eqn:Hwl.
  - by rewrite !(solve_loop_nil _ _ Hwl).
  - by rewrite (solve_loop_0 _ _ _ Hwl) in Hrun.
  - by rewrite !(solve_loop_nil _ _ Hwl).
  - destruct m as [|m]; [lia|].
    rewrite (solve_loop_S n _ _ _ Hwl) in Hrun.
    rewrite (solve_loop_S m _ _ _ Hwl), (solve_loop_S n _ _ _ Hwl).
    destruct (expand st w rest) as [[e|] st']; [done|].
    apply IH; [done|lia].
Qed.

(** ** Well-formed states: the search raises nothing *)

Lemma rect_width (b : board) :
  Forall (fun r1 => Forall (fun r2 => length r1 = length r2) b) b <->
  exists w, Forall (fun r : list piece => length r = w) b.
Proof.
  split.
  - intros H. destruct b as [|r b]; [exists 0; constructor|].
    exists (length r). inversion H as [|? ? Hr _]; subst.
    eapply Forall_impl; [exact Hr|]. intros r2 Hr2. simpl in Hr2. done.
  - intros [w Hw]. apply Forall_forall. intros r1 Hr1.
    apply Forall_forall. intros r2 Hr2.
    rewrite Forall_forall in Hw. by rewrite (Hw r1), (Hw r2).
Qed.

Lemma wf_board_middle (b1 b2 : board) (r1 r2 : list piece) (c o : piece) :
  wf_board (b1 ++ (r1 ++ c :: r2) :: b2) -> wf_cell o ->
  wf_board (b1 ++ (r1 ++ o :: r2) :: b2).
Proof.
  intros [Hrect Hcells] Ho. split.
  - apply rect_width in Hrect as [w Hw]. apply rect_width. exists w.
    apply Forall_app in Hw as [Hw1 Hw2]. apply Forall_app. split; [done|].
    apply Forall_cons in Hw2 as [Hr Hb2]. constructor; [|done].
    rewrite length_app. rewrite length_app in Hr. done.
  - apply Forall_app in Hcells as [Hc1 Hc2]. apply Forall_app. split; [done|].
    apply Forall_cons in Hc2 as [Hr Hb2]. constructor; [|done].
    apply Forall_app in Hr as [Hr1 Hr2]. apply Forall_app. split; [done|].
    apply Forall_cons in Hr2 as [_ Hr2]. by constructor.
Qed.

Lemma child_wf (s c : state) :
  child s c -> wf_board s.1 -> Forall wf_piece s.2 ->
  wf_board c.1 /\ Forall wf_piece c.2.
Proof.
  intros (b1 & r1 & r2 & b2 & i & q & o & Hb & _ & _ & Hi & Ho & _ & ->)
         %child_shape Hwf Hps.
  simpl. split.
  - rewrite Hb in Hwf. eapply wf_board_middle; [exact Hwf|].
    right. eapply is_orientation_four; [|exact Ho].
    eapply Forall_lookup_1 in Hps; [|exact Hi]. apply Hps.
  - by apply Forall_delete.
Qed.

Lemma search_inv_child (s c : state) :
  search_inv s -> child s c -> c.2 <> [] -> search_inv c.
Proof.
  intros (Hb & Hps & Hcount & Hpos) Hchild Hne.
  destruct (child_wf _ _ Hchild Hb Hps) as [Hb' Hps'].
  destruct (child_count _ _ Hchild) as [Hc Hl].
  split_and!; [done|done|lia|]. destruct c.2; [done|simpl; lia].
Qed.

Lemma moves_of_orientations_total (b : board) (x y : nat)
    (npieces os : list piece) :
  Forall (fun o => exists r, check_piece_fits b o x y = Ok r) os ->
  (forall o, exists nb, set_cell b x y o = Ok nb) ->
  raised (moves_of_orientations b x y npieces os) = None /\
  (forall o nb, o ∈ os -> check_piece_fits b o x y = Ok true ->
                set_cell b x y o = Ok nb ->
                (nb, npieces) ∈ yields (moves_of_orientations b x y npieces os)).
Proof.
  intros Hfit Hset. induction Hfit as [|p os [r Hr] _ [IH1 IH2]]; simpl.
  - split; [done|]. by intros o nb ?%elem_of_nil.
  - rewrite Hr. destruct (Hset p) as [nb' Hnb']. rewrite Hnb'.
    destruct r; simpl.
    + split; [done|]. intros o nb [->|Ho]%elem_of_cons Hfit Hnb.
      * assert (nb = nb') as -> by congruence. left.
      * right. by eapply IH2.
    + split; [done|]. intros o nb [->|Ho]%elem_of_cons Hfit Hnb.
      * congruence.
      * by eapply IH2.
Qed.

Lemma moves_of_pieces_total (b : board) (x y : nat)
    (nps : list (piece * list piece)) :
  Forall (fun qn : piece * list piece =>
            exists os, orientations qn.1 = Ok os /\
              Forall (fun o => exists r, check_piece_fits b o x y = Ok r) os)
         nps ->
  (forall o, exists nb, set_cell b x y o = Ok nb) ->
  raised (moves_of_pieces b x y nps) = None /\
  (forall q np o nb, (q, np) ∈ nps -> is_orientation o q ->
                     check_piece_fits b o x y = Ok true ->
                     set_cell b x y o = Ok nb ->
                     (nb, np) ∈ yields (moves_of_pieces b x y nps)).
Proof.
  intros Hnps Hset.
  induction Hnps as [|[q' np'] nps (os & Hos & Hfit) _ [IH1 IH2]]; simpl.
  - split; [done|]. by intros q np o nb ?%elem_of_nil.
  - simpl in Hos. rewrite Hos.
    destruct (moves_of_orientations_total b x y np' os Hfit Hset) as [Hr Hy].
    rewrite gen_seq_raised, Hr. split; [done|].
    intros q np o nb Hin (os' & Hos' & Ho) Hfit' Hnb.
    unfold gen_seq. rewrite Hr. simpl. apply elem_of_app.
    apply elem_of_cons in Hin as [[= -> ->]|Hin].
    + left. assert (os' = os) as -> by congruence. by apply (Hy o nb).
    + right. eapply IH2; [exact Hin| |done..]. by exists os'.
Qed.

(** On a well-formed state with an empty cell, [possible_moves] raises
    nothing and yields every placement that fits. *)
Lemma possible_moves_total (s : state) (x y : nat) :
  wf_board s.1 -> Forall wf_piece s.2 -> next_free s.1 = Some (x, y) ->
  raised (possible_moves s.1 s.2) = None /\
  (forall i q o, s.2 !! i = Some q -> is_orientation o q ->
                 fits s.1 o x y ->
                 exists nb, set_cell s.1 x y o = Ok nb /\
                            child s (nb, delete i s.2)).
Proof.
  intros Hb Hps Hfree.
  assert (Hset : forall o, exists nb, set_cell s.1 x y o = Ok nb).
  { intros o. destruct (next_free_Some _ _ _ Hfree)
      as (b1 & r1 & r2 & b2 & -> & -> & -> & _).
    rewrite set_cell_middle. eauto. }
  assert (Hcell : is_Some (at_cell s.1 x y)).
  { destruct (next_free_Some _ _ _ Hfree)
      as (b1 & r1 & r2 & b2 & -> & -> & -> & _).
    unfold at_cell. rewrite list_lookup_middle by done. simpl.
    rewrite list_lookup_middle by done. eauto. }
  destruct (moves_of_pieces_total s.1 x y (next_piece s.2)) as [Hr Hy];
    [|done|].
  { apply Forall_forall. intros [q np] (i & Hi & _)%next_piece_elem. simpl.
    eapply Forall_lookup_1 in Hps; [|exact Hi].
    destruct (four_symbols_inv q (proj1 Hps)) as (a & b' & c & d & Hq).
    eexists. split; [rewrite Hq; apply orientations_four|].
    apply Forall_forall. intros o Ho.
    apply check_piece_fits_total; [done| |done].
    eapply is_orientation_alphabet; [exact Hps|].
    eexists. split; [rewrite Hq; apply orientations_four|exact Ho]. }
  unfold child, possible_moves. rewrite Hfree. split; [done|].
  intros i q o Hi Ho Hfit. destruct (Hset o) as [nb Hnb]. exists nb.
  split; [done|]. simpl. eapply Hy; [|exact Ho| |done].
  - apply next_piece_elem. eauto.
  - by apply check_piece_fits_true.
Qed.

(** ** Tilings and the first empty cell *)

Lemma keeps_filled (l k : list piece) :
  Forall filled l -> Forall2 keeps l k -> k = l.
Proof.
  intros Hl H2. induction H2 as [|c c' l k Hc _ IH]; [done|].
  apply Forall_cons in Hl as [Hc' Hl]. f_equal; auto.
Qed.

Lemma keeps_filled_rows (b t : board) :
  Forall (Forall filled) b -> Forall2 (Forall2 keeps) b t -> t = b.
Proof.
  intros Hb H2. induction H2 as [|r u b t Hr _ IH]; [done|].
  apply Forall_cons in Hb as [Hr' Hb]. f_equal; [|auto].
  by apply keeps_filled.
Qed.

Lemma extends_at (b t : board) (x y : nat) (c : piece) :
  extends b t -> at_cell b x y = Some c ->
  exists c', at_cell t x y = Some c' /\ (filled c -> c' = c).
Proof.
  unfold extends, at_cell. intros Hext Hc.
  destruct (b !! y) as [row|] eqn:Hrow; simpl in Hc; [|done].
  destruct (Forall2_lookup_l _ _ _ _ _ Hext Hrow) as (row' & Hrow' & Hrows).
  destruct (Forall2_lookup_l _ _ _ _ _ Hrows Hc) as (c' & Hc' & Hkeep).
  exists c'. rewrite Hrow'. simpl. by split.
Qed.

(** A board that extends [b], around the first empty cell of [b]. *)
Lemma extends_middle (b1 b2 : board) (r1 r2 : list piece) (c : piece)
    (t : board) :
  extends (b1 ++ (r1 ++ c :: r2) :: b2) t ->
  Forall (Forall filled) b1 -> Forall filled r1 ->
  exists u2 t2 o,
    t = b1 ++ (r1 ++ o :: u2) :: t2 /\ (filled c -> o = c) /\
    Forall2 keeps r2 u2 /\ Forall2 (Forall2 keeps) b2 t2.
Proof.
  unfold extends. intros Hext Hb1 Hr1.
  apply Forall2_app_inv_l in Hext as (t1 & t' & Ht1 & Ht' & ->).
  apply Forall2_cons_inv_l in Ht' as (u & t2 & Hu & Ht2 & ->).
  apply Forall2_app_inv_l in Hu as (u1 & u' & Hu1 & Hu' & ->).
  apply Forall2_cons_inv_l in Hu' as (o & u2 & Ho & Hu2 & ->).
  apply keeps_filled_rows in Ht1 as ->; [|done].
  apply keeps_filled in Hu1 as ->; [|done].
  by exists u2, t2, o.
Qed.

Lemma zip_filled (l k : list piece) :
  Forall filled l ->
  filter (fun cc : piece * piece => cc.1 = empty_cell) (zip l k) = [].
Proof.
  intros Hl. revert k. induction Hl as [|c l Hc _ IH]; intros [|c' k];
    simpl; try done.
  rewrite filter_cons_False by done. apply IH.
Qed.

Lemma new_cells_middle (b1 b2 t2 : board) (r1 r2 u2 : list piece)
    (c o : piece) :
  Forall (Forall filled) b1 -> Forall filled r1 ->
  new_cells (b1 ++ (r1 ++ c :: r2) :: b2) (b1 ++ (r1 ++ o :: u2) :: t2) =
  (if decide (c = empty_cell) then [o] else []) ++
  (snd <$> filter (fun cc : piece * piece => cc.1 = empty_cell)
                  (zip (r2 ++ concat b2) (u2 ++ concat t2))).
Proof.
  intros Hb1 Hr1. unfold new_cells.
  rewrite !concat_app, !concat_cons, <- !(assoc_L (++)).
  rewrite !(assoc_L (++) (concat b1)).
  simpl. rewrite zip_with_app by done. simpl.
  rewrite filter_app, fmap_app.
  rewrite (zip_filled (concat b1 ++ r1)).
  2: { apply Forall_app. split; [by apply concat_filled|done]. }
  simpl. destruct (decide (c = empty_cell)) as [Hc|Hc].
  - by rewrite filter_cons_True.
  - by rewrite filter_cons_False.
Qed.

Lemma submseteq_cons_delete (q : piece) (qs ps : list piece) :
  q :: qs ⊆+ ps -> exists i, ps !! i = Some q /\ qs ⊆+ delete i ps.
Proof.
  intros (k' & Hperm & Hsub)%submseteq_cons_l.
  assert (q ∈ ps) as [i Hi]%list_elem_of_lookup.
  { rewrite Hperm. left. }
  exists i. split; [done|].
  pose proof (delete_Permutation ps i q Hi) as Hdel.
  rewrite Hperm in Hdel at 1. apply Permutation_cons_inv in Hdel.
  by rewrite <- Hdel.
Qed.

Lemma extends_refl_middle (b1 b2 t2 : board) (r1 r2 u2 : list piece)
    (o : piece) :
  Forall2 keeps r2 u2 -> Forall2 (Forall2 keeps) b2 t2 ->
  extends (b1 ++ (r1 ++ o :: r2) :: b2) (b1 ++ (r1 ++ o :: u2) :: t2).
Proof.
  intros Hr2 Hb2. unfold extends.
  assert (Hrefl : forall l : list piece, Forall2 keeps l l).
  { intros l. by apply Forall_Forall2_diag, Forall_true. }
  apply Forall2_app.
  - apply Forall_Forall2_diag, Forall_true. intros r. apply Hrefl.
  - constructor; [|done]. apply Forall2_app; [apply Hrefl|].
    by constructor.
Qed.

(** The tiling step: the cell of the tiling at the first empty cell is an
    orientation of a pool piece, and the tiling completes the board with
    that orientation placed from the pool without that piece. *)
Lemma tiling_step (b : board) (ps : list piece) (t : board) (x y : nat) :
  tiling b ps t -> next_free b = Some (x, y) ->
  exists i q o nb,
    ps !! i = Some q /\ is_orientation o q /\ at_cell t x y = Some o /\
    set_cell b x y o = Ok nb /\ tiling nb (delete i ps) t.
Proof.
  intros [Hext (qs & Hsub & Hall)]
         (b1 & r1 & r2 & b2 & -> & -> & -> & Hb1 & Hr1)%next_free_Some.
  destruct (extends_middle _ _ _ _ _ _ Hext Hb1 Hr1)
    as (u2 & t2 & o & -> & _ & Hr2 & Hb2).
  rewrite new_cells_middle in Hall by done.
  rewrite decide_True in Hall by done. simpl in Hall.
  apply Forall2_cons_inv_l in Hall as (q & qs' & Ho & Hall & ->).
  apply submseteq_cons_delete in Hsub as (i & Hi & Hsub).
  exists i, q, o, (b1 ++ (r1 ++ o :: r2) :: b2).
  split_and!; [done|done| |apply set_cell_middle|].
  - unfold at_cell. rewrite list_lookup_middle by done. simpl.
    by rewrite list_lookup_middle.
  - split; [by apply extends_refl_middle|].
    exists qs'. split; [done|].
    rewrite new_cells_middle by done.
    rewrite decide_False by (by eapply is_orientation_filled). done.
Qed.

Lemma tiling_full (b : board) (ps : list piece) (t : board) :
  tiling b ps t -> next_free b = None -> t = b.
Proof.
  intros [Hext _] Hfull%next_free_None. by apply keeps_filled_rows.
Qed.

(** In a valid tiling the piece at a cell fits the board made of the cells
    filled before it. *)
Lemma fits_of_valid (b t : board) (x y : nat) (o : piece) :
  wf_board b -> extends b t -> valid_board t ->
  is_Some (at_cell b x y) -> at_cell t x y = Some o -> filled o ->
  fits b o x y.
Proof.
  intros Hwf Hext [Hh Hv] Hxy Ho Hfo.
  assert (Hnb : forall nx ny (P : Prop) i j,
             is_Some (at_cell b nx ny) ->
             (forall c, at_cell t nx ny = Some c -> filled c ->
                        edges_match c i o j) ->
             side_ok P b nx ny i o j).
  { intros nx ny P i j [c Hc] Hm.
    destruct (decide (c = empty_cell)) as [->|Hfc]; [right; by left|].
    right. right. exists c. split; [done|].
    destruct (extends_at _ _ _ _ _ Hext Hc) as (c' & Hc' & Hk).
    rewrite (Hk Hfc) in Hc'. by apply Hm. }
  assert (Hrow : exists row, b !! y = Some row /\ x < length row).
  { destruct Hxy as [c Hc]. unfold at_cell in Hc.
    destruct (b !! y) as [row|] eqn:Hrow; simpl in Hc; [|done].
    exists row. split; [done|]. by eapply lookup_lt_Some. }
  destruct Hrow as (row & Hrow & Hx).
  assert (Hy : y < length b) by by eapply lookup_lt_Some.
  unfold fits. split_and!.
  - destruct (decide (y = 0)) as [->|Hy0]; [by left|].
    apply Hnb; [eapply wf_board_at; [done..|lia]|].
    intros c Hc Hfc. apply (Hv x (y - 1)); [done|].
    replace (y - 1 + 1) with y by lia. done.
  - destruct (decide (x + 1 = length row)) as [Hlen|Hlen].
    { left. by exists row. }
    apply Hnb.
    + unfold at_cell. rewrite Hrow. simpl. apply lookup_lt_is_Some. lia.
    + intros c Hc Hfc. apply edges_match_sym. by apply (Hh x y).
  - destruct (decide (y + 1 = length b)) as [Hlen|Hlen]; [by left|].
    apply Hnb; [eapply wf_board_at; [done..|lia]|].
    intros c Hc Hfc. apply edges_match_sym. by apply (Hv x y).
  - destruct (decide (x = 0)) as [->|Hx0]; [by left|].
    apply Hnb.
    + unfold at_cell. rewrite Hrow. simpl. apply lookup_lt_is_Some. lia.
    + intros c Hc Hfc. apply (Hh (x - 1) y); [done|].
      replace (x - 1 + 1) with x by lia. done.
Qed.

(** ** Exhaustiveness *)

Lemma process_child_worklist (st : solver) (c : state) (s : state) :
  s ∈ worklist (process_child st c) <->
  (s = c /\ c.2 <> []) \/ s ∈ worklist st.
Proof.
  destruct c as [nb np]. unfold process_child.
  destruct (accept nb np) eqn:Hacc; simpl.
  - apply accept_true in Hacc. split; [by right|]. by intros [[_ ?]|?].
  - assert (np <> []) as Hne.
    { intros H. apply (accept_true nb) in H. congruence. }
    rewrite elem_of_cons. split; intros [?|?]; auto. left. by destruct H.
Qed.

Lemma foldl_worklist_mono (st : solver) (cs : list state) (s : state) :
  s ∈ worklist st -> s ∈ worklist (foldl process_child st cs).
Proof.
  revert st. induction cs as [|c cs IH]; intros st Hs; simpl; [done|].
  apply IH, process_child_worklist. by right.
Qed.

Lemma foldl_worklist_child (st : solver) (cs : list state) (c : state) :
  c ∈ cs -> c.2 <> [] -> c ∈ worklist (foldl process_child st cs).
Proof.
  revert st. induction cs as [|c' cs IH]; intros st Hc Hne; simpl.
  - by apply elem_of_nil in Hc.
  - apply elem_of_cons in Hc as [->|Hc]; [|by apply IH].
    apply foldl_worklist_mono, process_child_worklist. by left.
Qed.

Lemma foldl_emitted_child (st : solver) (cs : list state) (c : state) :
  c ∈ cs -> c.2 = [] ->
  c.1 ∈ (fun t : board * Z * nat => t.1.1)
          <$> emitted (foldl process_child st cs).
Proof.
  revert st. induction cs as [|c' cs IH]; intros st Hc Hnil; simpl.
  - by apply elem_of_nil in Hc.
  - apply elem_of_cons in Hc as [->|Hc]; [|by apply IH].
    destruct (foldl_process_child_emitted (process_child st c') cs)
      as [k ->].
    rewrite fmap_app. apply elem_of_app. left.
    destruct c' as [nb np]. simpl in *. subst np.
    unfold process_child. simpl. rewrite fmap_app. apply elem_of_app.
    right. left.
Qed.

Lemma search_inv_free (s : state) :
  search_inv s -> exists x y, next_free s.1 = Some (x, y).
Proof.
  intros (_ & _ & Hc & Hl).
  destruct (next_free s.1) as [[x y]|] eqn:Hnf; [by eauto|].
  apply count_empty_zero in Hnf. lia.
Qed.

Lemma expand_search_inv (st : solver) (w : state) (rest : list state) :
  Forall search_inv (worklist st) -> worklist st = w :: rest ->
  (expand st w rest).1 = None /\
  Forall search_inv (worklist (expand st w rest).2).
Proof.
  intros Hinv Hwl. split.
  - rewrite Hwl in Hinv. apply Forall_cons in Hinv as [Hw _].
    destruct (search_inv_free w Hw) as (x & y & Hxy).
    destruct Hw as (Hb & Hps & _).
    unfold expand. simpl. by destruct (possible_moves_total w x y Hb Hps Hxy).
  - apply (expand_inv search_inv (fun _ => True)); [| | |done].
    + intros s c. apply search_inv_child.
    + done.
    + split; [done|]. by apply Forall_true.
Qed.

Lemma solve_loop_no_raise (n : nat) (st : solver) (e : exn) :
  Forall search_inv (worklist st) -> (solve_loop n st).1 <> Raised e.
Proof.
  revert st. induction n as [|n IH]; intros st Hinv;
    destruct (worklist st) as [|w rest] eqn:Hwl;
    rewrite ?(solve_loop_nil _ _ Hwl), ?(solve_loop_0 _ _ _ Hwl),
            ?(solve_loop_S _ _ _ _ Hwl); try done.
  destruct (expand_search_inv st w rest) as [Hr Hinv']; [by rewrite Hwl|done|].
  destruct (expand st w rest) as [[e'|] st']; [done|]. by apply IH.
Qed.

(** A run that returns has yielded every valid tiling below every state of
    its work list. *)
Lemma solve_loop_complete (n : nat) (st : solver) (s : state) (t : board) :
  Forall search_inv (worklist st) ->
  (solve_loop n st).1 = Returned ->
  s ∈ worklist st -> tiling s.1 s.2 t -> valid_board t ->
  t ∈ solutions (solve_loop n st).
Proof.
  revert st s. induction n as [|n IH]; intros st s Hinv;
    destruct (worklist st) as [|w rest] eqn:Hwl;
    rewrite ?(solve_loop_nil _ _ Hwl), ?(solve_loop_0 _ _ _ Hwl),
            ?(solve_loop_S _ _ _ _ Hwl); try done.
  - by intros _ ?%elem_of_nil.
  - by intros _ ?%elem_of_nil.
  - intros Hret Hs Htil Hval.
    destruct (expand_search_inv st w rest) as [Hr Hinv'];
      [by rewrite Hwl|done|].
    pose proof (expand_emitted st w rest) as Hpre.
    destruct (expand st w rest) as [[e'|] st'] eqn:Hexp; [done|].
    simpl in Hinv', Hpre.
    assert (Hst' : st' = foldl process_child
              (Solver rest (min_board st) (min_pieces st) (n_explored st)
                      (emitted st) (printed st))
              (yields (possible_moves w.1 w.2))).
    { unfold expand in Hexp. by injection Hexp as _ <-. }
    apply elem_of_cons in Hs as [->|Hs].
    + assert (Hw : search_inv w).
      { by apply Forall_cons in Hinv as [? _]. }
      destruct (search_inv_free w Hw) as (x & y & Hxy).
      destruct (tiling_step _ _ _ _ _ Htil Hxy)
        as (i & q & o & nb & Hi & Ho & Hto & Hnb & Htil').
      destruct Hw as (Hb & Hps & Hcount & Hpos).
      destruct (possible_moves_total w x y Hb Hps Hxy) as [_ Hchild].
      destruct (Hchild i q o Hi Ho) as (nb' & Hnb' & Hc).
      { eapply fits_of_valid; [done|by destruct Htil|done| |done|].
        - destruct (next_free_Some _ _ _ Hxy)
            as (b1 & r1 & r2 & b2 & -> & -> & -> & _).
          unfold at_cell. rewrite list_lookup_middle by done. simpl.
          rewrite list_lookup_middle by done. eauto.
        - by eapply is_orientation_filled. }
      assert (nb' = nb) as -> by congruence.
      destruct (decide (delete i w.2 = [])) as [Hnil|Hne].
      * assert (t = nb) as ->.
        { eapply tiling_full; [exact Htil'|].
          apply count_empty_zero.
          destruct (child_count _ _ Hc) as [Hc1 Hc2]. simpl in *.
          rewrite Hnil in Hc2. simpl in Hc2. lia. }
        unfold solutions.
        destruct (solve_loop_emitted n st') as [k ->]. simpl.
        rewrite fmap_app. apply elem_of_app. left. rewrite Hst'.
        apply (foldl_emitted_child _ _ (nb, delete i w.2)); [exact Hc|done].
      * apply (IH st' (nb, delete i w.2)); [done..| |done|done].
        rewrite Hst'. by apply foldl_worklist_child.
    + apply (IH st' s); [done..| |done|done].
      rewrite Hst'. by apply foldl_worklist_mono.
Qed.

(** C2, as the code has it. For an initial state that is well formed (a
    rectangular board whose cells are empty or hold four symbols, a pool of
    4-symbol pieces over the alphabet) with at least one empty cell and
    exactly one pool piece per empty cell, [solve] returns after finitely
    many iterations, and every complete valid tiling of the board from the
    pool (the placed pieces kept, every empty cell filled with an
    orientation of a distinct pool piece, all touching edges complementary)
    is among the boards it has yielded by then. *)
Theorem solve_exhaustive (b : board) (pieces : list piece) (t : board) :
  wf_board b -> Forall wf_piece pieces ->
  count_empty b = length pieces -> 1 <= length pieces ->
  tiling b pieces t -> valid_board t ->
  exists n, forall m, n <= m ->
    (solve m b pieces).1 = Returned /\ t ∈ solutions (solve m b pieces).
Proof.
  intros Hb Hps Hcount Hpos Htil Hval.
  exists (weight (length pieces)). intros m Hm.
  assert (Hinv : Forall search_inv (worklist (solve_init b pieces))).
  { constructor; [|constructor]. by split_and!. }
  assert (Hret : (solve m b pieces).1 = Returned).
  { pose proof (solve_loop_terminates m (solve_init b pieces)) as Hterm.
    pose proof (fun e => solve_loop_no_raise m (solve_init b pieces) e Hinv)
      as Hraise.
    unfold solve. destruct (solve_loop m (solve_init b pieces)).1 eqn:E.
    - done.
    - by destruct (Hraise e).
    - destruct Hterm; [|done]. simpl. rewrite work_cons. simpl.
      unfold work. simpl. lia. }
  split; [done|].
  apply (solve_loop_complete m _ (b, pieces)); [done..|left|done|done].
Qed.

(** Checks a concrete piece against the alphabet. *)
Ltac check_alphabet :=
  let i := fresh "i" in
  let c := fresh "c" in
  let Hc := fresh "Hc" in
  intros i c Hc;
  do 4 (destruct i as [|i];
        [simpl in Hc; injection Hc as <-; eexists; reflexivity|]);
  simpl in Hc; discriminate.

Lemma solve_exhaustive_witness :
  exists n, forall m, n <= m ->
    (solve m [["_"; "_"]] ["AAAA"; "BBBB"]).1 = Returned /\
    [["BBBB"; "AAAA"]] ∈ solutions (solve m [["_"; "_"]] ["AAAA"; "BBBB"]).
Proof.
  apply (solve_exhaustive [["_"; "_"]] ["AAAA"; "BBBB"] [["BBBB"; "AAAA"]]).
  - split; repeat first [by left | by right | constructor].
  - repeat constructor; check_alphabet.
  - reflexivity.
  - simpl. lia.
  - split.
    + unfold extends. repeat first [by intros ? | constructor].
    + exists ["BBBB"; "AAAA"]. split.
      * apply Permutation_submseteq, Permutation_swap.
      * repeat (constructor;
                [eexists; split; [reflexivity|by left]|]).
        constructor.
  - split; intros x y l r [Hl Hlne] [Hr Hrne];
      destruct y as [|y]; try (by destruct y);
      destruct x as [|[|x]]; try done.
    unfold at_cell in Hl, Hr. simpl in Hl, Hr.
    injection Hl as <-. injection Hr as <-.
    eexists _, _. split_and!; reflexivity.
Defined.

(** C2, as the specification has it, fails: with two pieces for the one
    cell of a 1x1 board, the board filled with [AAAA] is a complete valid
    tiling, and the board of a child of the root; [solve] yields nothing and
    ends with the [TypeError] of [x, y = None] when it pops that child. *)
Lemma solve_misses_tiling_of_larger_pool :
  tiling [["_"]] ["AAAA"; "BBBB"] [["AAAA"]] /\
  valid_board [["AAAA"]] /\
  child ([["_"]], ["AAAA"; "BBBB"]) ([["AAAA"]], ["BBBB"]) /\
  forall n,
    ([["AAAA"]] ∉ solutions (solve n [["_"]] ["AAAA"; "BBBB"])) /\
    (2 <= n -> (solve n [["_"]] ["AAAA"; "BBBB"]).1 = Raised TypeError).
Proof.
  split_and!.
  - split.
    + unfold extends. repeat first [by intros ? | constructor].
    + exists ["AAAA"]. split.
      * apply submseteq_skip, submseteq_cons, submseteq_nil.
      * repeat (constructor;
                [eexists; split; [reflexivity|by left]|]).
        constructor.
  - split; intros x y l r [Hl Hlne] [Hr Hrne];
      destruct y as [|y]; try (by destruct y);
      destruct x as [|[|x]]; done.
  - apply (list_elem_of_lookup_2 _ 0). vm_compute. reflexivity.
  - intros n.
    assert (Hn : n = 0 \/ n = 1 \/ 2 <= n) by lia.
    destruct Hn as [->|[->|Hn]].
    + split; [|lia]. vm_compute. by intros ?%elem_of_nil.
    + split; [|lia]. vm_compute. by intros ?%elem_of_nil.
    + unfold solve.
      rewrite (solve_loop_stable 2 n) by (vm_compute; done || lia).
      split; [|done]. vm_compute. by intros ?%elem_of_nil.
Qed.

(** ** The store model: [possible_moves] mutates nothing it was given *)

Lemma read_strs_weaken (h h' : gmap nat Store.obj) (l : nat)
    (xs : list string) :
  h ⊆ h' -> Store.read_strs h l = Some xs -> Store.read_strs h' l = Some xs.
Proof.
  unfold Store.read_strs. intros Hsub.
  destruct (h !! l) as [[xs'|]|] eqn:Hl; try done.
  intros [= <-]. by rewrite (lookup_weaken _ _ _ _ Hl Hsub).
Qed.

Lemma read_refs_weaken (h h' : gmap nat Store.obj) (l : nat)
    (ls : list nat) :
  h ⊆ h' -> Store.read_refs h l = Some ls -> Store.read_refs h' l = Some ls.
Proof.
  unfold Store.read_refs. intros Hsub.
  destruct (h !! l) as [[|ls']|] eqn:Hl; try done.
  intros [= <-]. by rewrite (lookup_weaken _ _ _ _ Hl Hsub).
Qed.

Lemma read_rows_weaken (h h' : gmap nat Store.obj) (ls : list nat)
    (b : board) :
  h ⊆ h' ->
  Forall2 (fun l r => Store.read_strs h l = Some r) ls b ->
  Forall2 (fun l r => Store.read_strs h' l = Some r) ls b.
Proof.
  intros Hsub H. eapply Forall2_impl; [exact H|].
  intros l r. by apply read_strs_weaken.
Qed.

Lemma read_board_inv (h : gmap nat Store.obj) (bl : nat) (b : board) :
  Store.read_board h bl = Some b <->
  exists ls, h !! bl = Some (Store.Refs ls) /\
             Forall2 (fun l r => Store.read_strs h l = Some r) ls b.
Proof.
  unfold Store.read_board, Store.read_refs. split.
  - destruct (h !! bl) as [[|ls]|]; simpl; try done.
    intros H%mapM_Some. by exists ls.
  - intros (ls & -> & H). simpl. by apply mapM_Some.
Qed.

Lemma read_board_weaken (h h' : gmap nat Store.obj) (bl : nat) (b : board) :
  h ⊆ h' -> Store.read_board h bl = Some b -> Store.read_board h' bl = Some b.
Proof.
  intros Hsub (ls & Hbl & Hrows)%read_board_inv. apply read_board_inv.
  exists ls. split; [by eapply lookup_weaken|].
  eapply read_rows_weaken; [exact Hsub|exact Hrows].
Qed.

Lemma read_state_weaken (h h' : gmap nat Store.obj) (c : nat * nat)
    (v : state) :
  h ⊆ h' -> Store.read_state h c = Some v -> Store.read_state h' c = Some v.
Proof.
  unfold Store.read_state. intros Hsub.
  destruct (Store.read_board h c.1) as [b|] eqn:Hb; simpl; [|done].
  destruct (Store.read_strs h c.2) as [ps|] eqn:Hps; simpl; [|done].
  intros [= <-]. rewrite (read_board_weaken _ _ _ _ Hsub Hb). simpl.
  by rewrite (read_strs_weaken _ _ _ _ Hsub Hps).
Qed.

Lemma fresh_board_weaken (h0 h h1 h2 : gmap nat Store.obj) (nl : nat) :
  h0 ⊆ h -> h1 ⊆ h2 -> Store.fresh_board h h1 nl ->
  Store.fresh_board h0 h2 nl.
Proof.
  intros H0 H12 (Hnl & ls & Hls & Hall).
  pose proof (subseteq_dom _ _ H0) as Hdom.
  split; [set_solver|]. exists ls. split; [by eapply read_refs_weaken|].
  eapply Forall_impl; [exact Hall|]. set_solver.
Qed.

(** [map(list, board)] makes new row objects with the same cells. *)
Lemma copy_rows_spec (rls : list nat) (h : gmap nat Store.obj) (b : board) :
  Forall2 (fun l r => Store.read_strs h l = Some r) rls b ->
  exists ls h',
    Store.copy_rows rls h = Some (ls, h') /\ h ⊆ h' /\
    Forall2 (fun l r => Store.read_strs h' l = Some r) ls b /\
    Forall (fun l => l ∉ dom h) ls /\ NoDup ls.
Proof.
  intros Hrows. revert h b Hrows.
  induction rls as [|rl rls IH]; intros h b Hrows.
  - apply Forall2_nil_inv_l in Hrows as ->. exists [], h. simpl.
    split_and!; [done|done|constructor|constructor|constructor].
  - apply Forall2_cons_inv_l in Hrows as (xs & b' & Hxs & Hrows & ->).
    simpl. rewrite Hxs. simpl.
    unfold Store.alloc. simpl. set (l' := fresh (dom h)).
    assert (Hfresh : h !! l' = None) by apply not_elem_of_dom, is_fresh.
    pose proof (insert_subseteq h l' (Store.Strs xs) Hfresh) as Hsub1.
    destruct (IH (<[l' := Store.Strs xs]> h) b')
      as (ls & h2 & Hcopy & Hsub2 & Hls & Hnew & Hnd).
    { eapply read_rows_weaken; [exact Hsub1|exact Hrows]. }
    rewrite Hcopy. simpl. exists (l' :: ls), h2.
    assert (Hl' : Store.read_strs h2 l' = Some xs).
    { eapply read_strs_weaken; [exact Hsub2|].
      unfold Store.read_strs. by rewrite lookup_insert_eq. }
    split_and!; [done|by etrans|by constructor| |].
    + constructor; [by apply not_elem_of_dom|].
      eapply Forall_impl; [exact Hnew|]. intros l Hl Hin. apply Hl.
      by apply (subseteq_dom _ _ Hsub1).
    + constructor; [|done]. intros Hin.
      rewrite Forall_forall in Hnew. apply (Hnew _ Hin).
      apply elem_of_dom. rewrite lookup_insert_eq. eauto.
Qed.

(** [list(map(list, board))]: a new board object on new row objects. *)
Lemma copy_board_spec (bl : nat) (h : gmap nat Store.obj) (b : board) :
  Store.read_board h bl = Some b ->
  exists nl h' ls,
    Store.copy_board bl h = Some (nl, h') /\ h ⊆ h' /\
    (nl ∉ dom h) /\ h' !! nl = Some (Store.Refs ls) /\
    Forall (fun l => l ∉ dom h) ls /\ NoDup ls /\
    Forall2 (fun l r => Store.read_strs h' l = Some r) ls b.
Proof.
  intros (rls & Hbl & Hrows)%read_board_inv.
  destruct (copy_rows_spec rls h b Hrows)
    as (ls & h1 & Hcopy & Hsub & Hls & Hnew & Hnd).
  unfold Store.copy_board, Store.read_refs. rewrite Hbl. simpl.
  rewrite Hcopy. simpl.
  unfold Store.alloc. set (nl := fresh (dom h1)).
  assert (Hfresh : h1 !! nl = None) by apply not_elem_of_dom, is_fresh.
  pose proof (insert_subseteq h1 nl (Store.Refs ls) Hfresh) as Hsub2.
  exists nl, (<[nl := Store.Refs ls]> h1), ls.
  split_and!; [done|by etrans| |by rewrite lookup_insert_eq|done|done|].
  - intros Hin. apply (subseteq_dom _ _ Hsub) in Hin.
    by apply not_elem_of_dom in Hfresh.
  - eapply read_rows_weaken; [exact Hsub2|exact Hls].
Qed.

(** [nboard[y][x] = piece] on a board whose rows are distinct objects: only
    the row object [y] of that board changes. *)
Lemma assign_spec (h : gmap nat Store.obj) (nl : nat) (ls : list nat)
    (b nb : board) (x y : nat) (p : piece) :
  h !! nl = Some (Store.Refs ls) ->
  Forall2 (fun l r => Store.read_strs h l = Some r) ls b ->
  NoDup ls ->
  set_cell b x y p = Ok nb ->
  exists rl row,
    ls !! y = Some rl /\
    Store.assign nl x y p h =
      Some (Ok (), <[rl := Store.Strs (<[x := p]> row)]> h) /\
    Store.read_board (<[rl := Store.Strs (<[x := p]> row)]> h) nl = Some nb.
Proof.
  intros Hnl Hrows Hnd (row & Hrow & Hx & ->)%set_cell_inv.
  destruct (Forall2_lookup_r _ _ _ _ _ Hrows Hrow) as (rl & Hrl & Hread).
  exists rl, row. split; [done|].
  unfold Store.assign, Store.read_refs. rewrite Hnl. simpl. rewrite Hrl.
  rewrite Hread. simpl. rewrite bool_decide_eq_true_2 by done.
  split; [done|].
  assert (Hne : rl <> nl).
  { intros ->. unfold Store.read_strs in Hread. by rewrite Hnl in Hread. }
  apply read_board_inv. exists ls.
  split; [by rewrite lookup_insert_ne|].
  apply Forall2_same_length_lookup. split.
  - rewrite length_insert. by eapply Forall2_length.
  - intros i l r Hl Hr. unfold Store.read_strs.
    destruct (decide (i = y)) as [->|Hi].
    + assert (l = rl) as -> by congruence.
      rewrite list_lookup_insert_eq in Hr by by eapply lookup_lt_Some.
      injection Hr as <-. by rewrite lookup_insert_eq.
    + rewrite list_lookup_insert_ne in Hr by done.
      assert (l <> rl).
      { intros ->. apply Hi. by eapply NoDup_lookup. }
      rewrite lookup_insert_ne by done.
      by apply (Forall2_lookup_lr _ _ _ _ _ _ Hrows Hl Hr).
Qed.

Lemma store_moves_of_orientations (bl : nat) (x y : nat) (npl : nat)
    (os : list piece) (h : gmap nat Store.obj) (b : board)
    (np : list piece) :
  Store.read_board h bl = Some b -> Store.read_strs h npl = Some np ->
  (forall o, exists nb, set_cell b x y o = Ok nb) ->
  exists g h',
    Store.moves_of_orientations bl x y npl os h = Some (g, h') /\
    h ⊆ h' /\
    raised g = raised (moves_of_orientations b x y np os) /\
    Forall2 (fun c v => Store.read_state h' c = Some v)
            (yields g) (yields (moves_of_orientations b x y np os)) /\
    Forall (fun c => Store.fresh_board h h' c.1 /\ c.2 = npl) (yields g).
Proof.
  intros Hb Hnp Hset. revert h Hb Hnp.
  induction os as [|p os IH]; intros h Hb Hnp; simpl.
  { exists gen_done, h. split_and!; [done|done|done|constructor..]. }
  rewrite Hb. simpl.
  destruct (check_piece_fits b p x y) as [[]|e] eqn:Hfit.
  - destruct (copy_board_spec bl h b Hb)
      as (nl & h1 & ls & Hcopy & Hsub1 & Hnl & Hh1 & Hnew & Hnd & Hrows).
    destruct (Hset p) as [nb Hnb].
    destruct (assign_spec h1 nl ls b nb x y p Hh1 Hrows Hnd Hnb)
      as (rl & row & Hrl & Hassign & Hread).
    set (h2 := <[rl := Store.Strs (<[x := p]> row)]> h1) in *.
    assert (Hrlnew : h !! rl = None).
    { apply not_elem_of_dom. rewrite Forall_forall in Hnew. apply Hnew.
      by eapply list_elem_of_lookup_2. }
    assert (Hsub2 : h ⊆ h2) by by apply insert_subseteq_r.
    assert (Hne : rl <> nl).
    { intros ->. destruct (Forall2_lookup_l _ _ _ _ _ Hrows Hrl)
        as (r & _ & Hr). unfold Store.read_strs in Hr. by rewrite Hh1 in Hr. }
    destruct (IH h2) as (g & h3 & Hrec & Hsub3 & Hraised & Hvals & Hfresh).
    { by eapply read_board_weaken. }
    { by eapply read_strs_weaken. }
    rewrite Hcopy. simpl. rewrite Hassign. simpl. rewrite Hrec. simpl.
    rewrite Hnb. exists (gen_yield (nl, npl) g), h3. simpl.
    split_and!; [done|etrans; [exact Hsub2|exact Hsub3]|done| |].
    + constructor; [|done]. eapply read_state_weaken; [exact Hsub3|].
      unfold Store.read_state. simpl. rewrite Hread. simpl.
      by rewrite (read_strs_weaken _ _ _ _ Hsub2 Hnp).
    + constructor.
      * split; [|done]. split; [done|]. exists ls. split; [|done].
        eapply read_refs_weaken; [exact Hsub3|].
        unfold Store.read_refs, h2. simpl.
        by rewrite lookup_insert_ne, Hh1.
      * eapply Forall_impl; [exact Hfresh|]. intros c [Hc ?].
        split; [|done].
        eapply (fresh_board_weaken h h2 h3 h3); [exact Hsub2|done|exact Hc].
  - apply IH; done.
  - exists (gen_raise e), h. split_and!; [done|done|done|constructor..].
Qed.

Lemma store_moves_of_pieces (bl pl : nat) (x y : nat) (idxs : list nat)
    (nps : list (piece * list piece)) (h : gmap nat Store.obj) (b : board)
    (ps : list piece) :
  Store.read_board h bl = Some b -> Store.read_strs h pl = Some ps ->
  (forall o, exists nb, set_cell b x y o = Ok nb) ->
  Forall2 (fun i (qn : piece * list piece) =>
             ps !! i = Some qn.1 /\ qn.2 = take i ps ++ drop (i + 1) ps)
          idxs nps ->
  exists g h',
    Store.moves_of_pieces bl pl x y idxs h = Some (g, h') /\
    h ⊆ h' /\
    raised g = raised (moves_of_pieces b x y nps) /\
    Forall2 (fun c v => Store.read_state h' c = Some v)
            (yields g) (yields (moves_of_pieces b x y nps)) /\
    Forall (fun c => Store.fresh_board h h' c.1 /\ c.2 ∉ dom h) (yields g).
Proof.
  intros Hb Hps Hset Hidx. revert h Hb Hps.
  induction Hidx as [|i [q np] idxs nps [Hi Hnp] _ IH]; intros h Hb Hps;
    simpl.
  { exists gen_done, h. split_and!; [done|done|done|constructor..]. }
  simpl in Hi, Hnp. rewrite Hps. simpl. rewrite Hi.
  unfold Store.alloc. set (npl := fresh (dom h)).
  assert (Hfresh : h !! npl = None) by apply not_elem_of_dom, is_fresh.
  rewrite <- Hnp. set (h1 := <[npl := Store.Strs np]> h).
  assert (Hsub1 : h ⊆ h1) by by apply insert_subseteq.
  destruct (orientations q) as [os|e] eqn:Hos.
  2: { exists (gen_raise e), h1. split_and!; [done|done|done|constructor..]. }
  destruct (store_moves_of_orientations bl x y npl os h1 b np)
    as (g1 & h2 & Hrun1 & Hsub2 & Hraised1 & Hvals1 & Hfresh1).
  { by eapply read_board_weaken. }
  { unfold Store.read_strs, h1. by rewrite lookup_insert_eq. }
  { done. }
  rewrite Hrun1. simpl.
  assert (Hfresh1' : Forall (fun c : nat * nat =>
            Store.fresh_board h h2 c.1 /\ c.2 ∉ dom h) (yields g1)).
  { eapply Forall_impl; [exact Hfresh1|]. intros c [Hc ->]. split.
    - eapply (fresh_board_weaken h h1 h2 h2); [exact Hsub1|done|exact Hc].
    - by apply not_elem_of_dom. }
  destruct (raised g1) as [e|] eqn:Hr1.
  - exists g1, h2. unfold gen_seq. rewrite <- Hraised1.
    split_and!; [done|etrans; [exact Hsub1|exact Hsub2]|congruence|done..].
  - destruct (IH h2) as (g2 & h3 & Hrun2 & Hsub3 & Hraised2 & Hvals2 & Hfresh2).
    { eapply read_board_weaken; [|exact Hb]. etrans; [exact Hsub1|exact Hsub2]. }
    { eapply read_strs_weaken; [|exact Hps]. etrans; [exact Hsub1|exact Hsub2]. }
    rewrite Hrun2. simpl. exists (gen_seq g1 g2), h3.
    unfold gen_seq. rewrite <- Hraised1, Hr1. simpl.
    split_and!; [done| |done| |].
    + etrans; [exact Hsub1|]. etrans; [exact Hsub2|exact Hsub3].
    + apply Forall2_app; [|done].
      eapply Forall2_impl; [exact Hvals1|]. intros c v.
      by apply read_state_weaken.
    + apply Forall_app. split.
      * eapply Forall_impl; [exact Hfresh1'|]. intros c [Hc ?].
        split; [|done].
        eapply (fresh_board_weaken h h h2 h3); [done|exact Hsub3|exact Hc].
      * eapply Forall_impl; [exact Hfresh2|]. intros c [Hc Hc2]. split.
        -- eapply (fresh_board_weaken h h2 h3 h3); [|done|exact Hc].
           etrans; [exact Hsub1|exact Hsub2].
        -- intros Hin. apply Hc2.
           apply (subseteq_dom h h2); [|done].
           etrans; [exact Hsub1|exact Hsub2].
Qed.

Lemma next_piece_indices (ps : list piece) :
  Forall2 (fun i (qn : piece * list piece) =>
             ps !! i = Some qn.1 /\ qn.2 = take i ps ++ drop (i + 1) ps)
          (seq 0 (length ps)) (next_piece ps).
Proof.
  apply Forall2_same_length_lookup. unfold next_piece. split.
  - by rewrite length_seq, length_imap.
  - intros i j qn Hj Hqn. apply lookup_seq in Hj as [-> Hi].
    rewrite list_lookup_imap in Hqn.
    destruct (ps !! i) as [q|] eqn:Hq; simpl in Hqn; [|done].
    injection Hqn as <-. simpl. by rewrite Hq.
Qed.

(** C8. [possible_moves] mutates nothing that it was given: on a store that
    holds the parent board and the parent pool, it leaves every list object
    of that store as it was, so that the parent board and the parent pool
    have their values of before the call; each child that it yields is a
    board object that is new together with all its rows (a copy that shares
    no list with the parent) and a new pool object; the children hold the
    values of the model on values, and each child board is the parent board
    with exactly one cell changed, its first empty cell in row-major order,
    which now holds the orientation that was placed. *)
Theorem possible_moves_mutates_nothing (h : gmap nat Store.obj)
    (bl pl : nat) (b : board) (ps : list piece) :
  Store.read_board h bl = Some b -> Store.read_strs h pl = Some ps ->
  exists g h',
    Store.possible_moves bl pl h = Some (g, h') /\
    h ⊆ h' /\
    Store.read_board h' bl = Some b /\ Store.read_strs h' pl = Some ps /\
    raised g = raised (possible_moves b ps) /\
    Forall2 (fun c v => Store.read_state h' c = Some v)
            (yields g) (yields (possible_moves b ps)) /\
    Forall (fun c => Store.fresh_board h h' c.1 /\ c.2 ∉ dom h) (yields g) /\
    Forall (fun v : state =>
              exists x y row o,
                next_free b = Some (x, y) /\
                b !! y = Some row /\ row !! x = Some empty_cell /\
                o <> empty_cell /\
                v.1 = <[y := <[x := o]> row]> b)
           (yields (possible_moves b ps)).
Proof.
  intros Hb Hps.
  assert (Hone : Forall (fun v : state =>
              exists x y row o,
                next_free b = Some (x, y) /\
                b !! y = Some row /\ row !! x = Some empty_cell /\
                o <> empty_cell /\
                v.1 = <[y := <[x := o]> row]> b)
           (yields (possible_moves b ps))).
  { apply Forall_forall. intros v Hv.
    destruct (child_inv (b, ps) v Hv)
      as (x & y & i & q & o & nb & Hfree & Hi & Ho & Hfit & Hset & ->).
    simpl in *.
    apply set_cell_inv in Hset as (row & Hrow & Hx & ->).
    exists x, y, row, o. split_and!; [done|done| |by eapply is_orientation_filled|done].
    apply next_free_Some in Hfree
      as (b1 & r1 & r2 & b2 & -> & -> & -> & _).
    rewrite list_lookup_middle in Hrow by done. injection Hrow as <-.
    by rewrite list_lookup_middle. }
  unfold Store.possible_moves, possible_moves in *. rewrite Hb, Hps. simpl.
  destruct (next_free b) as [[x y]|] eqn:Hfree.
  - destruct (store_moves_of_pieces bl pl x y (seq 0 (length ps))
                (next_piece ps) h b ps Hb Hps)
      as (g & h' & Hrun & Hsub & Hraised & Hvals & Hfresh).
    { intros o. destruct (next_free_Some _ _ _ Hfree)
        as (b1 & r1 & r2 & b2 & -> & -> & -> & _).
      rewrite set_cell_middle. eauto. }
    { apply next_piece_indices. }
    exists g, h'. split_and!; try done.
    + by eapply read_board_weaken.
    + by eapply read_strs_weaken.
  - exists (gen_raise TypeError), h.
    split_and!; [done|done|done|done|done|constructor|constructor|done].
Qed.

Lemma possible_moves_mutates_nothing_witness :
  let h : gmap nat Store.obj :=
    <[0 := Store.Strs ["_"; "_"]]>
      (<[1 := Store.Refs [0]]> (<[2 := Store.Strs ["AAAA"]]> ∅)) in
  exists g h',
    Store.possible_moves 1 2 h = Some (g, h') /\
    h ⊆ h' /\
    Store.read_board h' 1 = Some [["_"; "_"]] /\
    Store.read_strs h' 2 = Some ["AAAA"] /\
    raised g = raised (possible_moves [["_"; "_"]] ["AAAA"]) /\
    Forall2 (fun c v => Store.read_state h' c = Some v)
            (yields g) (yields (possible_moves [["_"; "_"]] ["AAAA"])) /\
    Forall (fun c => Store.fresh_board h h' c.1 /\ c.2 ∉ dom h) (yields g) /\
    Forall (fun v : state =>
              exists x y row o,
                next_free [["_"; "_"]] = Some (x, y) /\
                [["_"; "_"]] !! y = Some row /\
                row !! x = Some empty_cell /\
                o <> empty_cell /\
                v.1 = <[y := <[x := o]> row]> [["_"; "_"]])
           (yields (possible_moves [["_"; "_"]] ["AAAA"])).
Proof.
  intros h.
  apply (possible_moves_mutates_nothing h 1 2 [["_"; "_"]] ["AAAA"]).
  - vm_compute. reflexivity.
  - vm_compute. reflexivity.
Defined.

(** The run of the store model on that store: eight children, on the board
    objects 5, 7, ..., 19 with the row objects 4, 6, ..., 18, which all
    share the one new pool object 3. *)
Example store_run :
  let h : gmap nat Store.obj :=
    <[0 := Store.Strs ["_"; "_"]]>
      (<[1 := Store.Refs [0]]> (<[2 := Store.Strs ["AAAA"]]> ∅)) in
  (fun r => yields r.1) <$> Store.possible_moves 1 2 h =
  Some [(5, 3); (7, 3); (9, 3); (11, 3); (13, 3); (15, 3); (17, 3); (19, 3)].
Proof. vm_compute. reflexivity. Qed.

(** * Further properties of the code *)

(** ** Rotations and flips of arbitrary strings *)



Lemma rotate_piece_cons (c : ascii) (s : string) :
  rotate_piece (String c s) = Ok (s +:+ str1 c).
Proof. reflexivity. Qed.




(** X2. [flip_piece] raises [IndexError] exactly on strings of fewer than
    four symbols, and otherwise returns four symbols; on a 4-symbol piece it
    keeps north and south, swaps east and west, is its own inverse, and so
    is a flip after a rotation. *)
Theorem flip_piece_involution (p : piece) :
  (flip_piece p = Raise IndexError <-> String.length p < 4) /\
  (forall f, flip_piece p = Ok f -> four_symbols f) /\
  (four_symbols p ->
   exists f, flip_piece p = Ok f /\ flip_piece f = Ok p /\
     String.get 0 f = String.get 0 p /\ String.get 1 f = String.get 3 p /\
     String.get 2 f = String.get 2 p /\ String.get 3 f = String.get 1 p /\
     (let? r := rotate_piece p in
      let? g := flip_piece r in
      let? r' := rotate_piece g in
      flip_piece r') = Ok p).
Proof.
  split_and!.
  - unfold flip_piece, str_index.
    destruct p as [|a [|b [|c [|d p]]]]; simpl; split; try done; lia.
  - intros f Hf. by destruct (flip_piece_length _ _ Hf).
  - intros (a & b & c & d & ->)%four_symbols_inv.
    eexists. split_and!; reflexivity.
Qed.

Lemma flip_piece_involution_witness :
  exists f, flip_piece "EAGB" = Ok f /\ flip_piece f = Ok "EAGB" /\
    String.get 0 f = String.get 0 "EAGB" /\
    String.get 1 f = String.get 3 "EAGB" /\
    String.get 2 f = String.get 2 "EAGB" /\
    String.get 3 f = String.get 1 "EAGB" /\
    (let? r := rotate_piece "EAGB" in
     let? g := flip_piece r in
     let? r' := rotate_piece g in
     flip_piece r') = Ok "EAGB".
Proof.
  destruct (flip_piece_involution "EAGB") as (_ & _ & H).
  apply H. reflexivity.
Defined.

Lemma append_rotations_total (n : nat) (results : list piece) (q : piece) :
  last results = Some q -> 1 <= String.length q ->
  exists res, append_rotations n results = Ok res /\
              results `prefix_of` res.
Proof.
  revert results q. induction n as [|n IH]; intros results q Hlast Hq.
  - exists results. by split.
  - cbn [append_rotations]. rewrite Hlast. cbn [rbind].
    destruct q as [|c q]; [simpl in Hq; lia|].
    rewrite rotate_piece_cons. cbn [rbind].
    destruct (IH (results ++ [q +:+ str1 c]) (q +:+ str1 c)) as (res & -> & Hpre).
    + apply last_snoc.
    + rewrite append_length. simpl. lia.
    + exists res. split; [done|]. etrans; [|exact Hpre]. by apply prefix_app_r.
Qed.

(** X3. [orientations] and [piece_identity] raise [IndexError] exactly on
    strings of fewer than four symbols, and nothing else.  On a longer
    string [orientations] returns eight strings, the first of which is the
    string itself; no length check rejects a description of more than four
    symbols. *)
Theorem orientations_defined (p : piece) :
  (String.length p < 4 ->
   orientations p = Raise IndexError /\
   piece_identity p = Raise IndexError) /\
  (4 <= String.length p ->
   (exists os, orientations p = Ok os /\ length os = 8 /\
               os !! 0 = Some p) /\
   (exists m, piece_identity p = Ok m)).
Proof.
  split.
  - intros Hlt. unfold piece_identity.
    assert (orientations p = Raise IndexError) as ->; [|done].
    destruct p as [|a [|b [|c [|d p]]]]; try reflexivity. simpl in Hlt. lia.
  - intros Hge.
    assert (exists os, orientations p = Ok os /\ length os = 8 /\
                       os !! 0 = Some p) as (os & Hos & Hlen & H0).
    { unfold orientations.
      destruct (append_rotations_total 3 [p] p) as (res & Hres & Hpre);
        [done|lia|].
      rewrite Hres. cbn [rbind].
      destruct (flip_piece p) as [f|e] eqn:Hf.
      2: { exfalso. unfold flip_piece, str_index in Hf.
           destruct p as [|a [|b [|c [|d p]]]]; simpl in *; try lia.
           discriminate. }
      cbn [rbind].
      destruct (flip_piece_length _ _ Hf) as [Hf4 _].
      destruct (append_rotations_total 3 (res ++ [f]) f) as (os & Hos & Hpre');
        [apply last_snoc|lia|].
      exists os. split; [done|].
      assert (Hoso : orientations p = Ok os).
      { unfold orientations. rewrite Hres. cbn [rbind]. rewrite Hf. done. }
      split; [by destruct (orientations_spec _ _ Hoso)|].
      destruct Hpre as [k1 ->]. destruct Hpre' as [k2 ->]. done. }
    split; [by exists os|].
    unfold piece_identity. rewrite Hos. cbn [rbind].
    unfold list_index, sorted.
    pose proof (Permutation_length (merge_sort_Permutation String.le os)) as Hl.
    destruct (merge_sort String.le os) as [|m ms]; [simpl in Hl; lia|].
    by exists m.
Qed.

Lemma orientations_defined_witness :
  (orientations "ABC" = Raise IndexError /\
   piece_identity "ABC" = Raise IndexError) /\
  (exists os, orientations "ABCDE" = Ok os /\ length os = 8 /\
              os !! 0 = Some "ABCDE") /\
  (exists m, piece_identity "ABCDE" = Ok m).
Proof.
  split.
  - apply (orientations_defined "ABC"). simpl. lia.
  - apply (orientations_defined "ABCDE"). simpl. lia.
Defined.

(** A description of five symbols loses its last symbol in the flipped
    orientations. *)
Example orientations_of_five_symbols :
  orientations "ABCDE" =
  Ok ["ABCDE"; "BCDEA"; "CDEAB"; "DEABC"; "ADCB"; "DCBA"; "CBAD"; "BADC"].
Proof. reflexivity. Qed.

(** ** Orientation classes and canonical pieces *)

Lemma is_orientation_refl (p : piece) : four_symbols p -> is_orientation p p.
Proof.
  intros (a & b & c & d & ->)%four_symbols_inv.
  eexists. split; [apply orientations_four|left].
Qed.

Lemma is_orientation_sym (p q : piece) :
  four_symbols p -> is_orientation q p -> is_orientation p q.
Proof.
  intros H4 (os & Hos & Hq).
  destruct (orientations_closed p q os H4 Hos Hq) as (os' & Hos' & Hperm).
  exists os'. split; [done|]. rewrite Hperm.
  destruct (is_orientation_refl p H4) as (os2 & Hos2 & Hp). congruence.
Qed.

Lemma is_orientation_trans (p q r : piece) :
  four_symbols p -> is_orientation q p -> is_orientation r q ->
  is_orientation r p.
Proof.
  intros H4 (os & Hos & Hq) (os' & Hos' & Hr).
  destruct (orientations_closed p q os H4 Hos Hq) as (os2 & Hos2 & Hperm).
  exists os. split; [done|]. rewrite <- Hperm. congruence.
Qed.

(** X4. On 4-symbol pieces, being an orientation of is an equivalence: a
    piece is an orientation of itself, an orientation of a piece has that
    piece among its own orientations, and an orientation of an orientation
    is an orientation.  The eight orientations of any orientation are the
    eight orientations of the piece, in another order. *)
Theorem orientation_classes (p q : piece) :
  four_symbols p -> is_orientation q p ->
  is_orientation p p /\ is_orientation p q /\
  (forall r, is_orientation r q <-> is_orientation r p) /\
  (exists os os', orientations p = Ok os /\ orientations q = Ok os' /\
                  os' ≡ₚ os).
Proof.
  intros H4 Hq. split_and!.
  - by apply is_orientation_refl.
  - by apply is_orientation_sym.
  - intros r. split; intros Hr.
    + by eapply is_orientation_trans.
    + eapply is_orientation_trans; [|by apply is_orientation_sym|done].
      by eapply is_orientation_four.
  - destruct Hq as (os & Hos & Hq).
    destruct (orientations_closed p q os H4 Hos Hq) as (os' & Hos' & Hperm).
    by exists os, os'.
Qed.

Lemma orientation_classes_witness :
  is_orientation "EAGB" "EAGB" /\ is_orientation "EAGB" "BGAE" /\
  (forall r, is_orientation r "BGAE" <-> is_orientation r "EAGB") /\
  (exists os os', orientations "EAGB" = Ok os /\
                  orientations "BGAE" = Ok os' /\ os' ≡ₚ os).
Proof.
  apply (orientation_classes "EAGB" "BGAE").
  - reflexivity.
  - eexists. split; [reflexivity|]. do 5 right. left.
Defined.

Lemma piece_identity_elem (p m : piece) :
  piece_identity p = Ok m -> is_orientation m p.
Proof.
  unfold piece_identity. intros Hm.
  destruct (orientations p) as [os|] eqn:Hos; [|done]. cbn [rbind] in Hm.
  exists os. split; [done|]. by apply sorted_head_elem.
Qed.

(** X5. Whenever [piece_identity] returns, its result is one of the
    orientations and is lexicographically no larger than any of them. *)
Theorem piece_identity_least (p m : piece) :
  piece_identity p = Ok m ->
  is_orientation m p /\ (forall o, is_orientation o p -> String.le m o).
Proof.
  intros Hm. split; [by apply piece_identity_elem|].
  unfold piece_identity in Hm.
  destruct (orientations p) as [os|] eqn:Hos; [|done]. cbn [rbind] in Hm.
  - intros o (os' & Hos' & Ho). assert (os' = os) as -> by congruence.
    unfold list_index, sorted in Hm.
    pose proof (StronglySorted_merge_sort String.le os) as Hsorted.
    rewrite <- (merge_sort_Permutation String.le os) in Ho.
    destruct (merge_sort String.le os) as [|m' ms]; [done|].
    injection Hm as ->. apply elem_of_cons in Ho as [->|Ho]; [done|].
    apply StronglySorted_cons in Hsorted as [Hall _].
    rewrite Forall_forall in Hall. by apply Hall.
Qed.

Lemma piece_identity_least_witness :
  is_orientation "AEBG" "EAGB" /\
  (forall o, is_orientation o "EAGB" -> String.le "AEBG" o).
Proof.
  apply (piece_identity_least "EAGB" "AEBG"). vm_compute. reflexivity.
Defined.

Lemma piece_identity_orientation (p q : piece) :
  four_symbols p -> is_orientation q p ->
  piece_identity q = piece_identity p.
Proof.
  intros H4 (os & Hos & Hq).
  destruct (orientations_closed p q os H4 Hos Hq) as (os' & Hos' & Hperm).
  unfold piece_identity. rewrite Hos, Hos'. cbn [rbind].
  by rewrite (sorted_Permutation _ _ Hperm).
Qed.

(** The canonical piece, where [piece_identity] returns. *)
Lemma identities_fmap (input qs : list piece) :
  identities input = Ok qs <->
  Forall2 (fun p q => piece_identity p = Ok q) input qs.
Proof.
  revert qs. induction input as [|p input IH]; intros qs; simpl.
  - split; [by intros [= <-]; constructor|].
    by intros ->%Forall2_nil_inv_l.
  - split.
    + destruct (piece_identity p) as [q|] eqn:Hq; [|done]. cbn [rbind].
      destruct (identities input) as [qs'|] eqn:Hqs; [|done]. cbn [rbind].
      intros [= <-]. constructor; [done|]. by apply IH.
    + intros (q & qs' & Hq & Hqs & ->)%Forall2_cons_inv_l.
      rewrite Hq. cbn [rbind]. apply IH in Hqs. by rewrite Hqs.
Qed.

Lemma identities_Permutation (input input' qs : list piece) :
  input ≡ₚ input' -> identities input = Ok qs ->
  exists qs', identities input' = Ok qs' /\ qs ≡ₚ qs'.
Proof.
  intros Hperm. revert qs.
  induction Hperm as [|p l l' _ IH|p1 p2 l|l1 l2 l3 _ IH1 _ IH2]; intros qs.
  - intros [= <-]. by exists [].
  - intros (q & qs' & Hq & Hqs & ->)%identities_fmap%Forall2_cons_inv_l.
    apply identities_fmap in Hqs. destruct (IH _ Hqs) as (qs2 & Hqs2 & Hp).
    exists (q :: qs2). split; [|by constructor].
    simpl. rewrite Hq. cbn [rbind]. by rewrite Hqs2.
  - intros (q2 & qs' & Hq2 & Hqs & ->)%identities_fmap%Forall2_cons_inv_l.
    apply Forall2_cons_inv_l in Hqs as (q1 & qs2 & Hq1 & Hqs & ->).
    apply identities_fmap in Hqs.
    exists (q1 :: q2 :: qs2). split; [|apply Permutation_swap].
    simpl. rewrite Hq1. cbn [rbind]. rewrite Hq2. cbn [rbind].
    by rewrite Hqs.
  - intros Hqs. destruct (IH1 _ Hqs) as (qs2 & Hqs2 & Hp2).
    destruct (IH2 _ Hqs2) as (qs3 & Hqs3 & Hp3).
    exists qs3. split; [done|]. by etrans.
Qed.

(** X6. The pool that is loaded depends neither on the orientation in which
    each piece is described nor on the order of the descriptions: two
    inventories of 4-symbol descriptions that agree up to the order and up
    to the orientation of each piece load to the same pool. *)
Theorem load_pieces_canonical (input input' input'' : list piece) :
  Forall four_symbols input ->
  Forall2 is_orientation input' input ->
  input' ≡ₚ input'' ->
  load_pieces input'' = load_pieces input.
Proof.
  intros H4 Hor Hperm.
  assert (Hsame : identities input' = identities input).
  { clear Hperm. induction Hor as [|q p input' input Hq _ IH]; [done|].
    apply Forall_cons in H4 as [Hp H4]. simpl.
    by rewrite (piece_identity_orientation p q Hp Hq), IH. }
  destruct (identities_total input H4) as (qs & Hqs & _).
  rewrite Hqs in Hsame.
  destruct (identities_Permutation _ _ _ Hperm Hsame) as (qs' & Hqs' & Hp).
  unfold load_pieces. rewrite Hqs, Hqs'. cbn [rbind].
  by rewrite (sorted_Permutation _ _ Hp).
Qed.

Lemma load_pieces_canonical_witness :
  load_pieces ["DCAB"; "BGAE"] = load_pieces ["EAGB"; "CABD"].
Proof.
  apply (load_pieces_canonical ["EAGB"; "CABD"] ["BGAE"; "DCAB"]).
  - repeat constructor.
  - repeat constructor.
    + eexists. split; [reflexivity|]. do 5 right. left.
    + eexists. split; [reflexivity|]. do 3 right. left.
  - apply Permutation_swap.
Defined.

(** X7. The pool that is loaded from 4-symbol descriptions is in ascending
    order, holds one entry per description, and each entry is its own
    canonical piece. *)
Theorem load_pieces_sorted (input ps : list piece) :
  Forall four_symbols input -> load_pieces input = Ok ps ->
  StronglySorted String.le ps /\ length ps = length input /\
  Forall (fun q => four_symbols q /\ piece_identity q = Ok q) ps.
Proof.
  intros H4. unfold load_pieces.
  destruct (identities input) as [qs|] eqn:Hqs; [|done]. cbn [rbind].
  intros [= <-]. split_and!.
  - apply StronglySorted_merge_sort; apply _.
  - unfold sorted.
    rewrite (Permutation_length (merge_sort_Permutation String.le qs)).
    apply identities_fmap in Hqs. symmetry. by eapply Forall2_length.
  - unfold sorted. rewrite (merge_sort_Permutation String.le qs).
    apply identities_fmap in Hqs.
    apply Forall_forall. intros q Hq.
    apply list_elem_of_lookup in Hq as [i Hi].
    destruct (Forall2_lookup_r _ _ _ _ _ Hqs Hi) as (p & Hp & Hpq).
    eapply Forall_lookup_1 in H4; [|exact Hp].
    pose proof (piece_identity_elem p q Hpq) as Hor.
    split; [by eapply is_orientation_four|].
    by rewrite (piece_identity_orientation p q H4 Hor).
Qed.

Lemma load_pieces_sorted_witness :
  StronglySorted String.le ["ABDC"; "AEBG"] /\
  length ["ABDC"; "AEBG"] = length ["EAGB"; "CABD"] /\
  Forall (fun q => four_symbols q /\ piece_identity q = Ok q)
         ["ABDC"; "AEBG"].
Proof.
  apply (load_pieces_sorted ["EAGB"; "CABD"] ["ABDC"; "AEBG"]).
  - repeat constructor.
  - vm_compute. reflexivity.
Defined.

(** ** The scan for the next free cell *)

Lemma at_cell_middle (b1 b2 : board) (r1 r2 : list piece) (c : piece) :
  at_cell (b1 ++ (r1 ++ c :: r2) :: b2) (length r1) (length b1) = Some c.
Proof.
  unfold at_cell. rewrite list_lookup_middle by done. simpl.
  by rewrite list_lookup_middle.
Qed.

Lemma at_cell_filled (b : board) (x y : nat) (c : piece) :
  Forall (Forall filled) b -> at_cell b x y = Some c -> filled c.
Proof.
  intros Hb Hc. unfold at_cell in Hc.
  destruct (b !! y) as [row|] eqn:Hrow; simpl in Hc; [|done].
  eapply Forall_lookup_1 in Hb; [|exact Hrow].
  eapply Forall_lookup_1 in Hb; [|exact Hc]. done.
Qed.

(** X8. [next_free] returns the first empty cell in row-major order: the
    cell it returns is empty and every cell before it holds a piece; it
    returns [None] exactly when no cell of the board is empty. *)
Theorem next_free_first_empty (b : board) :
  match next_free b with
  | Some (x, y) =>
      at_cell b x y = Some empty_cell /\
      (forall x' y' c, at_cell b x' y' = Some c ->
                       row_major_before x' y' x y -> c <> empty_cell)
  | None => forall x y c, at_cell b x y = Some c -> c <> empty_cell
  end.
Proof.
  destruct (next_free b) as [[x y]|] eqn:Hfree.
  - apply next_free_Some in Hfree
      as (b1 & r1 & r2 & b2 & -> & -> & -> & Hb1 & Hr1).
    split; [apply at_cell_middle|].
    intros x' y' c Hc [Hy|[-> Hx]].
    + unfold at_cell in Hc. rewrite lookup_app_l in Hc by done.
      by eapply (at_cell_filled b1 x' y').
    + unfold at_cell in Hc. rewrite list_lookup_middle in Hc by done.
      simpl in Hc. rewrite lookup_app_l in Hc by done.
      eapply Forall_lookup_1 in Hr1; [|exact Hc]. done.
  - apply next_free_None in Hfree. intros x y c. by apply at_cell_filled.
Qed.

(** ** Taking a piece out of the pool *)

(** X9. [next_piece] yields one pair per pool entry, in the order of the
    pool: the entry and the pool without it.  Nothing is lost and nothing
    is doubled: the entry put back on the rest is the pool up to order, and
    the rest is one entry shorter. *)
Theorem next_piece_splits (pieces : list piece) :
  length (next_piece pieces) = length pieces /\
  (forall i q np, next_piece pieces !! i = Some (q, np) ->
     pieces !! i = Some q /\ np = delete i pieces /\
     q :: np ≡ₚ pieces /\ length pieces = S (length np)).
Proof.
  unfold next_piece. split; [apply length_imap|].
  intros i q np Hi. rewrite list_lookup_imap in Hi.
  destruct (pieces !! i) as [q'|] eqn:Hq; simpl in Hi; [|done].
  injection Hi as -> <-.
  rewrite Nat.add_1_r, <- delete_take_drop.
  split_and!; [done|done| |].
  - symmetry. by apply delete_Permutation.
  - rewrite length_delete by eauto. apply lookup_lt_Some in Hq. lia.
Qed.

(** ** Edge cases of the compatibility rule *)

Lemma at_cell_row (b : board) (x y : nat) :
  is_Some (at_cell b x y) <->
  exists row, b !! y = Some row /\ x < length row.
Proof.
  unfold at_cell. split.
  - intros [c Hc]. destruct (b !! y) as [row|]; simpl in Hc; [|done].
    exists row. split; [done|]. by eapply lookup_lt_Some.
  - intros (row & -> & Hx). simpl. by apply lookup_lt_is_Some.
Qed.

(** X10. On a rectangular board on which nothing is placed yet, any string
    fits any position of the board: no symbol of the piece is read, so a
    piece of any length or alphabet is accepted there. *)
Theorem check_piece_fits_empty_board (b : board) (w : nat) (p : piece)
    (x y : nat) :
  Forall (fun row : list piece => length row = w) b ->
  Forall (Forall (fun c => c = empty_cell)) b ->
  is_Some (at_cell b x y) ->
  check_piece_fits b p x y = Ok true.
Proof.
  intros Hrect Hempty Hxy. apply check_piece_fits_true.
  assert (Hwf : wf_board b).
  { split; [apply rect_width; by exists w|].
    eapply Forall_impl; [exact Hempty|]. intros row Hrow.
    eapply Forall_impl; [exact Hrow|]. intros c ->. by left. }
  assert (Hcell : forall nx ny, is_Some (at_cell b nx ny) ->
                                at_cell b nx ny = Some empty_cell).
  { intros nx ny [c Hc]. rewrite Hc. f_equal. unfold at_cell in Hc.
    destruct (b !! ny) as [row|] eqn:Hrow; simpl in Hc; [|done].
    eapply Forall_lookup_1 in Hempty; [|exact Hrow].
    eapply Forall_lookup_1 in Hempty; [|exact Hc]. done. }
  destruct (proj1 (at_cell_row b x y) Hxy) as (row & Hrow & Hx).
  assert (Hy : y < length b) by by eapply lookup_lt_Some.
  unfold fits, side_ok. split_and!.
  - destruct (decide (y = 0)); [by left|]. right. left.
    apply Hcell. eapply wf_board_at; [done..|lia].
  - destruct (decide (x + 1 = length row)); [left; by exists row|].
    right. left. apply Hcell, at_cell_row. exists row. split; [done|lia].
  - destruct (decide (y + 1 = length b)); [by left|]. right. left.
    apply Hcell. eapply wf_board_at; [done..|lia].
  - destruct (decide (x = 0)); [by left|]. right. left.
    apply Hcell, at_cell_row. exists row. split; [done|lia].
Qed.

Lemma check_piece_fits_empty_board_witness :
  check_piece_fits [["_"; "_"]; ["_"; "_"]] "X" 1 1 = Ok true.
Proof.
  apply (check_piece_fits_empty_board [["_"; "_"]; ["_"; "_"]] 2 "X" 1 1).
  - repeat constructor.
  - repeat constructor.
  - eexists. reflexivity.
Defined.



(** X12. [check_piece_fits] returns [True] only at a position of the board:
    outside the board it raises or returns [False]. *)
Theorem check_piece_fits_on_board (b : board) (p : piece) (x y : nat) :
  check_piece_fits b p x y = Ok true -> is_Some (at_cell b x y).
Proof.
  intros (_ & He & _ & _)%check_piece_fits_true. apply at_cell_row.
  destruct He as [(row & Hrow & Hlen)|[He|(c & He & _)]].
  - exists row. split; [done|lia].
  - assert (is_Some (at_cell b (x + 1) y)) as (row & Hrow & Hx)%at_cell_row
      by eauto.
    exists row. split; [done|lia].
  - assert (is_Some (at_cell b (x + 1) y)) as (row & Hrow & Hx)%at_cell_row
      by eauto.
    exists row. split; [done|lia].
Qed.

Lemma check_piece_fits_on_board_witness :
  is_Some (at_cell [["AAAA"; "_"]] 1 0).
Proof.
  apply (check_piece_fits_on_board [["AAAA"; "_"]] "BBBB" 1 0).
  vm_compute. reflexivity.
Defined.

(** X13. Fitting is symmetric: of two pieces side by side, the right one
    fits beside the left one exactly when the left one fits beside the
    right one, and likewise for two pieces one above the other; the order
    in which two neighbours are placed does not matter. *)
Theorem check_piece_fits_symmetric (p q : piece) :
  p <> empty_cell -> q <> empty_cell ->
  (check_piece_fits [[p; "_"]] q 1 0 = Ok true <->
   check_piece_fits [["_"; q]] p 0 0 = Ok true) /\
  (check_piece_fits [[p]; ["_"]] q 0 1 = Ok true <->
   check_piece_fits [["_"]; [q]] p 0 0 = Ok true).
Proof.
  intros Hp Hq. rewrite !check_piece_fits_true. unfold fits, side_ok.
  assert (Hsym : forall i j, edges_match p i q j <-> edges_match q j p i).
  { intros i j. split; apply edges_match_sym. }
  split.
  - split.
    + intros (_ & _ & _ & [?|[[= ?]|(c & [= <-] & Hm)]]); [lia|done|].
      split_and!; [by left| |by left|by left].
      right. right. exists q. split; [done|]. by apply Hsym.
    + intros (_ & [(row & [= <-] & ?)|[[= ?]|(c & [= <-] & Hm)]] & _ & _);
        [simpl in *; lia|done|].
      split_and!; [by left|left; by eexists|by left|].
      right. right. exists p. split; [done|]. by apply Hsym.
  - split.
    + intros ([?|[[= ?]|(c & [= <-] & Hm)]] & _ & _ & _); [lia|done|].
      split_and!; [by left|left; by eexists| |by left].
      right. right. exists q. split; [done|]. by apply Hsym.
    + intros (_ & _ & [?|[[= ?]|(c & [= <-] & Hm)]] & _);
        [simpl in *; lia|done|].
      split_and!; [|left; by eexists|by left|by left].
      right. right. exists p. split; [done|]. by apply Hsym.
Qed.

Lemma check_piece_fits_symmetric_witness :
  (check_piece_fits [["AAAA"; "_"]] "BBBB" 1 0 = Ok true <->
   check_piece_fits [["_"; "BBBB"]] "AAAA" 0 0 = Ok true) /\
  (check_piece_fits [["AAAA"]; ["_"]] "BBBB" 0 1 = Ok true <->
   check_piece_fits [["_"]; ["BBBB"]] "AAAA" 0 0 = Ok true).
Proof. apply (check_piece_fits_symmetric "AAAA" "BBBB"); discriminate. Defined.

(** ** The children of a state, counted *)

(** X14. [possible_moves] yields at most eight children per pool piece.
    Every child has exactly one empty cell less than its parent, and its
    pool is the parent's pool without one piece, an orientation of which is
    the piece placed: that piece put back gives the parent's pool up to
    order. *)
Theorem possible_moves_children (b : board) (pieces : list piece) :
  length (yields (possible_moves b pieces)) <= 8 * length pieces /\
  Forall (fun c : state =>
            count_empty b = S (count_empty c.1) /\
            exists x y q o,
              next_free b = Some (x, y) /\ is_orientation o q /\
              at_cell c.1 x y = Some o /\ q :: c.2 ≡ₚ pieces)
         (yields (possible_moves b pieces)).
Proof.
  split; [apply possible_moves_length|].
  apply Forall_forall. intros c Hc.
  change (child (b, pieces) c) in Hc.
  destruct (child_count _ _ Hc) as [Hcount _]. split; [done|].
  destruct (child_inv _ _ Hc)
    as (x & y & i & q & o & nb & Hfree & Hi & Ho & _ & Hset & ->).
  simpl in *. exists x, y, q, o. split_and!; [done|done| |].
  - apply next_free_Some in Hfree
      as (b1 & r1 & r2 & b2 & -> & -> & -> & _).
    rewrite set_cell_middle in Hset. injection Hset as <-.
    apply at_cell_middle.
  - symmetry. by apply delete_Permutation.
Qed.

(** ** Runs of [solve] *)

(** X15. On a board without an empty cell [solve] raises the [TypeError] of
    [x, y = None] in its first iteration, whatever the pool, and yields
    nothing: a full board is not reported, not even with an empty pool. *)
Theorem solve_full_board (n : nat) (b : board) (pieces : list piece) :
  count_empty b = 0 -> 1 <= n ->
  solve n b pieces = (Raised TypeError, Solver [] b pieces 0 [] []).
Proof.
  intros Hfull Hn. destruct n as [|n]; [lia|].
  unfold solve, solve_init.
  rewrite (solve_loop_S _ _ (b, pieces) []) by done.
  unfold expand, possible_moves. simpl.
  apply count_empty_zero in Hfull. by rewrite Hfull.
Qed.

Lemma solve_full_board_witness :
  solve 1 [["AAAA"]] [] = (Raised TypeError, Solver [] [["AAAA"]] [] 0 [] []).
Proof. apply (solve_full_board 1 [["AAAA"]] []); [reflexivity|lia]. Defined.

(** X16. [solve] ends on every board and every pool, well formed or not:
    within [weight (len(pieces))] iterations of its loop it has returned or
    raised, and nothing changes after that. *)
Theorem solve_terminates (b : board) (pieces : list piece) (m : nat) :
  weight (length pieces) <= m ->
  (solve m b pieces).1 <> Running /\
  solve m b pieces = solve (weight (length pieces)) b pieces.
Proof.
  intros Hm.
  assert (Hend : (solve (weight (length pieces)) b pieces).1 <> Running).
  { apply solve_loop_terminates. simpl. rewrite work_cons. simpl.
    unfold work. simpl. lia. }
  assert (Heq : solve m b pieces = solve (weight (length pieces)) b pieces).
  { by apply solve_loop_stable. }
  split; [by rewrite Heq|done].
Qed.

Lemma solve_terminates_witness :
  (solve 9 [["_"]] ["AAAA"]).1 <> Running /\
  solve 9 [["_"]] ["AAAA"] = solve (weight (length ["AAAA"])) [["_"]] ["AAAA"].
Proof. apply (solve_terminates [["_"]] ["AAAA"] 9). simpl. lia. Defined.

(** The counters between two children of an iteration: the work list and
    the tuples yielded account for at most [n_explored] states, the tuples
    carry increasing counts up to [n_explored], and each carries a queue
    size below its count. *)
Lemma process_child_counters (st : solver) (c : state) :
  (Z.of_nat (length (worklist st)) + Z.of_nat (length (emitted st))
     <= n_explored st)%Z ->
  Forall (fun t : board * Z * nat =>
            (1 <= t.1.2 <= n_explored st)%Z /\ (Z.of_nat t.2 < t.1.2)%Z)
         (emitted st) ->
  StronglySorted (fun t1 t2 : board * Z * nat => (t1.1.2 < t2.1.2)%Z)
                 (emitted st) ->
  let st' := process_child st c in
  (n_explored st' = n_explored st + 1)%Z /\
  (Z.of_nat (length (worklist st')) + Z.of_nat (length (emitted st'))
     <= n_explored st')%Z /\
  Forall (fun t : board * Z * nat =>
            (1 <= t.1.2 <= n_explored st')%Z /\ (Z.of_nat t.2 < t.1.2)%Z)
         (emitted st') /\
  StronglySorted (fun t1 t2 : board * Z * nat => (t1.1.2 < t2.1.2)%Z)
                 (emitted st').
Proof.
  intros Hsum Hall Hsorted. destruct c as [nb np].
  unfold process_child.
  assert (Hall' : Forall (fun t : board * Z * nat =>
            (1 <= t.1.2 <= n_explored st + 1)%Z /\
            (Z.of_nat t.2 < t.1.2)%Z) (emitted st)).
  { eapply Forall_impl; [exact Hall|]. intros t [? ?]. split; lia. }
  destruct (accept nb np); simpl.
  - split_and!; [done| | |].
    + rewrite length_app. simpl. lia.
    + apply Forall_app. split; [done|].
      constructor; [|constructor]. simpl. lia.
    + apply StronglySorted_app_2; [|done|repeat constructor].
      intros t1 t2 Ht1 ->%list_elem_of_singleton. simpl.
      rewrite Forall_forall in Hall. destruct (Hall _ Ht1). lia.
  - split_and!; [done|lia|done|done].
Qed.

Lemma foldl_process_child_counters (st : solver) (cs : list state) :
  (Z.of_nat (length (worklist st)) + Z.of_nat (length (emitted st))
     <= n_explored st)%Z ->
  Forall (fun t : board * Z * nat =>
            (1 <= t.1.2 <= n_explored st)%Z /\ (Z.of_nat t.2 < t.1.2)%Z)
         (emitted st) ->
  StronglySorted (fun t1 t2 : board * Z * nat => (t1.1.2 < t2.1.2)%Z)
                 (emitted st) ->
  let st' := foldl process_child st cs in
  (n_explored st' = n_explored st + Z.of_nat (length cs))%Z /\
  (Z.of_nat (length (worklist st')) + Z.of_nat (length (emitted st'))
     <= n_explored st')%Z /\
  Forall (fun t : board * Z * nat =>
            (1 <= t.1.2 <= n_explored st')%Z /\ (Z.of_nat t.2 < t.1.2)%Z)
         (emitted st') /\
  StronglySorted (fun t1 t2 : board * Z * nat => (t1.1.2 < t2.1.2)%Z)
                 (emitted st').
Proof.
  revert st. induction cs as [|c cs IH]; intros st Hsum Hall Hsorted.
  - simpl. split_and!; [lia|done..].
  - destruct (process_child_counters st c Hsum Hall Hsorted)
      as (Hn & Hsum' & Hall' & Hsorted').
    destruct (IH _ Hsum' Hall' Hsorted') as (Hn2 & ?).
    cbn [foldl]. split; [|done]. rewrite Hn2, Hn. simpl length. lia.
Qed.

Lemma solve_loop_counters (n : nat) (st : solver) :
  (Z.of_nat (length (worklist st)) + Z.of_nat (length (emitted st))
     <= n_explored st + 1)%Z ->
  Forall (fun t : board * Z * nat =>
            (1 <= t.1.2 <= n_explored st)%Z /\ (Z.of_nat t.2 < t.1.2)%Z)
         (emitted st) ->
  StronglySorted (fun t1 t2 : board * Z * nat => (t1.1.2 < t2.1.2)%Z)
                 (emitted st) ->
  let st' := (solve_loop n st).2 in
  (n_explored st <= n_explored st')%Z /\
  (Z.of_nat (length (worklist st')) + Z.of_nat (length (emitted st'))
     <= n_explored st' + 1)%Z /\
  Forall (fun t : board * Z * nat =>
            (1 <= t.1.2 <= n_explored st')%Z /\ (Z.of_nat t.2 < t.1.2)%Z)
         (emitted st') /\
  StronglySorted (fun t1 t2 : board * Z * nat => (t1.1.2 < t2.1.2)%Z)
                 (emitted st').
Proof.
  revert st. induction n as [|n IH]; intros st Hsum Hall Hsorted;
    destruct (worklist st) as [|w rest] eqn:Hwl;
    rewrite ?(solve_loop_nil _ _ Hwl), ?(solve_loop_0 _ _ _ Hwl),
            ?(solve_loop_S _ _ _ _ Hwl); simpl;
    try (rewrite Hwl; split_and!; [lia|done..]).
  pose (st0 := Solver rest (min_board st) (min_pieces st) (n_explored st)
                      (emitted st) (printed st)).
  destruct (foldl_process_child_counters st0
              (yields (possible_moves w.1 w.2)))
    as (Hn & Hsum' & Hall' & Hsorted'); [simpl in *; lia|done..|].
  change (n_explored st0) with (n_explored st) in Hn.
  unfold expand. fold st0.
  destruct (raised (possible_moves w.1 w.2)); simpl.
  - split_and!; [lia|eapply Z.le_trans; [exact Hsum'|lia]|done..].
  - destruct (IH _ (Z.le_trans _ _ _ Hsum' (Z.le_succ_diag_r _))
                Hall' Hsorted') as (Hn2 & ?).
    split; [lia|done].
Qed.

(** X17. The counters that [solve] reports are consistent: the explored
    counts of the tuples yielded are at least 1 and strictly increasing,
    none exceeds the number of states explored so far, and the queue size
    reported with a tuple is smaller than its explored count. *)
Theorem solve_counters (n : nat) (b : board) (pieces : list piece) :
  StronglySorted (fun t1 t2 : board * Z * nat => (t1.1.2 < t2.1.2)%Z)
                 (emitted (solve n b pieces).2) /\
  Forall (fun t : board * Z * nat =>
            (1 <= t.1.2 <= n_explored (solve n b pieces).2)%Z /\
            (Z.of_nat t.2 < t.1.2)%Z)
         (emitted (solve n b pieces).2).
Proof.
  destruct (solve_loop_counters n (solve_init b pieces))
    as (_ & _ & Hall & Hsorted); simpl; [lia|constructor..|].
  by split.
Qed.

(** ** What the yielded boards are made of *)

Lemma extends_refl (b : board) : extends b b.
Proof.
  unfold extends. apply Forall_Forall2_diag, Forall_true. intros row.
  by apply Forall_Forall2_diag, Forall_true.
Qed.

Lemma extends_middle_intro (b1 b2 t2 : board) (r1 r2 u2 : list piece)
    (c c' : piece) :
  keeps c c' -> Forall2 keeps r2 u2 -> Forall2 (Forall2 keeps) b2 t2 ->
  extends (b1 ++ (r1 ++ c :: r2) :: b2) (b1 ++ (r1 ++ c' :: u2) :: t2).
Proof.
  intros Hc Hr2 Hb2. unfold extends.
  assert (Hrefl : forall l : list piece, Forall2 keeps l l).
  { intros l. by apply Forall_Forall2_diag, Forall_true. }
  apply Forall2_app.
  - apply Forall_Forall2_diag, Forall_true. intros r. apply Hrefl.
  - constructor; [|done]. apply Forall2_app; [apply Hrefl|].
    by constructor.
Qed.

Lemma placed_from_self (b : board) : placed_from b b = [].
Proof.
  unfold placed_from, new_cells. induction (concat b) as [|c l IH]; [done|].
  simpl. destruct (decide (c = empty_cell)) as [->|Hc].
  - rewrite filter_cons_True by done. simpl.
    rewrite filter_cons_False by (intros H; by apply H). done.
  - by rewrite filter_cons_False.
Qed.

Lemma filter_Forall {A : Type} (P : A -> Prop) `{forall x, Decision (P x)}
    (l : list A) :
  Forall P l -> filter P l = l.
Proof.
  induction 1 as [|x l Hx _ IH]; [done|].
  rewrite filter_cons_True by done. by rewrite IH.
Qed.

Lemma new_cells_filled (b t : board) :
  count_empty t = 0 -> placed_from b t = new_cells b t.
Proof.
  intros Hfull%count_empty_zero%next_free_None%concat_filled.
  unfold placed_from, new_cells. apply filter_Forall.
  apply Forall_forall. intros c (cc & -> & Hcc)%list_elem_of_fmap.
  apply list_elem_of_filter in Hcc as [_ Hcc].
  destruct cc as [c1 c2]. apply elem_of_zip_r in Hcc.
  rewrite Forall_forall in Hfull. by apply Hfull.
Qed.

(** Back from a child to its parent: a board that extends the child
    extends the parent, with the piece just placed as one more cell. *)
Lemma child_extends (s c : state) (t : board) :
  child s c -> extends c.1 t ->
  extends s.1 t /\
  exists o q, is_orientation o q /\ q :: c.2 ≡ₚ s.2 /\
              placed_from s.1 t = o :: placed_from c.1 t.
Proof.
  intros (b1 & r1 & r2 & b2 & i & q & o & Hb & Hb1 & Hr1 & Hi & Ho & _ & ->)
         %child_shape Hext.
  simpl in *. rewrite Hb.
  pose proof (is_orientation_filled _ _ Ho) as Hfo.
  destruct (extends_middle _ _ _ _ _ _ Hext Hb1 Hr1)
    as (u2 & t2 & o' & -> & Hkeep & Hr2 & Hb2).
  rewrite (Hkeep Hfo). split.
  - by apply extends_middle_intro.
  - exists o, q. split_and!; [done|symmetry; by apply delete_Permutation|].
    unfold placed_from. rewrite !new_cells_middle by done.
    rewrite decide_True by done. rewrite decide_False by done. simpl.
    by rewrite filter_cons_True.
Qed.

(** The facts that every run of [solve] keeps, for the states on its work
    list and the boards it yields. *)
Lemma solve_emitted_facts (n : nat) (b : board) (pieces : list piece)
    (t : board * Z * nat) :
  t ∈ emitted (solve n b pieces).2 ->
  count_empty t.1.1 + length pieces = count_empty b /\
  (valid_board b -> valid_board t.1.1) /\
  extends b t.1.1 /\
  exists qs, qs ≡ₚ pieces /\ Forall2 is_orientation (placed_from b t.1.1) qs.
Proof.
  intros Ht.
  pose (I := fun s : state =>
    count_empty s.1 + length pieces = count_empty b + length s.2 /\
    (valid_board b -> valid_board s.1) /\
    (forall u qs, extends s.1 u ->
       Forall2 is_orientation (placed_from s.1 u) qs ->
       extends b u /\
       exists QS, Forall2 is_orientation (placed_from b u) QS /\
                  QS ++ s.2 ≡ₚ pieces ++ qs)).
  pose (J := fun nb : board =>
    count_empty nb + length pieces = count_empty b /\
    (valid_board b -> valid_board nb) /\
    extends b nb /\
    exists qs, qs ≡ₚ pieces /\ Forall2 is_orientation (placed_from b nb) qs).
  assert (Hstep : forall s c, I s -> child s c -> I c).
  { intros s c (Hcount & Hvalid & Hback) Hchild. split_and!.
    - destruct (child_count _ _ Hchild). lia.
    - intros Hb. eapply child_valid; [done|]. by apply Hvalid.
    - intros u qs Hext Hqs.
      destruct (child_extends s c u Hchild Hext)
        as (Hext' & o & q & Ho & Hperm & Hplaced).
      destruct (Hback u (q :: qs) Hext') as (Hbu & QS & HQS & HpermQS).
      { rewrite Hplaced. by constructor. }
      split; [done|]. exists QS. split; [done|].
      apply (Permutation_cons_inv (a := q)).
      rewrite Permutation_middle, Hperm, HpermQS.
      by rewrite <- Permutation_middle. }
  assert (Hinv : solver_inv I J (solve n b pieces).2).
  { apply solve_loop_inv.
    - intros s c Hs Hchild _. by eapply Hstep.
    - intros s [nb np] Hs Hchild Hnil. simpl in Hnil. subst np.
      destruct (Hstep _ _ Hs Hchild) as (Hc & Hv & Hback). simpl in *.
      destruct (Hback nb [] (extends_refl nb)) as (Hext & QS & HQS & Hperm).
      { rewrite placed_from_self. constructor. }
      split_and!; [lia|done|done|].
      exists QS. split; [|done]. by rewrite !app_nil_r in Hperm.
    - split; simpl; [|constructor]. constructor; [|constructor].
      split_and!; [done|done|]. intros u qs Hext Hqs. split; [done|].
      exists qs. split; [done|]. simpl. apply Permutation_app_comm. }
  destruct Hinv as [_ He]. rewrite Forall_forall in He. by apply He.
Qed.

(** X18. [accept] looks at the pool only: every board that [solve] yields
    has as many empty cells left as the initial board had more empty cells
    than the pool had pieces.  With fewer pieces than empty cells the
    boards reported are not full; with more pieces nothing is yielded. *)
Theorem solve_yields_when_pool_is_used (n : nat) (b : board)
    (pieces : list piece) (t : board * Z * nat) :
  t ∈ emitted (solve n b pieces).2 ->
  count_empty t.1.1 + length pieces = count_empty b.
Proof. intros Ht. by destruct (solve_emitted_facts n b pieces t Ht). Qed.

Lemma solve_yields_when_pool_is_used_witness :
  count_empty [["AAAA"; "_"]] + length ["AAAA"] = count_empty [["_"; "_"]].
Proof.
  apply (solve_yields_when_pool_is_used 1 [["_"; "_"]] ["AAAA"]
           ([["AAAA"; "_"]], 1%Z, 0)).
  apply (list_elem_of_lookup_2 _ 0). vm_compute. reflexivity.
Defined.

(** X19. Every board that [solve] yields keeps the pieces of the initial
    board where they were, and the cells it has filled hold, in some
    orientation, the pieces of the pool, each pool piece exactly once. *)
Theorem solve_places_the_pool (n : nat) (b : board) (pieces : list piece)
    (t : board * Z * nat) :
  t ∈ emitted (solve n b pieces).2 ->
  extends b t.1.1 /\
  exists qs, qs ≡ₚ pieces /\ Forall2 is_orientation (placed_from b t.1.1) qs.
Proof.
  intros Ht. by destruct (solve_emitted_facts n b pieces t Ht) as (_ & _ & ?).
Qed.

Lemma solve_places_the_pool_witness :
  extends [["_"; "_"]] [["BBBB"; "AAAA"]] /\
  exists qs, qs ≡ₚ ["AAAA"; "BBBB"] /\
    Forall2 is_orientation
            (placed_from [["_"; "_"]] [["BBBB"; "AAAA"]]) qs.
Proof.
  apply (solve_places_the_pool 3 [["_"; "_"]] ["AAAA"; "BBBB"]
           ([["BBBB"; "AAAA"]], 17%Z, 15)).
  apply (list_elem_of_lookup_2 _ 0). vm_compute. reflexivity.
Defined.

(** X20. On a well-formed initial state with one pool piece per empty cell
    (at least one) and a board whose placed pieces are compatible, the
    boards that [solve] has yielded when it returns are exactly the complete
    valid tilings of the board from the pool. *)
Theorem solve_yields_exactly_the_tilings (b : board) (pieces : list piece)
    (m : nat) (t : board) :
  wf_board b -> Forall wf_piece pieces ->
  count_empty b = length pieces -> 1 <= length pieces ->
  valid_board b ->
  weight (length pieces) <= m ->
  (solve m b pieces).1 = Returned /\
  (t ∈ solutions (solve m b pieces) <->
   tiling b pieces t /\ valid_board t).
Proof.
  intros Hb Hps Hcount Hpos Hvalid Hm.
  assert (Hinv : Forall search_inv (worklist (solve_init b pieces))).
  { constructor; [|constructor]. by split_and!. }
  assert (Hret : (solve m b pieces).1 = Returned).
  { pose proof (solve_loop_terminates m (solve_init b pieces)) as Hterm.
    pose proof (fun e => solve_loop_no_raise m (solve_init b pieces) e Hinv)
      as Hraise.
    unfold solve. destruct (solve_loop m (solve_init b pieces)).1 eqn:E.
    - done.
    - by destruct (Hraise e).
    - destruct Hterm; [|done]. simpl. rewrite work_cons. simpl.
      unfold work. simpl. lia. }
  split; [done|]. split.
  - unfold solutions. intros (tu & -> & Htu)%list_elem_of_fmap.
    destruct (solve_emitted_facts m b pieces tu Htu)
      as (Hc & Hv & Hext & qs & Hperm & Hqs).
    split; [|by apply Hv]. split; [done|]. exists qs.
    split; [by apply Permutation_submseteq|].
    rewrite <- new_cells_filled; [done|lia].
  - intros [Htil Hval].
    apply (solve_loop_complete m _ (b, pieces)); [done..|left|done|done].
Qed.

Lemma solve_yields_exactly_the_tilings_witness :
  (solve 200 [["_"]] ["AAAA"]).1 = Returned /\
  ([["AAAA"]] ∈ solutions (solve 200 [["_"]] ["AAAA"]) <->
   tiling [["_"]] ["AAAA"] [["AAAA"]] /\ valid_board [["AAAA"]]).
Proof.
  apply (solve_yields_exactly_the_tilings [["_"]] ["AAAA"] 200 [["AAAA"]]).
  - split; repeat first [by left | by right | constructor].
  - repeat constructor; check_alphabet.
  - reflexivity.
  - simpl. lia.
  - apply valid_board_no_piece. repeat constructor.
  - simpl. lia.
Defined.

(** ** The printed board *)








(** ** The best partial board and the progress reports *)

Lemma process_child_reached (root : state) (st : solver) (c : state) :
  reached_inv root st -> rtc child root c ->
  reached_inv root (process_child st c).
Proof.
  intros (Hn & Hw & Ht & Hlen & Hne & Hp) Hc. destruct c as [nb np].
  assert (Hp' : Forall (fun s =>
      (0 < snap_explored s <= n_explored st + 1)%Z /\
      (snap_explored s mod 10000 = 0)%Z /\
      1 <= snap_queued s /\
      (exists ps, rtc child root (snap_board s, ps)) /\
      (exists nb, rtc child root (nb, snap_pieces s))) (printed st)).
  { eapply Forall_impl; [exact Hp|]. intros s (? & ? & ? & ? & ?).
    split_and!; try done; lia. }
  unfold process_child, reached_inv.
  destruct (accept nb np) eqn:Hacc; cbn [n_explored worklist min_board
    min_pieces printed].
  - split_and!; [lia|done..|exact Hp'].
  - assert (np <> []) as Hnp.
    { intros H. apply (accept_true nb) in H. congruence. }
    split_and!.
    + lia.
    + by constructor.
    + by case_bool_decide.
    + case_bool_decide; [lia|done].
    + case_bool_decide; [done|exact Hne].
    + case_bool_decide as Hmod; [|exact Hp'].
      apply Forall_app. split; [exact Hp'|].
      constructor; [|constructor].
      cbn [snap_explored snap_queued snap_board snap_pieces length].
      split_and!; [lia|lia|done|lia| |by exists nb].
      case_bool_decide; eauto.
Qed.

Lemma foldl_process_child_reached (root : state) (st : solver)
    (cs : list state) :
  reached_inv root st -> Forall (rtc child root) cs ->
  reached_inv root (foldl process_child st cs).
Proof.
  revert st. induction cs as [|c cs IH]; intros st Hst Hcs; simpl; [done|].
  apply Forall_cons in Hcs as [Hc Hcs].
  apply IH; [|done]. by apply process_child_reached.
Qed.

Lemma expand_reached (root : state) (st : solver) (w : state)
    (rest : list state) :
  reached_inv root st -> worklist st = w :: rest ->
  reached_inv root (expand st w rest).2.
Proof.
  intros (Hn & Hw & Ht & Hlen & Hne & Hp) Hwl. rewrite Hwl in Hw.
  apply Forall_cons in Hw as [Hw1 Hw2].
  unfold expand. cbn [snd]. apply foldl_process_child_reached.
  - by split_and!.
  - apply Forall_forall. intros c Hc. eapply rtc_r; [exact Hw1|exact Hc].
Qed.

Lemma solve_loop_reached (root : state) (n : nat) (st : solver) :
  reached_inv root st -> reached_inv root (solve_loop n st).2.
Proof.
  revert st. induction n as [|n IH]; intros st Hst;
    destruct (worklist st) as [|w rest] eqn:Hwl;
    rewrite ?(solve_loop_nil _ _ Hwl), ?(solve_loop_0 _ _ _ Hwl),
            ?(solve_loop_S _ _ _ _ Hwl); try done.
  pose proof (expand_reached root st w rest Hst Hwl) as Hst'.
  destruct (expand st w rest) as [[e|] st']; [done|]. by apply IH.
Qed.

Lemma solve_reached (n : nat) (b : board) (pieces : list piece) :
  reached_inv (b, pieces) (solve n b pieces).2.
Proof.
  apply solve_loop_reached. unfold reached_inv, solve_init. simpl.
  split_and!; [done|by constructor|done|done|done|constructor].
Qed.

Lemma reached_count (root s : state) :
  rtc child root s ->
  count_empty s.1 + length root.2 = count_empty root.1 + length s.2.
Proof.
  intros H. revert s H. apply rtc_ind_r; [lia|].
  intros s c _ Hsc IH. destruct (child_count _ _ Hsc). lia.
Qed.

(** X22. The "best solution found so far" is always a state of the search:
    the initial state or a state reached from it by placing pieces, one per
    step.  It has placed as many pieces as its pool has lost, its pool is
    never larger than the initial pool, and it is never a finished board
    unless the initial pool was empty. *)
Theorem tracker_is_reached (n : nat) (b : board) (pieces : list piece) :
  rtc child (b, pieces)
      (min_board (solve n b pieces).2, min_pieces (solve n b pieces).2) /\
  count_empty (min_board (solve n b pieces).2) + length pieces =
    count_empty b + length (min_pieces (solve n b pieces).2) /\
  length (min_pieces (solve n b pieces).2) <= length pieces /\
  (pieces <> [] -> min_pieces (solve n b pieces).2 <> []).
Proof.
  destruct (solve_reached n b pieces) as (_ & _ & Ht & Hlen & Hne & _).
  split_and!; [done| |done|done].
  apply (reached_count (b, pieces) _ Ht).
Qed.


(** ** The size of the work list *)

Lemma stack_bound_closed (K : nat) : stack_bound K = 4 * K * (K + 1).
Proof. induction K as [|K IH]; [done|]. cbn [stack_bound]. lia. Qed.

Lemma filter_split_length {A : Type} (P : A -> Prop)
    `{forall x, Decision (P x)} (l : list A) :
  length l = length (filter P l) + length (filter (fun x => ~ P x) l).
Proof.
  induction l as [|x l IH]; [done|]. destruct (decide (P x)) as [Hx|Hx].
  - rewrite filter_cons_True by done.
    rewrite (filter_cons_False (fun x => ~ P x)) by tauto. simpl. lia.
  - rewrite filter_cons_False by done.
    rewrite (filter_cons_True (fun x => ~ P x)) by done. simpl. lia.
Qed.

Lemma count_size_cons (j : nat) (s : state) (wl : list state) :
  count_size j (s :: wl) =
  (if decide (length s.2 = j) then 1 else 0) + count_size j wl.
Proof.
  unfold count_size. destruct (decide (length s.2 = j)) as [Hs|Hs].
  - by rewrite filter_cons_True.
  - by rewrite filter_cons_False.
Qed.

Lemma count_size_filter (j : nat) (Q : state -> Prop)
    `{forall s, Decision (Q s)} (wl : list state) :
  count_size j (filter Q wl) <= count_size j wl.
Proof.
  induction wl as [|s wl IH]; [done|]. destruct (decide (Q s)) as [Hs|Hs].
  - rewrite filter_cons_True by done. rewrite !count_size_cons. lia.
  - rewrite filter_cons_False by done. rewrite count_size_cons. lia.
Qed.

Lemma count_size_zero (j k : nat) (wl : list state) :
  Forall (fun s : state => k <= length s.2) wl -> j < k ->
  count_size j wl = 0.
Proof.
  intros Hwl Hj. induction Hwl as [|s wl Hs _ IH]; [done|].
  rewrite count_size_cons, IH. rewrite decide_False by lia. done.
Qed.

(** A work list of that shape is no longer than [stack_bound K]. *)
Lemma stack_inv_length (K : nat) (wl : list state) :
  Forall (fun s : state => length s.2 < K) wl ->
  (forall j, count_size j wl <= 8 * (j + 1)) ->
  length wl <= stack_bound K.
Proof.
  revert wl. induction K as [|K IH]; intros wl Hwl Hcount.
  - destruct wl as [|s wl]; [done|].
    apply Forall_cons in Hwl as [Hs _]. lia.
  - rewrite (filter_split_length (fun s : state => length s.2 = K)).
    cbn [stack_bound]. specialize (Hcount K) as HK. unfold count_size in HK.
    assert (length (filter (fun s : state => length s.2 <> K) wl)
            <= stack_bound K); [|lia].
    apply IH.
    + apply Forall_forall. intros s [Hne Hs]%list_elem_of_filter.
      rewrite Forall_forall in Hwl. specialize (Hwl s Hs). lia.
    + intros j. etrans; [apply count_size_filter|apply Hcount].
Qed.

Lemma process_child_queue (K k : nat) (st : solver) (c : state) :
  length c.2 = k -> k < K ->
  queue_inv K st ->
  Forall (fun s : state => k <= length s.2) (worklist st) ->
  S (count_size k (worklist st)) <= 8 * (k + 1) ->
  queue_inv K (process_child st c) /\
  Forall (fun s : state => k <= length s.2)
         (worklist (process_child st c)) /\
  count_size k (worklist (process_child st c)) <=
    S (count_size k (worklist st)).
Proof.
  intros Hc HkK ((Hsorted & Hsize & Hcount) & Hem & Hpr) Hge Hroom.
  pose proof (stack_inv_length K _ Hsize Hcount) as Hlen.
  destruct c as [nb np]. simpl in Hc. unfold process_child, queue_inv.
  destruct (accept nb np) eqn:Hacc;
    cbn [worklist emitted printed].
  - split_and!; [done| |done|done|lia].
    apply Forall_app. split; [done|]. by repeat constructor.
  - assert (Hstack : stack_inv K ((nb, np) :: worklist st)).
    { split_and!.
      - constructor; [done|].
        eapply Forall_impl; [exact Hge|]. intros s Hs. simpl in *. lia.
      - constructor; [simpl; lia|done].
      - intros j. rewrite count_size_cons. simpl.
        destruct (decide (length np = j)) as [<-|Hj].
        + rewrite Hc. lia.
        + apply Hcount. }
    split_and!; [done|done| | |].
    + case_bool_decide; [|done].
      apply Forall_app. split; [done|]. constructor; [|constructor].
      cbn [snap_queued]. destruct Hstack as (_ & Hsize' & Hcount').
      apply (stack_inv_length K _ Hsize' Hcount').
    + constructor; [simpl; lia|done].
    + rewrite count_size_cons. simpl. rewrite decide_True by done. lia.
Qed.

Lemma foldl_process_child_queue (K k : nat) (st : solver)
    (cs : list state) :
  Forall (fun c : state => length c.2 = k) cs -> k < K ->
  queue_inv K st ->
  Forall (fun s : state => k <= length s.2) (worklist st) ->
  count_size k (worklist st) + length cs <= 8 * (k + 1) ->
  queue_inv K (foldl process_child st cs).
Proof.
  revert st. induction cs as [|c cs IH]; intros st Hcs HkK Hst Hge Hroom;
    simpl; [done|].
  apply Forall_cons in Hcs as [Hc Hcs]. simpl in Hroom.
  destruct (process_child_queue K k st c Hc HkK Hst Hge)
    as (Hst' & Hge' & Hcount'); [lia|].
  apply IH; [done|done|done|done|lia].
Qed.

(** One iteration, from a state [w] with at most [K] pieces popped off a
    work list whose other states have no smaller pools than [w]. *)
Lemma expand_queue (K : nat) (st : solver) (w : state)
    (rest : list state) :
  length w.2 <= K ->
  queue_inv K
    (Solver rest (min_board st) (min_pieces st) (n_explored st)
            (emitted st) (printed st)) ->
  Forall (fun s : state => length w.2 <= length s.2) rest ->
  queue_inv K (expand st w rest).2.
Proof.
  intros HwK Hst0 Hrest. unfold expand. cbn [snd].
  set (st0 := Solver rest _ _ _ _ _) in *.
  pose proof (possible_moves_length w.1 w.2) as Hn.
  destruct (length w.2) as [|k] eqn:Hlen.
  - destruct (yields (possible_moves w.1 w.2)); [done|simpl in Hn; lia].
  - apply (foldl_process_child_queue K k).
    + apply Forall_forall. intros c Hc.
      destruct (child_count w c Hc) as [_ Hl]. lia.
    + lia.
    + done.
    + eapply Forall_impl; [exact Hrest|]. intros s Hs. simpl in Hs. lia.
    + change (worklist st0) with rest.
      rewrite (count_size_zero k (S k)); [lia|done|lia].
Qed.

Lemma solve_loop_queue (K : nat) (n : nat) (st : solver) :
  queue_inv K st -> queue_inv K (solve_loop n st).2.
Proof.
  revert st. induction n as [|n IH]; intros st Hst;
    destruct (worklist st) as [|w rest] eqn:Hwl;
    rewrite ?(solve_loop_nil _ _ Hwl), ?(solve_loop_0 _ _ _ Hwl),
            ?(solve_loop_S _ _ _ _ Hwl); try done.
  assert (queue_inv K (expand st w rest).2) as Hst'.
  { destruct Hst as ((Hsorted & Hsize & Hcount) & Hem & Hpr).
    rewrite Hwl in Hsorted, Hsize, Hcount.
    apply StronglySorted_inv in Hsorted as [Hsorted Hw].
    apply Forall_cons in Hsize as [HwK Hsize].
    apply expand_queue; [lia| |done].
    unfold queue_inv, stack_inv. cbn [worklist emitted printed].
    split_and!; try done.
    intros j. specialize (Hcount j). rewrite count_size_cons in Hcount.
    lia. }
  destruct (expand st w rest) as [[e|] st']; [done|]. by apply IH.
Qed.

Lemma solve_queue (n : nat) (b : board) (pieces : list piece) :
  solve n b pieces = (Running, solve_init b pieces) \/
  queue_inv (length pieces) (solve n b pieces).2.
Proof.
  destruct n as [|n]; [by left|right].
  unfold solve. rewrite (solve_loop_S _ _ (b, pieces) []) by done.
  assert (queue_inv (length pieces)
            (expand (solve_init b pieces) (b, pieces) []).2) as Hst.
  { apply expand_queue; [done| |constructor].
    unfold queue_inv, stack_inv. cbn [worklist emitted printed].
    split_and!; try constructor.
    intros j. unfold count_size. simpl. lia. }
  destruct (expand _ _ _) as [[e|] st']; [done|].
  by apply solve_loop_queue.
Qed.

(** X24. The depth-first work list stays small: with [K] pieces in the
    initial pool it never holds more than [4 * K * (K + 1)] states (or the
    initial state alone), and no queue size that [solve] yields or prints
    is larger; for the sixteen pieces of the puzzle that is 1088. *)
Theorem solve_queue_bounded (n : nat) (b : board) (pieces : list piece) :
  length (worklist (solve n b pieces).2) <=
    Nat.max 1 (4 * length pieces * (length pieces + 1)) /\
  Forall (fun t : board * Z * nat =>
            t.2 <= 4 * length pieces * (length pieces + 1))
         (emitted (solve n b pieces).2) /\
  Forall (fun s => snap_queued s <= 4 * length pieces * (length pieces + 1))
         (printed (solve n b pieces).2).
Proof.
  destruct (solve_queue n b pieces) as [->|Hinv].
  - simpl. split_and!; [lia|constructor|constructor].
  - destruct Hinv as ((_ & Hsize & Hcount) & Hem & Hpr).
    rewrite <- stack_bound_closed. split_and!; [|done|done].
    pose proof (stack_inv_length _ _ Hsize Hcount). lia.
Qed.

(** ** The order of the search *)

(** The [for] loop over the children of one state: the children that are
    not solutions go on the right end of the work list in their order, the
    others are yielded in their order. *)
Lemma foldl_process_child_shape (st : solver) (cs : list state) :
  worklist (foldl process_child st cs) =
    reverse (filter (fun c : state => c.2 <> []) cs) ++ worklist st /\
  (fun t : board * Z * nat => t.1.1) <$> emitted (foldl process_child st cs) =
    ((fun t : board * Z * nat => t.1.1) <$> emitted st) ++
    (fst <$> filter (fun c : state => c.2 = []) cs).
Proof.
  revert st. induction cs as [|[nb np] cs IH]; intros st.
  - simpl. by rewrite app_nil_r.
  - cbn [foldl]. destruct (IH (process_child st (nb, np))) as [-> ->].
    unfold process_child. destruct (accept nb np) eqn:Hacc;
      cbn [worklist emitted].
    + apply accept_true in Hacc. subst np.
      rewrite filter_cons_False by (intros H; by apply H).
      rewrite filter_cons_True by done.
      rewrite fmap_app, fmap_cons, <- app_assoc. done.
    + assert (np <> []) as Hne.
      { intros H. apply (accept_true nb) in H. congruence. }
      rewrite filter_cons_True by done.
      rewrite filter_cons_False by done.
      rewrite reverse_cons, <- app_assoc. done.
Qed.

Lemma depth_first_children (w : state) :
  depth_first (length w.2) w =
  (fst <$> filter (fun c : state => c.2 = [])
                  (yields (possible_moves w.1 w.2))) ++
  concat ((fun s : state => depth_first (length s.2) s) <$>
          reverse (filter (fun c : state => c.2 <> [])
                          (yields (possible_moves w.1 w.2)))).
Proof.
  pose proof (possible_moves_length w.1 w.2) as Hn.
  destruct (length w.2) as [|k] eqn:Hlen.
  - by destruct (yields (possible_moves w.1 w.2)); [|simpl in Hn; lia].
  - cbn [depth_first]. f_equal. f_equal.
    apply list_fmap_ext. intros i c Hc.
    apply list_elem_of_lookup_2, elem_of_reverse, list_elem_of_filter in Hc
      as [_ Hc].
    destruct (child_count w c Hc) as [_ Hl].
    replace (length c.2) with k by lia. done.
Qed.

Lemma solve_loop_depth_first (n : nat) (st : solver) :
  (solve_loop n st).1 = Returned ->
  solutions (solve_loop n st) =
  ((fun t : board * Z * nat => t.1.1) <$> emitted st) ++
  concat ((fun s : state => depth_first (length s.2) s) <$> worklist st).
Proof.
  revert st. induction n as [|n IH]; intros st;
    destruct (worklist st) as [|w rest] eqn:Hwl;
    rewrite ?(solve_loop_nil _ _ Hwl), ?(solve_loop_0 _ _ _ Hwl),
            ?(solve_loop_S _ _ _ _ Hwl); try done.
  - intros _. unfold solutions. simpl. by rewrite app_nil_r.
  - intros _. unfold solutions. simpl. by rewrite app_nil_r.
  - destruct (expand st w rest) as [[e|] st'] eqn:Hexp; [done|].
    intros Hret. rewrite (IH st' Hret).
    unfold expand in Hexp. injection Hexp as _ <-.
    destruct (foldl_process_child_shape
      (Solver rest (min_board st) (min_pieces st) (n_explored st)
              (emitted st) (printed st))
      (yields (possible_moves w.1 w.2))) as [-> ->].
    cbn [worklist emitted].
    rewrite fmap_app, concat_app, fmap_cons, concat_cons.
    rewrite (depth_first_children w), <- !app_assoc. done.
Qed.

(** X25. The search is depth first and takes the children of a state from
    the last to the first: a run that returns has yielded exactly the
    boards of the recursive traversal [depth_first] of the initial state,
    in that order. *)
Theorem solve_is_depth_first (n : nat) (b : board) (pieces : list piece) :
  (solve n b pieces).1 = Returned ->
  solutions (solve n b pieces) = depth_first (length pieces) (b, pieces).
Proof.
  intros Hret. unfold solve in *.
  rewrite (solve_loop_depth_first _ _ Hret). simpl. by rewrite app_nil_r.
Qed.

Lemma solve_is_depth_first_witness :
  solutions (solve 20 [["_"; "_"]] ["ABCD"; "CCCA"]) =
  depth_first 2 ([["_"; "_"]], ["ABCD"; "CCCA"]).
Proof.
  apply (solve_is_depth_first 20 [["_"; "_"]] ["ABCD"; "CCCA"]).
  vm_compute. reflexivity.
Defined.

(** ** The children share no board object *)

Lemma board_objects_fresh (h h' : gmap nat Store.obj) (nl l : nat) :
  Store.fresh_board h h' nl -> l ∈ board_objects h' nl -> l ∉ dom h.
Proof.
  intros (Hnl & ls & Hls & Hall). unfold board_objects. rewrite Hls.
  intros [->|Hl]%elem_of_cons; [done|].
  rewrite Forall_forall in Hall. by apply Hall.
Qed.

Lemma board_objects_weaken (h h' : gmap nat Store.obj) (nl : nat)
    (ls : list nat) :
  h ⊆ h' -> Store.read_refs h nl = Some ls ->
  board_objects h' nl = nl :: ls.
Proof.
  intros Hsub Hls. unfold board_objects.
  by rewrite (read_refs_weaken _ _ _ _ Hsub Hls).
Qed.

(** The objects of a board that can be read are in the store. *)
Lemma board_objects_dom (h : gmap nat Store.obj) (nl l : nat) (b : board) :
  Store.read_board h nl = Some b -> l ∈ board_objects h nl -> l ∈ dom h.
Proof.
  intros (ls & Hnl & Hrows)%read_board_inv. unfold board_objects.
  unfold Store.read_refs. rewrite Hnl.
  intros [->|Hl]%elem_of_cons; [by apply elem_of_dom; eauto|].
  apply list_elem_of_lookup in Hl as [i Hi].
  destruct (Forall2_lookup_l _ _ _ _ _ Hrows Hi) as (r & _ & Hr).
  unfold Store.read_strs in Hr. apply elem_of_dom.
  destruct (h !! l); [eauto|done].
Qed.

Lemma read_state_board (h : gmap nat Store.obj) (c : nat * nat)
    (v : state) :
  Store.read_state h c = Some v -> Store.read_board h c.1 = Some v.1.
Proof.
  unfold Store.read_state.
  destruct (Store.read_board h c.1) as [b|]; simpl; [|done].
  destruct (Store.read_strs h c.2) as [ps|]; simpl; [|done].
  by intros [= <-].
Qed.

Lemma separate_nil (h : gmap nat Store.obj) : separate h [].
Proof. intros i j c1 c2 _ Hi. by rewrite lookup_nil in Hi. Qed.

Lemma separate_cons (h : gmap nat Store.obj) (c : nat * nat)
    (cs : list (nat * nat)) :
  (forall c2, c2 ∈ cs ->
     forall l, l ∈ board_objects h c.1 -> l ∉ board_objects h c2.1) ->
  separate h cs -> separate h (c :: cs).
Proof.
  intros Hc Hcs i j c1 c2 Hij Hi Hj.
  destruct j as [|j]; [lia|]. simpl in Hj.
  destruct i as [|i]; simpl in Hi.
  - injection Hi as <-. apply Hc. by eapply list_elem_of_lookup_2.
  - apply (Hcs i j); [lia|done|done].
Qed.

Lemma separate_app (h : gmap nat Store.obj) (cs1 cs2 : list (nat * nat)) :
  separate h cs1 -> separate h cs2 ->
  (forall c1 c2, c1 ∈ cs1 -> c2 ∈ cs2 ->
     forall l, l ∈ board_objects h c1.1 -> l ∉ board_objects h c2.1) ->
  separate h (cs1 ++ cs2).
Proof.
  intros H1 H2 H12. induction cs1 as [|c cs1 IH]; [done|].
  simpl. apply separate_cons.
  - intros c2 [Hc2|Hc2]%elem_of_app.
    + apply list_elem_of_lookup in Hc2 as [j Hj].
      apply (H1 0 (S j)); [lia|done|done].
    + apply H12; [by left|done].
  - apply IH.
    + intros i j c1 c2 Hij Hi Hj. apply (H1 (S i) (S j)); [lia|done|done].
    + intros c1 c2 Hc1 Hc2. apply H12; [by right|done].
Qed.

(** Boards that can be read keep their objects when the store grows. *)
Lemma separate_weaken (h h' : gmap nat Store.obj) (cs : list (nat * nat))
    (vs : list state) :
  h ⊆ h' ->
  Forall2 (fun c v => Store.read_state h c = Some v) cs vs ->
  separate h cs -> separate h' cs.
Proof.
  intros Hsub Hvals Hsep i j c1 c2 Hij Hi Hj.
  destruct (Forall2_lookup_l _ _ _ _ _ Hvals Hi) as (v1 & _ & Hv1).
  destruct (Forall2_lookup_l _ _ _ _ _ Hvals Hj) as (v2 & _ & Hv2).
  apply read_state_board, read_board_inv in Hv1 as (ls1 & Hl1 & _).
  apply read_state_board, read_board_inv in Hv2 as (ls2 & Hl2 & _).
  specialize (Hsep i j c1 c2 Hij Hi Hj).
  rewrite (board_objects_weaken h h' c1.1 ls1),
          (board_objects_weaken h h' c2.1 ls2);
    [|done|by unfold Store.read_refs; rewrite Hl2
      |done|by unfold Store.read_refs; rewrite Hl1].
  unfold board_objects, Store.read_refs in Hsep.
  by rewrite Hl1, Hl2 in Hsep.
Qed.

Lemma store_moves_of_orientations_separate (bl : nat) (x y : nat)
    (npl : nat) (os : list piece) (h : gmap nat Store.obj) (b : board)
    (np : list piece) (g : gen (nat * nat)) (h' : gmap nat Store.obj) :
  Store.read_board h bl = Some b -> Store.read_strs h npl = Some np ->
  (forall o, exists nb, set_cell b x y o = Ok nb) ->
  Store.moves_of_orientations bl x y npl os h = Some (g, h') ->
  separate h' (yields g).
Proof.
  intros Hb Hnp Hset. revert h g h' Hb Hnp.
  induction os as [|p os IH]; intros h g h' Hb Hnp Hrun; simpl in Hrun.
  { injection Hrun as <- <-. apply separate_nil. }
  rewrite Hb in Hrun. simpl in Hrun.
  destruct (check_piece_fits b p x y) as [[]|e] eqn:Hfit.
  - destruct (copy_board_spec bl h b Hb)
      as (nl & h1 & ls & Hcopy & Hsub1 & Hnl & Hh1 & Hnew & Hnd & Hrows).
    destruct (Hset p) as [nb Hnb].
    destruct (assign_spec h1 nl ls b nb x y p Hh1 Hrows Hnd Hnb)
      as (rl & row & Hrl & Hassign & Hread).
    rewrite Hcopy in Hrun. simpl in Hrun.
    rewrite Hassign in Hrun. simpl in Hrun.
    set (h2 := <[rl := Store.Strs (<[x := p]> row)]> h1) in *.
    assert (Hrlnew : h !! rl = None).
    { apply not_elem_of_dom. rewrite Forall_forall in Hnew. apply Hnew.
      by eapply list_elem_of_lookup_2. }
    assert (Hsub2 : h ⊆ h2) by by apply insert_subseteq_r.
    assert (Hb2 : Store.read_board h2 bl = Some b)
      by by eapply read_board_weaken.
    assert (Hnp2 : Store.read_strs h2 npl = Some np)
      by by eapply read_strs_weaken.
    destruct (store_moves_of_orientations bl x y npl os h2 b np Hb2 Hnp2 Hset)
      as (g3 & h3 & Hrec & Hsub3 & _ & _ & Hfresh).
    rewrite Hrec in Hrun. simpl in Hrun. injection Hrun as <- <-.
    simpl. apply separate_cons.
    + intros c2 Hc2 l Hl Hl2. rewrite Forall_forall in Hfresh.
      destruct (Hfresh c2 Hc2) as [Hfr _].
      apply (board_objects_fresh _ _ _ _ Hfr Hl2).
      eapply (board_objects_dom h2 nl l); [exact Hread|].
      simpl in Hl. unfold board_objects in *.
      destruct (Store.read_refs h2 nl) as [ls2|] eqn:Hls2.
      * by rewrite (read_refs_weaken _ _ _ _ Hsub3 Hls2) in Hl.
      * apply read_board_inv in Hread as (ls2 & Hl2' & _).
        unfold Store.read_refs in Hls2. by rewrite Hl2' in Hls2.
    + by apply (IH h2).
  - by apply (IH h).
  - injection Hrun as <- <-. apply separate_nil.
Qed.

Lemma store_moves_of_pieces_separate (bl pl : nat) (x y : nat)
    (idxs : list nat) (nps : list (piece * list piece))
    (h : gmap nat Store.obj) (b : board) (ps : list piece)
    (g : gen (nat * nat)) (h' : gmap nat Store.obj) :
  Store.read_board h bl = Some b -> Store.read_strs h pl = Some ps ->
  (forall o, exists nb, set_cell b x y o = Ok nb) ->
  Forall2 (fun i (qn : piece * list piece) =>
             ps !! i = Some qn.1 /\ qn.2 = take i ps ++ drop (i + 1) ps)
          idxs nps ->
  Store.moves_of_pieces bl pl x y idxs h = Some (g, h') ->
  separate h' (yields g).
Proof.
  intros Hb Hps Hset Hidx. revert h g h' Hb Hps.
  induction Hidx as [|i [q np] idxs nps [Hi Hnp] Hidx IH];
    intros h g h' Hb Hps Hrun; simpl in Hrun.
  { injection Hrun as <- <-. apply separate_nil. }
  simpl in Hi, Hnp. rewrite Hps in Hrun. simpl in Hrun.
  rewrite Hi in Hrun. unfold Store.alloc in Hrun.
  set (npl := fresh (dom h)) in *.
  assert (Hfresh : h !! npl = None) by apply not_elem_of_dom, is_fresh.
  rewrite <- Hnp in Hrun. set (h1 := <[npl := Store.Strs np]> h) in *.
  assert (Hsub1 : h ⊆ h1) by by apply insert_subseteq.
  destruct (orientations q) as [os|e] eqn:Hos.
  2: { injection Hrun as <- <-. apply separate_nil. }
  assert (Hb1 : Store.read_board h1 bl = Some b)
    by by eapply read_board_weaken.
  assert (Hnp1 : Store.read_strs h1 npl = Some np).
  { unfold Store.read_strs, h1. by rewrite lookup_insert_eq. }
  destruct (store_moves_of_orientations bl x y npl os h1 b np Hb1 Hnp1 Hset)
    as (g1 & h2 & Hrun1 & Hsub2 & _ & Hvals1 & _).
  pose proof (store_moves_of_orientations_separate
    bl x y npl os h1 b np g1 h2 Hb1 Hnp1 Hset Hrun1) as Hsep1.
  rewrite Hrun1 in Hrun. simpl in Hrun.
  destruct (raised g1) as [e|] eqn:Hr1.
  - by injection Hrun as <- <-.
  - assert (Hb2 : Store.read_board h2 bl = Some b)
      by by eapply read_board_weaken.
    assert (Hps2 : Store.read_strs h2 pl = Some ps).
    { eapply read_strs_weaken; [|exact Hps].
      etrans; [exact Hsub1|exact Hsub2]. }
    destruct (store_moves_of_pieces bl pl x y idxs nps h2 b ps Hb2 Hps2
                Hset Hidx)
      as (g2 & h3 & Hrun2 & Hsub3 & _ & _ & Hfresh2).
    rewrite Hrun2 in Hrun. simpl in Hrun. injection Hrun as <- <-.
    unfold gen_seq. rewrite Hr1. simpl. apply separate_app.
    + eapply separate_weaken; [exact Hsub3|exact Hvals1|exact Hsep1].
    + by apply (IH h2).
    + intros c1 c2 Hc1 Hc2 l Hl Hl2. rewrite Forall_forall in Hfresh2.
      destruct (Hfresh2 c2 Hc2) as [Hfr _].
      apply (board_objects_fresh _ _ _ _ Hfr Hl2).
      apply list_elem_of_lookup in Hc1 as [k Hk].
      destruct (Forall2_lookup_l _ _ _ _ _ Hvals1 Hk) as (v1 & _ & Hv1).
      apply read_state_board in Hv1.
      eapply (board_objects_dom h2 c1.1 l); [exact Hv1|].
      apply read_board_inv in Hv1 as (ls1 & Hl1 & _).
      rewrite (board_objects_weaken h2 h3 c1.1 ls1) in Hl;
        [|done|by unfold Store.read_refs; rewrite Hl1].
      unfold board_objects, Store.read_refs. by rewrite Hl1.
Qed.

(** X26. The children of one call of [possible_moves] are separate
    objects: the call returns, and no two of the boards it yields have a
    list object in common, neither the board object nor a row object, so
    that writing a cell of one child cannot change another child. *)
Theorem children_share_no_board_object (h : gmap nat Store.obj)
    (bl pl : nat) (b : board) (ps : list piece) :
  Store.read_board h bl = Some b -> Store.read_strs h pl = Some ps ->
  exists g h',
    Store.possible_moves bl pl h = Some (g, h') /\
    separate h' (yields g).
Proof.
  intros Hb Hps. unfold Store.possible_moves. rewrite Hb, Hps. simpl.
  destruct (next_free b) as [[x y]|] eqn:Hfree.
  - assert (Hset : forall o, exists nb, set_cell b x y o = Ok nb).
    { intros o. destruct (next_free_Some _ _ _ Hfree)
        as (b1 & r1 & r2 & b2 & -> & -> & -> & _).
      rewrite set_cell_middle. eauto. }
    destruct (store_moves_of_pieces bl pl x y (seq 0 (length ps))
                (next_piece ps) h b ps Hb Hps Hset (next_piece_indices ps))
      as (g & h' & Hrun & _).
    exists g, h'. split; [done|].
    by eapply store_moves_of_pieces_separate;
      [exact Hb|exact Hps|exact Hset|apply next_piece_indices|].
  - exists (gen_raise TypeError), h. split; [done|apply separate_nil].
Qed.

Lemma children_share_no_board_object_witness :
  let h : gmap nat Store.obj :=
    <[0 := Store.Strs ["_"; "_"]]>
      (<[1 := Store.Refs [0; 0]]> (<[2 := Store.Strs ["AAAA"]]> ∅)) in
  exists g h',
    Store.possible_moves 1 2 h = Some (g, h') /\
    separate h' (yields g).
Proof.
  intros h.
  apply (children_share_no_board_object h 1 2
           [["_"; "_"]; ["_"; "_"]] ["AAAA"]).
  - vm_compute. reflexivity.
  - vm_compute. reflexivity.
Defined.
